(** * Constraint-graph analysis of arithmetic circuits

    A shallow embedding of the Go package [internal] of
    circuit-graph-analysis: the loaders of the constraint list and of the
    signal table, the graph builder, and the two analyses that run over the
    built graph (degree-based underconstraint detection and connected
    components after removing the constant signal).

    Conventions.
    - Go's [int] and [int64] are modelled by [Z]; no arithmetic in the
      modelled code can overflow (indices are only compared and looked up).
    - A run-time panic (index out of range, gonum's "node ID collision" and
      "adding self edge", a nil dereference) is an explicit result,
      [Panicked]: the functions of the model return [outcome].
    - Go iterates over a map in an unspecified order.  Every [range] over a
      map goes through [rangeMap], which reorders the entries of the map
      with a function the whole development is parametric in; the theorems
      hold for every such function that permutes the entries.
    - The graph is gonum's [simple.UndirectedGraph] (go.mod pins gonum
      v0.15.1): a map of nodes by ID and a symmetric map of maps of edges. *)

From Stdlib Require Import ZArith Lia Ascii.
From stdpp Require Import base tactics option list gmap sets strings fin_maps relations.

Open Scope Z_scope.

(** ** Results of partial operations *)

(** The reasons for which the modelled code can panic. *)
Inductive panic : Type :=
| IndexOutOfRange (index : Z) (len : nat)
| NodeIDCollision (id : Z)
| AddingSelfEdge
| NilDereference
| MakeSliceLenOutOfRange (len : Z)
| IntnInvalidArgument.

(** [Done a]: the call returns [a].  [Panicked p]: the call panics.
    [OutOfSteps]: the step budget of a loop of the model is used up (the
    traversal of section "Connected components" is the only loop with a
    budget, and [ConnectedComponents_spec] shows the budget is never used up). *)
Inductive outcome (A : Type) : Type :=
| Done (a : A)
| Panicked (p : panic)
| OutOfSteps.
Arguments Done {A} a.
Arguments Panicked {A} p.
Arguments OutOfSteps {A}.

#[global] Instance outcome_ret : MRet outcome := λ A a, Done a.
#[global] Instance outcome_bind : MBind outcome := λ A B f m,
  match m with
  | Done a => f a
  | Panicked p => Panicked p
  | OutOfSteps => OutOfSteps
  end.

(** A [for] loop over a slice whose body can panic. *)
Fixpoint foldlM {A B : Type} (f : A → B → outcome A) (a : A) (l : list B) : outcome A :=
  match l with
  | [] => Done a
  | b :: l' => a' ← f a b; foldlM f a' l'
  end.

(** [s[i]] on a slice: panics unless [0 <= i < len(s)]. *)
Definition index {A : Type} (s : list A) (i : Z) : outcome A :=
  if decide (0 ≤ i) then
    match s !! Z.to_nat i with
    | Some a => Done a
    | None => Panicked (IndexOutOfRange i (length s))
    end
  else Panicked (IndexOutOfRange i (length s)).

(** One iteration order for maps: the entries as [map_to_list] lists them.
    It is the order used to evaluate the model on concrete inputs. *)
Definition listed_order : ∀ K A : Type, list (K * A) → list (K * A) := λ _ _ l, l.

(** Another iteration order: the entries from the last to the first. *)
Definition reversed_order : ∀ K A : Type, list (K * A) → list (K * A) := λ _ _ l, reverse l.

(** ** The graph: gonum's simple.UndirectedGraph *)

(** analyzer.go, [type NamedNode struct]. *)
Record NamedNode : Type := mkNamedNode { IDVal : Z; Name : string }.

(** gonum [simple.Edge]: the two end nodes, in the order they were given. *)
Record Edge : Type := mkEdge { F : NamedNode; T : NamedNode }.

(** gonum [simple.UndirectedGraph]: [nodes map[int64]graph.Node] and
    [edges map[int64]map[int64]graph.Edge]. *)
Record UndirectedGraph : Type := mkGraph {
  nodes : gmap Z NamedNode;
  edges : gmap Z (gmap Z Edge)
}.

#[global] Instance NamedNode_eq_dec : EqDecision NamedNode.
Proof. solve_decision. Defined.
#[global] Instance Edge_eq_dec : EqDecision Edge.
Proof. solve_decision. Defined.

(** The constraint list, [type Constraints [][3][]int64]: each constraint is
    an array of three linear expressions, each the signals it uses. *)
Abbreviation Constraint := (list Z * list Z * list Z)%type (only parsing).
Abbreviation Constraints := (list (list Z * list Z * list Z)) (only parsing).

(** The three linear expressions of a constraint, in index order. *)
Definition expressions (c : Constraint) : list (list Z) :=
  let '(a, b, c) := c in [a; b; c].

(** The code points of a text of ASCII characters (each byte is then one
    code point): used to write keys down. *)
Definition runes (s : string) : list Z :=
  (λ a, Z.of_N (Ascii.N_of_ascii a)) <$> String.list_ascii_of_string s.

(** A linear congruential generator, an instance of the random source. *)
Definition lcg_draw (n : Z) (s : Z) : Z * Z :=
  (s `mod` n, (1103515245 * s + 12345) `mod` 2 ^ 31).

Section Model.

(** The iteration order of Go maps: any function that reorders the list of
    entries.  [range_permutes] is what the theorems assume of it. *)
Variable range_order : ∀ K A : Type, list (K * A) → list (K * A).
Hypothesis range_permutes : ∀ (K A : Type) (l : list (K * A)), range_order K A l ≡ₚ l.

(** [for k, v := range m]. *)
Definition rangeMap {K A : Type} `{Countable K} (m : gmap K A) : list (K * A) :=
  range_order K A (map_to_list m).

(** [simple.NewUndirectedGraph()]. *)
Definition NewUndirectedGraph : UndirectedGraph := mkGraph ∅ ∅.

(** [g.Node(id)]: the node, or nil. *)
Definition Node (g : UndirectedGraph) (id : Z) : option NamedNode := nodes g !! id.

(** [g.AddNode(n)]: panics when the ID is taken. *)
Definition AddNode (g : UndirectedGraph) (n : NamedNode) : outcome UndirectedGraph :=
  match nodes g !! IDVal n with
  | Some _ => Panicked (NodeIDCollision (IDVal n))
  | None => Done (mkGraph (<[IDVal n := n]> (nodes g)) (edges g))
  end.

(** The first half of [g.SetEdge]: the end node [n] is added when its ID
    is new and replaces the node of that ID otherwise. *)
Definition setEndNode (g : UndirectedGraph) (n : NamedNode) : outcome UndirectedGraph :=
  match nodes g !! IDVal n with
  | None => AddNode g n
  | Some _ => Done (mkGraph (<[IDVal n := n]> (nodes g)) (edges g))
  end.

(** [g.edges[x][y] = e], creating the inner map when [x] has none. *)
Definition putEdge (x y : Z) (e : Edge) (em : gmap Z (gmap Z Edge)) : gmap Z (gmap Z Edge) :=
  <[x := <[y := e]> (default ∅ (em !! x))]> em.

(** [g.SetEdge(e)]: panics on equal end IDs; stores [e] in both
    directions. *)
Definition SetEdge (g : UndirectedGraph) (e : Edge) : outcome UndirectedGraph :=
  let fid := IDVal (F e) in
  let tid := IDVal (T e) in
  if decide (fid = tid) then Panicked AddingSelfEdge
  else
    g1 ← setEndNode g (F e);
    g2 ← setEndNode g1 (T e);
    Done (mkGraph (nodes g2) (putEdge tid fid e (putEdge fid tid e (edges g2)))).

(** [g.RemoveNode(id)]: no-op when the node is absent; otherwise the node,
    the entries for [id] in the maps of its neighbours and its own map of
    edges are deleted. *)
Definition RemoveNode (g : UndirectedGraph) (id : Z) : UndirectedGraph :=
  match nodes g !! id with
  | None => g
  | Some _ =>
      let em := foldl (λ em from, alter (delete id) from em) (edges g)
                      ((rangeMap (default ∅ (edges g !! id))).*1) in
      mkGraph (delete id (nodes g)) (delete id em)
  end.

(** [g.Nodes()], as the sequence the iterator yields. *)
Definition Nodes (g : UndirectedGraph) : list NamedNode := (rangeMap (nodes g)).*2.

(** [g.From(id)], as the sequence the iterator yields: for each key of
    [g.edges[id]] the entry of [g.nodes] at that key (nil when there is
    none).  [Len()] of the iterator is the length of this list. *)
Definition From (g : UndirectedGraph) (id : Z) : list (option NamedNode) :=
  (λ v, nodes g !! v) <$> (rangeMap (default ∅ (edges g !! id))).*1.

(** [e.ReversedEdge()]. *)
Definition ReversedEdge (e : Edge) : Edge := mkEdge (T e) (F e).

(** [g.Edge(x, y)] = [g.EdgeBetween(x, y)]: the stored edge, turned so that
    it starts at [x]; nil when there is none. *)
Definition EdgeBetween (g : UndirectedGraph) (x y : Z) : option Edge :=
  match edges g !! x ≫= (.!! y) with
  | None => None
  | Some e => if decide (IDVal (F e) = x) then Some e else Some (ReversedEdge e)
  end.

(** The loop of [g.Edges()] over one row: an edge is kept unless the
    pair of its end IDs was seen; both orders of the pair are then marked. *)
Definition collectEdge (acc : list Edge * gset (Z * Z)) (e : Edge) : list Edge * gset (Z * Z) :=
  let uid := IDVal (F e) in
  let vid := IDVal (T e) in
  if decide ((uid, vid) ∈ acc.2) then acc
  else (acc.1 ++ [e], {[(uid, vid); (vid, uid)]} ∪ acc.2).

(** The two nested loops of [g.Edges()] over the rows it is given. *)
Definition collectEdges (rows : list (list Edge)) : list Edge :=
  (foldl (λ acc row, foldl collectEdge acc row) ([], ∅) rows).1.

(** [g.Edges()], as the sequence the iterator yields. *)
Definition Edges (g : UndirectedGraph) : list Edge :=
  collectEdges ((λ row, (rangeMap row.2).*2) <$> rangeMap (edges g)).

(** ** The graph builder (analyzer.go, buildGraph) *)

(** Lines 149-154: the set of the signals of one constraint. *)
Definition signalSetOf (c : Constraint) : gmap Z unit :=
  foldl (λ signalSet linearExpression,
           foldl (λ signalSet signal, <[signal := tt]> signalSet) signalSet linearExpression)
        ∅ (expressions c).

(** Lines 159-165, the body of the loop over the signal set: the node of
    the signal is fetched, or created with the name [signals[signal]] and
    added; it is appended to [nodes]. *)
Definition nodeFor (signals : list string) (st : UndirectedGraph * list NamedNode) (signal : Z)
  : outcome (UndirectedGraph * list NamedNode) :=
  match Node st.1 signal with
  | Some node => Done (st.1, st.2 ++ [node])
  | None =>
      name ← index signals signal;
      let node := mkNamedNode signal name in
      graph ← AddNode st.1 node;
      Done (graph, st.2 ++ [node])
  end.

(** Lines 169-173: [for i { for j := i+1 { SetEdge(nodes[i], nodes[j]) } }]. *)
Fixpoint connectAll (graph : UndirectedGraph) (ns : list NamedNode) : outcome UndirectedGraph :=
  match ns with
  | [] => Done graph
  | ni :: rest =>
      graph' ← foldlM (λ g nj, SetEdge g (mkEdge ni nj)) graph rest;
      connectAll graph' rest
  end.

(** The body of the loop over the constraints. *)
Definition addConstraint (signals : list string) (graph : UndirectedGraph) (c : Constraint)
  : outcome UndirectedGraph :=
  st ← foldlM (nodeFor signals) (graph, []) ((rangeMap (signalSetOf c)).*1);
  connectAll st.1 st.2.

Definition buildGraph (data : Constraints) (signals : list string) : outcome UndirectedGraph :=
  foldlM (addConstraint signals) NewUndirectedGraph data.

(** ** The graph analyzer (analyzer.go) *)

(** [findUnderconstrainedSignals]: the names of the nodes [n] with
    [graph.From(n.ID()).Len() <= 1], in the order [graph.Nodes()] yields
    them. *)
Definition findUnderconstrainedSignals (graph : UndirectedGraph) : list string :=
  foldl (λ underconstrained n,
           if decide (length (From graph (IDVal n)) ≤ 1)%nat
           then underconstrained ++ [Name n]
           else underconstrained)
        [] (Nodes graph).

(** Graphs are handled through pointers ([*simple.UndirectedGraph]): the
    heap maps the address of a graph to its current value. *)
Definition deref (h : gmap positive UndirectedGraph) (p : positive) : outcome UndirectedGraph :=
  match h !! p with
  | Some g => Done g
  | None => Panicked NilDereference
  end.

(** A method call that mutates the graph at address [p]. *)
Definition mutate (h : gmap positive UndirectedGraph) (p : positive)
    (method : UndirectedGraph → outcome UndirectedGraph) : outcome (gmap positive UndirectedGraph) :=
  g ← deref h p;
  g' ← method g;
  Done (<[p := g']> h).

(** Using an interface value that may be nil. *)
Definition nonnil {A : Type} (v : option A) : outcome A :=
  match v with
  | Some a => Done a
  | None => Panicked NilDereference
  end.

(** gonum [graph.Copy(dst, src)]: every node of [src] is added to [dst],
    then for every node [u] of [src] and every [v] of [src.From(u)] the
    edge [src.Edge(u, v)] is set in [dst]. *)
Definition Copy (h : gmap positive UndirectedGraph) (dst src : positive)
  : outcome (gmap positive UndirectedGraph) :=
  s ← deref h src;
  h ← foldlM (λ h n, mutate h dst (λ d, AddNode d n)) h (Nodes s);
  foldlM (λ h u,
            s ← deref h src;
            foldlM (λ h v,
                      v ← nonnil v;
                      s ← deref h src;
                      e ← nonnil (EdgeBetween s (IDVal u) (IDVal v));
                      mutate h dst (λ d, SetEdge d e))
                   h (From s (IDVal u)))
         h (Nodes s).

(** The loop of gonum [traverse.DepthFirst.Walk] with [until] never true:
    pop a node; skip it when visited; otherwise mark it, hand it to
    [during] (which appends it to [c]) and push the nodes of [g.From].
    The head of [stack] is the top.  [budget] bounds the iterations. *)
Fixpoint walkLoop (budget : nat) (g : UndirectedGraph) (stack : list NamedNode)
    (visited : gset Z) (c : list NamedNode) : outcome (gset Z * list NamedNode) :=
  match stack with
  | [] => Done (visited, c)
  | u :: stack' =>
      match budget with
      | O => OutOfSteps
      | S budget' =>
          let uid := IDVal u in
          if decide (uid ∈ visited) then walkLoop budget' g stack' visited c
          else
            stack'' ← foldlM (λ st v, v ← nonnil v; Done (v :: st)) stack' (From g uid);
            walkLoop budget' g stack'' ({[uid]} ∪ visited) (c ++ [u])
      end
  end.

(** A number of iterations no walk over [g] exceeds: one for the start
    node, and for each row of [g.edges], one for the node and one for each
    of its entries. *)
Definition walkBudget (g : UndirectedGraph) : nat :=
  S (sum_list ((λ row, S (size row.2)) <$> map_to_list (edges g))).

(** The body of the loop of gonum [traverse.DepthFirst.WalkAll] as
    [topo.ConnectedComponents] calls it: an unvisited node starts a walk,
    and [after] appends the nodes the walk met as one component. *)
Definition walkFrom (g : UndirectedGraph) (st : gset Z * list (list NamedNode)) (from : NamedNode)
  : outcome (gset Z * list (list NamedNode)) :=
  if decide (IDVal from ∈ st.1) then Done st
  else
    r ← walkLoop (walkBudget g) g [from] st.1 [];
    Done (r.1, st.2 ++ [r.2]).

(** gonum [topo.ConnectedComponents(g)]. *)
Definition ConnectedComponents (g : UndirectedGraph) : outcome (list (list NamedNode)) :=
  st ← foldlM (walkFrom g) (∅, []) (Nodes g);
  Done st.2.

(** What [analyzeGraph] prints, one constructor per [Printf]/[Println]. *)
Inductive line : Type :=
| NodeCountLine (n : nat)
| UnderconstrainedLine (names : list string)
| NoUnderconstrainedLine
| SubgraphsFoundLine (n : nat)
| SubgraphLine (i : nat)
| NodeNameLine (name : string)
| NodeIDLine (id : Z)
| FullyConnectedLine.

(** Lines 217-225 of [analyzeGraph]. *)
Definition degreeReport (g : UndirectedGraph) : list line :=
  let underconstrained := findUnderconstrainedSignals g in
  [NodeCountLine (length (Nodes g));
   if decide (0 < length underconstrained)%nat
   then UnderconstrainedLine underconstrained
   else NoUnderconstrainedLine].

(** Lines 228-232: a new graph [gc], [graph.Copy(gc, g)],
    [gc.RemoveNode(0)].  Returns the heap and the address of [gc]. *)
Definition copyWithoutConstant (h : gmap positive UndirectedGraph) (g : positive)
  : outcome (gmap positive UndirectedGraph * positive) :=
  let gc := fresh (dom h) in
  let h := <[gc := NewUndirectedGraph]> h in
  h ← Copy h gc g;
  h ← mutate h gc (λ d, Done (RemoveNode d 0));
  Done (h, gc).

(** Lines 236-252: the report on the components; names are looked up in
    the original graph [g]. *)
Definition subgraphReport (g : UndirectedGraph) (subgraphs : list (list NamedNode)) : list line :=
  if decide (1 < length subgraphs)%nat then
    SubgraphsFoundLine (length subgraphs) ::
    mjoin (imap (λ i subgraph,
                   SubgraphLine (i + 1) ::
                   ((λ node,
                       match Node g (IDVal node) with
                       | Some namedNode => NodeNameLine (Name namedNode)
                       | None => NodeIDLine (IDVal node)
                       end) <$> subgraph))
                subgraphs)
  else [FullyConnectedLine].

Definition analyzeGraph (h : gmap positive UndirectedGraph) (g : positive)
  : outcome (gmap positive UndirectedGraph * list line) :=
  G ← deref h g;
  let out := degreeReport G in
  r ← copyWithoutConstant h g;
  GC ← deref r.1 r.2;
  subgraphs ← ConnectedComponents GC;
  G ← deref r.1 g;
  Done (r.1, out ++ subgraphReport G subgraphs).

(** ** The loaders *)

(** The errors the loaders return ([error] values, as opposed to panics). *)
Inductive error : Type :=
| ReadError          (* os.Open or os.ReadFile fails *)
| JSONSyntaxError    (* json.Unmarshal fails *)
| CSVParseError      (* encoding/csv: a quoting error in a record *)
| CSVFieldCount.     (* encoding/csv: ErrFieldCount, "wrong number of fields" *)

(** The symbol file as [csv.Reader] meets it: unreadable, or a sequence of
    records, each the list of its fields, or [None] for a record at which
    the reader reports a quoting error. *)
Inductive symFile : Type :=
| SymUnreadable
| SymRecords (rows : list (option (list string))).

(** [reader.ReadAll()] with the default [FieldsPerRecord = 0]: the first
    record sets the number of fields, and a later record with another
    number of fields is [ErrFieldCount].  Any error discards the records
    read so far. *)
Fixpoint ReadAll (fieldsPerRecord : nat) (rows : list (option (list string)))
    (records : list (list string)) : error + list (list string) :=
  match rows with
  | [] => inr records
  | None :: _ => inl CSVParseError
  | Some dst :: rest =>
      if decide (0 < fieldsPerRecord)%nat then
        if decide (length dst ≠ fieldsPerRecord) then inl CSVFieldCount
        else ReadAll fieldsPerRecord rest (records ++ [dst])
      else ReadAll (length dst) rest (records ++ [dst])
  end.

(** [LoadFromSym]: the pair [(signals, err)] it returns, or a panic. *)
Definition LoadFromSym (file : symFile) : outcome (list string * option error) :=
  match file with
  | SymUnreadable => Done ([], Some ReadError)
  | SymRecords rows =>
      match ReadAll 0 rows [] with
      | inl err => Done ([], Some err)
      | inr records =>
          signals ← foldlM (λ signals record,
                              name ← index record 3;
                              Done (signals ++ [name]))
                           ["1"%string] records;
          Done (signals, None)
      end
  end.

(** A Go string is taken as the sequence of its code points, which is how
    [fmt.Sscanf] reads it. *)

(** fmt/scan.go, [space] and [isSpace]. *)
Definition space : list (Z * Z) :=
  [(0x0009, 0x000d); (0x0020, 0x0020); (0x0085, 0x0085); (0x00a0, 0x00a0);
   (0x1680, 0x1680); (0x2000, 0x200a); (0x2028, 0x2029); (0x202f, 0x202f);
   (0x205f, 0x205f); (0x3000, 0x3000)].

Fixpoint inRanges (rx : Z) (ranges : list (Z * Z)) : bool :=
  match ranges with
  | [] => false
  | rng :: rest =>
      if decide (rx < rng.1) then false
      else if decide (rx ≤ rng.2) then true
      else inRanges rx rest
  end.

Definition isSpace (r : Z) : bool :=
  if decide (2 ^ 16 ≤ r) then false else inRanges r space.

(** fmt/scan.go, the method [SkipSpace] of [ss], in the mode of [Sscanf] (a newline is
    not a space): [None] is the error "unexpected newline". *)
Fixpoint SkipSpace (input : list Z) : option (list Z) :=
  match input with
  | [] => Some []
  | r :: rest =>
      if decide (r = 13 ∧ head rest = Some 10) then SkipSpace rest
      else if decide (r = 10) then None
      else if isSpace r then SkipSpace rest
      else Some input
  end.

(** [s.accept("0123456789")] repeated: the digits read and what follows. *)
Fixpoint scanDigits (input : list Z) : list Z * list Z :=
  match input with
  | [] => ([], [])
  | r :: rest =>
      if decide (48 ≤ r ≤ 57) then
        let ds := scanDigits rest in (r :: ds.1, ds.2)
      else ([], input)
  end.

(** The number a string of decimal digits denotes. *)
Definition digitsValue (digits : list Z) : Z :=
  foldl (λ n d, 10 * n + (d - 48)) 0 digits.

(** [Sscanf(s, "%d", &result)] for an [int64]: spaces are skipped (by
    [doScanf], then again by [scanInt]), an optional sign and then at least
    one digit are read, and [strconv.ParseInt] converts the token and
    rejects a value outside of [int64].  [None]: Sscanf reports an error
    and has not stored anything. *)
Definition scanInt (input : list Z) : option Z :=
  input ← SkipSpace input;
  input ← SkipSpace input;
  match input with
  | [] => None
  | r :: rest =>
      let neg := bool_decide (r = 45) in
      let input := if decide (r = 43 ∨ r = 45) then rest else input in
      let ds := scanDigits input in
      if decide (ds.1 = []) then None
      else
        let un := digitsValue ds.1 in
        if neg then (if decide (2 ^ 63 < un) then None else Some (- un))
        else (if decide (2 ^ 63 ≤ un) then None else Some un)
  end.

(** [stringToInt]: [result] keeps its zero value when [Sscanf] fails. *)
Definition stringToInt (s : list Z) : Z :=
  let result := 0 in
  match scanInt s with
  | Some scanned => scanned
  | None => result
  end.

(** The constraints file as [LoadFromJson] meets it: unreadable, not
    decodable by [json.Unmarshal], or the decoded
    [[][3]map[string]string]. *)
Inductive constraintsFile : Type :=
| ConstraintsUnreadable
| ConstraintsUndecodable
| ConstraintsDocument
    (constraints : list (gmap (list Z) (list Z) * gmap (list Z) (list Z) * gmap (list Z) (list Z))).

(** The loop over the keys of one linear expression. *)
Definition convertKeys (linearExpression : gmap (list Z) (list Z)) : list Z :=
  foldl (λ ints key, ints ++ [stringToInt key]) [] (rangeMap linearExpression).*1.

(** [LoadFromJson]: the pair [(constraints, err)] it returns. *)
Definition LoadFromJson (file : constraintsFile) : Constraints * option error :=
  match file with
  | ConstraintsUnreadable => ([], Some ReadError)
  | ConstraintsUndecodable => ([], Some JSONSyntaxError)
  | ConstraintsDocument doc =>
      (foldl (λ constraints tempConstraint,
                constraints ++ [(convertKeys tempConstraint.1.1,
                                 convertKeys tempConstraint.1.2,
                                 convertKeys tempConstraint.2)])
             [] doc,
       None)
  end.

(** ** The argument synthesizer (GenerateRandomArgs) *)

Section Random.

(** The process-wide random source of [math/rand]: a state, and the number
    that [rand.Intn(n)] draws from it for a positive [n].  The one fact
    used about it, [drawsInRange], is the documented range of [Intn],
    [[0, n)]. *)
Variable rng : Type.
Variable draw : Z → rng → Z * rng.

Definition drawsInRange : Prop :=
  ∀ (n : Z) (s : rng), 0 < n → 0 ≤ (draw n s).1 < n.

(** [rand.Intn(n)]: panics unless [n > 0]. *)
Definition Intn (n : Z) (s : rng) : outcome (Z * rng) :=
  if decide (n ≤ 0) then Panicked IntnInvalidArgument else Done (draw n s).

(** [GenerateRandomArgs]: [make([]int, count)] panics on a negative
    count; then [args[i] = rand.Intn(14) + 2] for each index. *)
Definition GenerateRandomArgs (count : Z) (s : rng) : outcome (list Z * rng) :=
  if decide (count < 0) then Panicked (MakeSliceLenOutOfRange count)
  else
    let args := replicate (Z.to_nat count) 0 in
    foldlM (λ st i,
              r ← Intn 14 st.2;
              Done (<[i := r.1 + 2]> st.1, r.2))
           (args, s) (seq 0 (length args)).

End Random.

Arguments drawsInRange {rng} draw.
Arguments Intn {rng} draw n s.
Arguments GenerateRandomArgs {rng} draw count s.

(** ** Notions used in the statements *)

(** The entry [g.edges[u][v]]. *)
Definition edgeAt (g : UndirectedGraph) (u v : Z) : option Edge :=
  edges g !! u ≫= (.!! v).

(** There is an edge between [u] and [v]. *)
Definition adjacent (g : UndirectedGraph) (u v : Z) : Prop := is_Some (edgeAt g u v).

(** The distinct neighbours of a node, and their number. *)
Definition neighbours (g : UndirectedGraph) (u : Z) : gset Z :=
  dom (default ∅ (edges g !! u)).
Definition degree (g : UndirectedGraph) (u : Z) : nat := size (neighbours g u).

(** The signal occurs in one of the three expressions of a constraint. *)
Definition appears (signal : Z) (data : Constraints) : Prop :=
  ∃ c expr, c ∈ data ∧ expr ∈ expressions c ∧ signal ∈ expr.

(** The end IDs of an edge as an unordered pair: smaller ID first. *)
Definition ends (e : Edge) : Z * Z :=
  (Z.min (IDVal (F e)) (IDVal (T e)), Z.max (IDVal (F e)) (IDVal (T e))).

(** The representation invariant of the graphs the program handles: a node
    is stored under its own ID; an edge is stored in both directions,
    joins two different nodes, and its end nodes are the nodes the graph
    has under their IDs. *)
Record wellFormed (g : UndirectedGraph) : Prop := mkWellFormed {
  wf_node_id : ∀ id n, nodes g !! id = Some n → IDVal n = id;
  wf_irreflexive : ∀ u v e, edgeAt g u v = Some e → u ≠ v;
  wf_symmetric : ∀ u v e, edgeAt g u v = Some e → edgeAt g v u = Some e;
  wf_end_nodes : ∀ u v e, edgeAt g u v = Some e →
      nodes g !! IDVal (F e) = Some (F e) ∧ nodes g !! IDVal (T e) = Some (T e);
  wf_end_ids : ∀ u v e, edgeAt g u v = Some e →
      (IDVal (F e) = u ∧ IDVal (T e) = v) ∨ (IDVal (F e) = v ∧ IDVal (T e) = u)
}.

(** [v] can be reached from [u] along edges. *)
Definition connected (g : UndirectedGraph) : relation Z := rtc (adjacent g).

(** [cc] lists the connected components of [g]: every node of [g] is in
    exactly one component, exactly once; no component is empty; the nodes
    listed are the nodes of [g]; and the component of a node holds exactly
    what can be reached from it. *)
Record componentsOf (g : UndirectedGraph) (cc : list (list NamedNode)) : Prop := mkComponentsOf {
  comp_nodup : NoDup (IDVal <$> mjoin cc);
  comp_cover : ∀ id, id ∈ IDVal <$> mjoin cc ↔ is_Some (nodes g !! id);
  comp_nonempty : ∀ c, c ∈ cc → c ≠ [];
  comp_nodes : ∀ c n, c ∈ cc → n ∈ c → nodes g !! IDVal n = Some n;
  comp_connected : ∀ c n id, c ∈ cc → n ∈ c →
      (id ∈ IDVal <$> c ↔ connected g (IDVal n) id)
}.

(** The spec's "parses as a non-negative integer": the key is a non-empty
    string of decimal digits, and [n] is the number it denotes. *)
Definition decimalNumeral (key : list Z) (n : Z) : Prop :=
  key ≠ [] ∧ Forall (λ r, 48 ≤ r ≤ 57) key ∧ n = digitsValue key.

(** Every node of the graph has a name in the table: the name at its ID. *)
Definition named (signals : list string) (g : UndirectedGraph) : Prop :=
  ∀ id n, nodes g !! id = Some n → 0 ≤ id ∧ signals !! Z.to_nat id = Some (Name n).

(** The index is within the name table. *)
Definition inTable (signals : list string) (id : Z) : Prop :=
  0 ≤ id < Z.of_nat (length signals).

(** Two signals occur together in a constraint. *)
Definition cooccur (u v : Z) (data : Constraints) : Prop :=
  ∃ c, c ∈ data ∧ appears u [c] ∧ appears v [c].

(** The steps a walk may still take besides one per node on its stack: for
    each row of [g.edges] of a node not yet visited, one step for the node
    and one for each entry of the row. *)
Definition pendingWork (rows : list (Z * gmap Z Edge)) (visited : gset Z) : nat :=
  sum_list ((λ row, if decide (row.1 ∈ visited) then 0%nat else S (size row.2)) <$> rows).

(** No edge leaves the set. *)
Definition closed (g : UndirectedGraph) (V : gset Z) : Prop :=
  ∀ u v, u ∈ V → adjacent g u v → v ∈ V.

(** What [Sscanf] with "%d" reads from a key: the key is made of blanks
    (spaces of any kind, but no newline), an optional sign, at least one
    digit, and a rest that does not go on with a digit; [n] is the number
    the sign and the digits denote, and it is a value of [int64]. *)
Definition readsNumber (key : list Z) (n : Z) : Prop :=
  ∃ ws sign ds tail,
    key = ws ++ sign ++ ds ++ tail
    ∧ Forall (λ r, isSpace r = true ∧ r ≠ 10) ws
    ∧ (sign = [] ∨ sign = [43] ∨ sign = [45])
    ∧ ds ≠ []
    ∧ Forall (λ r, 48 ≤ r ≤ 57) ds
    ∧ match tail with [] => True | r :: _ => ¬ (48 ≤ r ≤ 57) end
    ∧ n = (if decide (sign = [45]) then - digitsValue ds else digitsValue ds)
    ∧ - 2 ^ 63 ≤ n < 2 ^ 63.

(** A key that does not start a number: it is empty, or its first code
    point is neither a space, nor a sign, nor a digit. *)
Definition startsNoNumber (key : list Z) : Prop :=
  match key with
  | [] => True
  | r :: _ => isSpace r = false ∧ r ≠ 43 ∧ r ≠ 45 ∧ ¬ (48 ≤ r ≤ 57)
  end.

(** ** The helpers around the compiler *)

(** [out := make([]B, len(xs)); for i, x := range xs { out[i] = f(x) }]. *)
Definition fillEach {A B : Type} (zero : B) (f : A → B) (xs : list A) : list B :=
  foldl (λ out ix, <[ix.1 := f ix.2]> out) (replicate (length xs) zero) (imap pair xs).

(** The loop of [fmt] that writes a non-negative integer in base 10, from
    its last digit to its first: [for u >= 10 { next := u / 10;
    buf[i] = '0' + u - next*10; u = next }; buf[i] = '0' + u].  [budget]
    bounds the iterations. *)
Fixpoint fmtDigits (budget : nat) (u : Z) (buf : list Z) : list Z :=
  match budget with
  | O => (48 + u) :: buf
  | S budget' =>
      if decide (10 ≤ u)
      then fmtDigits budget' (u / 10) ((48 + (u - u / 10 * 10)) :: buf)
      else (48 + u) :: buf
  end.

(** [fmt.Sprintf("%d", v)]: the digits of the absolute value, after a
    minus sign for a negative number.  The budget, the binary logarithm
    of the value, is more than the number of its decimal digits. *)
Definition formatInt (v : Z) : list Z :=
  let digits := fmtDigits (Z.to_nat (Z.log2 (Z.abs v))) (Z.abs v) [] in
  if decide (v < 0) then 45 :: digits else digits.

(** [strings.Join(elems, sep)]. *)
Fixpoint Join (elems : list (list Z)) (sep : list Z) : list Z :=
  match elems with
  | [] => []
  | a :: rest =>
      match rest with
      | [] => a
      | _ :: _ => a ++ sep ++ Join rest sep
      end
  end.

(** [joinInts]: each integer formatted with "%d", joined by ", ". *)
Definition joinInts (ints : list Z) : list Z :=
  let strInts := fillEach [] formatInt ints in
  Join strInts [44; 32].

(** [strings.Split(s, sep)] for a separator of one character: the pieces
    between the separators; one piece more than there are separators. *)
Fixpoint Split (s : list Z) (sep : Z) : list (list Z) :=
  match s with
  | [] => [[]]
  | r :: rest =>
      if decide (r = sep) then [] :: Split rest sep
      else match Split rest sep with
           | [] => [[r]]
           | piece :: pieces => (r :: piece) :: pieces
           end
  end.

(** Dropping the leading characters that are spaces. *)
Fixpoint trimLeft (s : list Z) : list Z :=
  match s with
  | [] => []
  | r :: rest => if isSpace r then trimLeft rest else s
  end.

(** [strings.TrimSpace(s)]: [unicode.IsSpace] holds of the same
    characters as [isSpace]. *)
Definition TrimSpace (s : list Z) : list Z := reverse (trimLeft (reverse (trimLeft s))).

(** analyzer.go, [type TemplateInfo struct]; the field [Name] is
    [TemplateName] here. *)
Record TemplateInfo : Type := mkTemplateInfo { TemplateName : list Z; ArgCount : Z }.

(** Lines 119-123 of [extractTemplates]: the number of arguments in the
    text between the parentheses. *)
Definition countArgs (args : list Z) : Z :=
  let argCount := 0 in
  if decide (TrimSpace args ≠ []) then Z.of_nat (length (Split args 44)) else argCount.

(** [extractTemplates], from the submatches the regular expression finds
    in the content: for each match, the text of the first group (the name)
    and of the second group (the parameters). *)
Definition extractTemplates (matches : list (list Z * list Z)) : list TemplateInfo :=
  fillEach (mkTemplateInfo [] 0)
           (λ m, let templateName := m.1 in
                 let args := m.2 in
                 mkTemplateInfo templateName (countArgs args))
           matches.

(** [strings.HasSuffix(s, suffix)] and [strings.TrimSuffix(s, suffix)]. *)
Definition HasSuffix (s suffix : list Z) : bool :=
  bool_decide (length suffix ≤ length s)%nat
  && bool_decide (drop (length s - length suffix) s = suffix).

Definition TrimSuffix (s suffix : list Z) : list Z :=
  if HasSuffix s suffix then take (length s - length suffix) s else s.

(** [filepath.Ext(path)], with "/" as the path separator: the scan goes
    from the end of the path to the first separator, and stops at the
    first dot it meets; [suffix] is what has been scanned. *)
Fixpoint extScan (reversed suffix : list Z) : list Z :=
  match reversed with
  | [] => []
  | c :: before =>
      if decide (c = 47) then []
      else if decide (c = 46) then c :: suffix
      else extScan before (c :: suffix)
  end.

Definition Ext (path : list Z) : list Z := extScan (reverse path) [].

(** What [os.Stat] reports of a path: the file is there, the error is a
    "does not exist" error, or it is another error. *)
Inductive statResult : Type := StatFound | StatNotExist | StatOtherError.

Definition IsNotExist (r : statResult) : bool :=
  match r with StatNotExist => true | _ => false end.

(** The errors [CompileCircuit] makes. *)
Inductive compileError : Type :=
| CompilationFailed
| ConstraintsFileNotGenerated
| SymFileNotGenerated.

(** [CompileCircuit]: [runs] tells whether the compiler command succeeds,
    [stat] is [os.Stat] once the command has run. *)
Definition CompileCircuit (runs : bool) (stat : list Z → statResult) (tempFilePath : list Z)
  : list Z * list Z * option compileError :=
  let outputPath := TrimSuffix tempFilePath (Ext tempFilePath) in
  if negb runs then ([], [], Some CompilationFailed)
  else
    let constraintsFile := outputPath ++ runes "_constraints.json" in
    if IsNotExist (stat constraintsFile) then ([], [], Some ConstraintsFileNotGenerated)
    else
      let symFile := outputPath ++ runes ".sym" in
      if IsNotExist (stat symFile) then ([], [], Some SymFileNotGenerated)
      else (constraintsFile, symFile, None).

(** The calls [filepath.Walk] makes to its function, in order: an entry
    with its path, its name and whether it is a directory, or a path with
    the error met at it.  [Walk] stops at the first call that returns an
    error, and returns that error. *)
Inductive walkError : Type :=
| LstatError      (* os.Lstat fails on the path *)
| ReadDirError.   (* the names in a directory cannot be read *)

Inductive visit : Type :=
| Visited (path name : list Z) (isDir : bool)
| Failed (path : list Z) (err : walkError).

(** The function [GetCircomFiles] gives to [Walk], and the walk. *)
Fixpoint walkVisits (visits : list visit) (files : list (list Z))
  : list (list Z) * option walkError :=
  match visits with
  | [] => (files, None)
  | Failed _ err :: _ => (files, Some err)
  | Visited path name isDir :: rest =>
      walkVisits rest
        (if negb isDir && HasSuffix name (runes ".circom") then files ++ [path] else files)
  end.

Definition GetCircomFiles (visits : list visit) : list (list Z) * option walkError :=
  walkVisits visits [].

(** ** The chart (analyzer.go, visualizeGraph) *)

(** What [visualizeGraph] hands to the chart library: the title, the
    nodes and the links of the series, and the name of the file the chart
    is rendered to. *)
Record chart : Type := mkChart {
  Title : list Z;
  GraphNodes : list string;
  GraphLinks : list (string * string);
  FileName : list Z
}.

(** The format has no verb. *)
Definition plain (format : string) : Prop := "%"%char ∉ String.list_ascii_of_string format.

Section Chart.

(** [fmt.Sprintf(format)] without operands.  The one fact used of it,
    [copiesPlainText], is that a format without "%" is copied as it is. *)
Variable Sprintf : string → string.

Definition copiesPlainText : Prop := ∀ format, plain format → Sprintf format = format.

Definition visualizeGraph (dataGraph : UndirectedGraph) (templateName : list Z) : chart :=
  let nodes := foldl (λ nodes n, nodes ++ [Sprintf (Name n)]) [] (Nodes dataGraph) in
  let links := foldl (λ links e,
                        let sourceNamedNode := F e in
                        let targetNamedNode := T e in
                        links ++ [(Sprintf (Name sourceNamedNode),
                                   Sprintf (Name targetNamedNode))])
                     [] (Edges dataGraph) in
  mkChart (runes "Circuit Constraint Graph: " ++ templateName) nodes links
          (templateName ++ runes "_circuit_graph.html").

End Chart.

Arguments copiesPlainText Sprintf : assert.
Arguments visualizeGraph Sprintf dataGraph templateName : assert.

(** ** One template (analyzer.go, analyzeTemplate) *)

(** What [analyzeTemplate] meets outside of the program: whether the
    temporary copy of the source can be made and under which name; whether
    text can be appended to a file; whether the compiler succeeds on a
    file; and, once the compiler has run, what [os.Stat] says of a path
    and what the loaders find there. *)
Record surroundings : Type := mkSurroundings {
  createTemp : list Z → option (list Z);
  appendTo : list Z → list Z → bool;
  compilerRuns : list Z → bool;
  statAt : list Z → statResult;
  constraintsAt : list Z → constraintsFile;
  symbolsAt : list Z → symFile
}.

(** Surroundings in which every call succeeds: the temporary file is
    "/tmp/circom_1.circom", [stat] tells which files are there, the
    constraints file has the constraints {1, 2} and {2, 3} and the symbol
    file has three records. *)
Definition sampleSurroundings (stat : list Z → statResult) : surroundings :=
  mkSurroundings
    (λ _, Some (runes "/tmp/circom_1.circom"))
    (λ _ _, true)
    (λ _, true)
    stat
    (λ _, ConstraintsDocument
            [({[runes "1" := runes "1"]}, {[runes "2" := runes "1"]}, ∅);
             ({[runes "2" := runes "1"]}, ∅, {[runes "3" := runes "1"]})])
    (λ _, SymRecords [Some ["1"; "1"; "0"; "main.a"]%string;
                      Some ["2"; "2"; "0"; "main.b"]%string;
                      Some ["3"; "3"; "0"; "main.c"]%string]).

(** [AddMainComponent]: the text of the main component is appended to the
    temporary file; [false] is an error of opening or writing. *)
Definition AddMainComponent (w : surroundings) (tempFilePath templateName : list Z)
    (args : list Z) : bool :=
  let mainComponent :=
    [10] ++ runes "component main = " ++ templateName ++ runes "(" ++ joinInts args
         ++ runes ");" ++ [10] in
  appendTo w tempFilePath mainComponent.

(** The errors [analyzeTemplate] returns: that of [CreateTempCircomFile],
    of [AddMainComponent], of [CompileCircuit], or of a loader. *)
Inductive failure : Type :=
| TempFileFailure
| MainComponentFailure
| CompileFailure (err : compileError)
| LoadFailure (err : error).

(** What [analyzeTemplate] does that can be seen from outside, in order:
    the lines it prints, the chart it renders, and the files it removes. *)
Inductive event : Type :=
| AnalyzingTemplate (name filePath : list Z)
| Chart (c : chart)
| Report (l : line)
| Removed (path : list Z).

(** [defer]: the deferred calls run when the rest of the function is
    over, whether it returns or panics; [deferred] lists them in the order
    they run, the last deferred first. *)
Definition deferring {A : Type} (deferred : list event) (rest : list event * outcome A)
  : list event * outcome A :=
  (rest.1 ++ deferred, rest.2).

Section Template.

Variable rng : Type.
Variable draw : Z → rng → Z * rng.
Variable Sprintf : string → string.
Variable visualize : bool.
Variable w : surroundings.

(** [analyzeTemplate]: what it does, and how it ends: with the error it
    returns (if any) and the state of the random source, or with a
    panic. *)
Definition analyzeTemplate (filePath : list Z) (template : TemplateInfo) (s : rng)
  : list event * outcome (option failure * rng) :=
  match createTemp w filePath with
  | None => ([], Done (Some TempFileFailure, s))
  | Some tempFile =>
      deferring [Removed tempFile]
        match GenerateRandomArgs draw (ArgCount template) s with
        | Panicked p => ([], Panicked p)
        | OutOfSteps => ([], OutOfSteps)
        | Done (args, s) =>
            if negb (AddMainComponent w tempFile (TemplateName template) args)
            then ([], Done (Some MainComponentFailure, s))
            else
              match CompileCircuit (compilerRuns w tempFile) (statAt w) tempFile with
              | (_, _, Some err) => ([], Done (Some (CompileFailure err), s))
              | (constraintsFile, symFile, None) =>
                  deferring [Removed symFile; Removed constraintsFile]
                    (let printed := [AnalyzingTemplate (TemplateName template) filePath] in
                     match LoadFromJson (constraintsAt w constraintsFile) with
                     | (_, Some err) => (printed, Done (Some (LoadFailure err), s))
                     | (constraints, None) =>
                         match LoadFromSym (symbolsAt w symFile) with
                         | Panicked p => (printed, Panicked p)
                         | OutOfSteps => (printed, OutOfSteps)
                         | Done (_, Some err) => (printed, Done (Some (LoadFailure err), s))
                         | Done (signals, None) =>
                             match buildGraph constraints signals with
                             | Panicked p => (printed, Panicked p)
                             | OutOfSteps => (printed, OutOfSteps)
                             | Done graph =>
                                 let printed :=
                                   printed ++
                                   (if visualize
                                    then [Chart (visualizeGraph Sprintf graph
                                                   (TemplateName template))]
                                    else []) in
                                 match analyzeGraph {[1%positive := graph]} 1%positive with
                                 | Done r => (printed ++ (Report <$> r.2), Done (None, s))
                                 | Panicked p =>
                                     (printed ++ (Report <$> degreeReport graph), Panicked p)
                                 | OutOfSteps =>
                                     (printed ++ (Report <$> degreeReport graph), OutOfSteps)
                                 end
                             end
                         end
                     end)
              end
        end
  end.

End Template.

Arguments analyzeTemplate {rng} draw Sprintf visualize w filePath template s.

(** The index [stringToInt] gives for one of the keys of the three
    expressions of a constraint of the document. *)
Definition keyIndex
    (t : gmap (list Z) (list Z) * gmap (list Z) (list Z) * gmap (list Z) (list Z))
    (id : Z) : Prop :=
  ∃ m key, m ∈ [t.1.1; t.1.2; t.2] ∧ is_Some (m !! key) ∧ stringToInt key = id.

(** [v] can be reached from [u] along edges that do not touch node 0. *)
Definition linkedApartFromConstant (g : UndirectedGraph) : relation Z :=
  rtc (λ u v, adjacent g u v ∧ u ≠ 0 ∧ v ≠ 0).

(** The names a report prints on its "  - name" lines, in order. *)
Definition namesPrinted (out : list line) : list string :=
  omap (λ l, match l with NodeNameLine name => Some name | _ => None end) out.

(** * Properties *)

(** ** The result monad *)

Lemma foldlM_app {A B : Type} (f : A → B → outcome A) (a : A) (l1 l2 : list B) :
  foldlM f a (l1 ++ l2) = (a' ← foldlM f a l1; foldlM f a' l2).
Proof.
  revert a. induction l1 as [|b l1 IH]; intros a; simpl; [done|].
  destruct (f a b); simpl; auto.
Qed.

(** A loop whose body keeps an invariant and never fails ends in a state
    that satisfies the invariant. *)
Lemma foldlM_invariant {A B : Type} (I : A → Prop) (f : A → B → outcome A) (l : list B) (a : A) :
  I a →
  (∀ a b, I a → b ∈ l → ∃ a', f a b = Done a' ∧ I a') →
  ∃ a', foldlM f a l = Done a' ∧ I a'.
Proof.
  revert a. induction l as [|b l IH]; intros a Ha Hstep; simpl; [eauto|].
  destruct (Hstep a b Ha) as (a' & -> & Ha'); [left|]. simpl.
  apply IH; [done|]. intros a0 b0 H0 Hin. apply Hstep; [done|by right].
Qed.

Lemma index_Done {A : Type} (s : list A) (i : Z) (a : A) :
  index s i = Done a ↔ 0 ≤ i ∧ s !! Z.to_nat i = Some a.
Proof.
  unfold index. destruct (decide (0 ≤ i)); [|split; [done|lia]].
  destruct (s !! Z.to_nat i); split; try done.
  - by intros [= ->].
  - by intros [_ [= ->]].
  - by intros [_ ?].
Qed.

Lemma index_in_range {A : Type} (s : list A) (i : Z) :
  0 ≤ i < Z.of_nat (length s) → ∃ a, index s i = Done a ∧ s !! Z.to_nat i = Some a.
Proof.
  intros Hi. destruct (lookup_lt_is_Some_2 s (Z.to_nat i)) as [a Ha]; [lia|].
  exists a. split; [|done]. apply index_Done. split; [lia|done].
Qed.

Lemma index_out_of_range {A : Type} (s : list A) (i : Z) :
  ¬ (0 ≤ i < Z.of_nat (length s)) → index s i = Panicked (IndexOutOfRange i (length s)).
Proof.
  intros Hi. unfold index. destruct (decide (0 ≤ i)); [|done].
  destruct (s !! Z.to_nat i) eqn:E; [|done].
  apply lookup_lt_Some in E. lia.
Qed.

(** ** The signal table *)

Lemma ReadAll_records (n : nat) (rows : list (option (list string))) (acc records : list (list string)) :
  ReadAll n rows acc = inr records → ∃ rs, rows = Some <$> rs ∧ records = acc ++ rs.
Proof.
  revert n acc. induction rows as [|[dst|] rows IH]; intros n acc; simpl.
  - intros [= <-]. exists []. by rewrite app_nil_r.
  - repeat case_decide; try done; intros Hrd; apply IH in Hrd as (rs & -> & ->);
      exists (dst :: rs); by rewrite <- app_assoc.
  - done.
Qed.

Lemma fourth_fields (records : list (list string)) (acc : list string) :
  Forall (λ record, 4 ≤ length record)%nat records →
  ∃ signals,
    foldlM (λ signals record, name ← index record 3; Done (signals ++ [name])) acc records
      = Done signals
    ∧ length signals = (length acc + length records)%nat
    ∧ (∀ i, (i < length acc)%nat → signals !! i = acc !! i)
    ∧ (∀ i record, records !! i = Some record →
         is_Some (record !! 3%nat) ∧ signals !! (length acc + i)%nat = record !! 3%nat).
Proof.
  revert acc. induction records as [|record records IH]; intros acc Hall; simpl.
  - exists acc. split_and!; [done|lia|done|]. intros i r Hr. by rewrite lookup_nil in Hr.
  - apply Forall_cons in Hall as [Hlen Hall].
    destruct (index_in_range record 3) as (name & -> & Hname); [lia|]. simpl.
    destruct (IH (acc ++ [name]) Hall) as (signals & -> & Hl & Hacc & Hrec).
    rewrite length_app in Hl, Hacc, Hrec. simpl in *.
    exists signals. split_and!; [done|lia| |].
    + intros i Hi. rewrite Hacc by lia. by rewrite lookup_app_l.
    + intros [|i] r Hr; simpl in Hr.
      * injection Hr as <-. change (Z.to_nat 3) with 3%nat in Hname.
        split; [by eexists|]. rewrite Hacc by lia.
        rewrite Nat.add_0_r, lookup_app_r by lia. by rewrite Nat.sub_diag.
      * destruct (Hrec i r Hr) as [? Hs]. split; [done|]. rewrite <- Hs. f_equal. lia.
Qed.

(** C9.  When [ReadAll] accepts the symbol file and every record has at
    least four fields, [LoadFromSym] returns, without an error, a list of
    names that has one more entry than there are records: entry 0 is "1",
    whatever the records hold, and entry [i+1] is the fourth field of the
    [i]-th record of the file. *)
Theorem LoadFromSym_names (rows : list (option (list string))) (records : list (list string)) :
  ReadAll 0 rows [] = inr records →
  Forall (λ record, 4 ≤ length record)%nat records →
  rows = Some <$> records ∧
  ∃ signals,
    LoadFromSym (SymRecords rows) = Done (signals, None)
    ∧ length signals = S (length records)
    ∧ signals !! 0%nat = Some "1"%string
    ∧ ∀ i record, records !! i = Some record →
        is_Some (record !! 3%nat) ∧ signals !! S i = record !! 3%nat.
Proof.
  intros Hread Hall. split.
  { apply ReadAll_records in Hread as (rs & -> & ->). done. }
  unfold LoadFromSym. rewrite Hread.
  destruct (fourth_fields records ["1"%string] Hall) as (signals & -> & Hl & Hacc & Hrec).
  exists signals. split_and!; [done|done|by apply (Hacc 0%nat); simpl; lia|].
  intros i record Hi. apply (Hrec i record Hi).
Qed.

(** C2.  A symbol file whose only record has three fields: [ReadAll]
    accepts it (the first record sets the number of fields), and
    [record[3]] panics; no error is returned. *)
Theorem LoadFromSym_short_record_panics :
  LoadFromSym (SymRecords [Some ["main.a"; "main.b"; "main.c"]%string])
  = Panicked (IndexOutOfRange 3 3).
Proof. reflexivity. Qed.

(** The sibling path of C2: a record whose number of fields differs from
    that of the first record is reported as an error by [ReadAll], which
    [LoadFromSym] returns. *)
Lemma LoadFromSym_ragged_is_error (first : list string) (rows : list (option (list string))) (dst : list string) (rest : list (option (list string))) (records : list (list string)) :
  (0 < length first)%nat →
  ReadAll 0 (Some first :: rows) [] = inr records →
  length dst ≠ length first →
  LoadFromSym (SymRecords (Some first :: rows ++ Some dst :: rest)) = Done ([], Some CSVFieldCount).
Proof.
  intros Hpos Hread Hne. unfold LoadFromSym. simpl in *.
  assert (∀ rows acc records, ReadAll (length first) rows acc = inr records →
            ReadAll (length first) (rows ++ Some dst :: rest) acc = inl CSVFieldCount) as Hgen.
  { clear -Hpos Hne. induction rows as [|[r|] rows IH]; intros acc records; simpl.
    - intros _. destruct (decide (0 < length first)%nat); [|lia]. by rewrite decide_True.
    - destruct (decide (0 < length first)%nat); [|lia]. case_decide; [done|]. apply IH.
    - done. }
  rewrite (Hgen _ _ _ Hread). done.
Qed.

(** ** The argument synthesizer *)

Lemma Intn_positive {rng : Type} (draw : Z → rng → Z * rng) (n : Z) (s : rng) :
  0 < n → Intn draw n s = Done (draw n s).
Proof. intros Hn. unfold Intn. by rewrite decide_False by lia. Qed.

Lemma fill_args {rng : Type} (draw : Z → rng → Z * rng) (m k : nat) (args : list Z) (s : rng) :
  drawsInRange draw →
  (k + m ≤ length args)%nat →
  ∃ args' s',
    foldlM (λ st i, r ← Intn draw 14 st.2; Done (<[i := r.1 + 2]> st.1, r.2)) (args, s) (seq k m)
      = Done (args', s')
    ∧ length args' = length args
    ∧ (∀ j, (k ≤ j < k + m)%nat → ∃ a, args' !! j = Some a ∧ 2 ≤ a ≤ 15)
    ∧ (∀ j, (j < k ∨ k + m ≤ j)%nat → args' !! j = args !! j).
Proof.
  intros Hrange. revert k args s. induction m as [|m IH]; intros k args s Hlen.
  - exists args, s. split_and!; [done|done|lia|done].
  - cbn [seq foldlM fst snd]. rewrite Intn_positive by lia.
    cbn [mbind outcome_bind fst snd].
    pose proof (Hrange 14 s ltac:(lia)) as Hd.
    destruct (IH (S k) (<[k := (draw 14 s).1 + 2]> args) (draw 14 s).2)
      as (args' & s' & -> & Hl & Hin & Hout); [rewrite length_insert; lia|].
    rewrite length_insert in Hl.
    exists args', s'. split_and!; [done|done| |].
    + intros j Hj. destruct (decide (j = k)) as [->|Hne].
      * exists ((draw 14 s).1 + 2). split; [|lia].
        rewrite Hout by lia. apply list_lookup_insert_eq. lia.
      * apply Hin. lia.
    + intros j Hj. rewrite Hout by lia. apply list_lookup_insert_ne. lia.
Qed.

(** C10.  With a random source whose [Intn] keeps to its range, and for a
    count that is not negative, [GenerateRandomArgs] returns a list of
    exactly [count] integers, each of them between 2 and 15. *)
Theorem GenerateRandomArgs_count_and_range {rng : Type} (draw : Z → rng → Z * rng)
    (count : Z) (s : rng) :
  drawsInRange draw →
  0 ≤ count →
  ∃ args s',
    GenerateRandomArgs draw count s = Done (args, s')
    ∧ Z.of_nat (length args) = count
    ∧ Forall (λ a, 2 ≤ a ≤ 15) args.
Proof.
  intros Hrange Hcount. unfold GenerateRandomArgs. rewrite decide_False by lia.
  destruct (fill_args draw (length (replicate (Z.to_nat count) 0)) 0
              (replicate (Z.to_nat count) 0) s Hrange) as (args & s' & -> & Hl & Hin & _);
    [simpl; lia|].
  rewrite length_replicate in Hl, Hin.
  exists args, s'. split_and!; [done|lia|].
  apply Forall_lookup. intros j a Ha.
  destruct (Hin j) as (a' & Ha' & Hr).
  { apply lookup_lt_Some in Ha. lia. }
  congruence.
Qed.

(** ** Keys of the constraints document *)

Lemma isSpace_digit (r : Z) : 48 ≤ r ≤ 57 → isSpace r = false.
Proof.
  intros Hr. unfold isSpace. rewrite decide_False by lia.
  unfold space. simpl. repeat (case_decide; try done; try lia).
Qed.

Lemma isSpace_newline : isSpace 10 = true ∧ isSpace 13 = true.
Proof. split; reflexivity. Qed.

Lemma SkipSpace_no_space (r : Z) (rest : list Z) :
  isSpace r = false → SkipSpace (r :: rest) = Some (r :: rest).
Proof.
  intros Hr. simpl.
  destruct (decide (r = 13 ∧ head rest = Some 10)) as [[-> _]|_]; [done|].
  destruct (decide (r = 10)) as [->|_]; [done|]. by rewrite Hr.
Qed.

Lemma scanDigits_all (key : list Z) :
  Forall (λ r, 48 ≤ r ≤ 57) key → scanDigits key = (key, []).
Proof.
  induction 1 as [|r key Hr _ IH]; simpl; [done|].
  rewrite decide_True by done. by rewrite IH.
Qed.

Lemma scanInt_numeral (key : list Z) (n : Z) :
  decimalNumeral key n → n < 2 ^ 63 → scanInt key = Some n.
Proof.
  intros (Hne & Hall & ->) Hn. destruct key as [|r rest]; [done|].
  pose proof (Forall_inv Hall) as Hr. simpl in Hr.
  unfold scanInt. rewrite SkipSpace_no_space by by apply isSpace_digit.
  cbn [mbind option_bind].
  rewrite SkipSpace_no_space by by apply isSpace_digit. cbn [mbind option_bind].
  rewrite bool_decide_eq_false_2 by lia.
  rewrite (decide_False (P := r = 43 ∨ r = 45)) by lia.
  rewrite scanDigits_all by done. cbn [fst].
  rewrite decide_False by done. by rewrite decide_False by lia.
Qed.

Lemma scanInt_no_number (key : list Z) : startsNoNumber key → scanInt key = None.
Proof.
  destruct key as [|r rest]; [done|]. intros (Hsp & Hplus & Hminus & Hdig).
  unfold scanInt. rewrite SkipSpace_no_space by done. cbn [mbind option_bind].
  rewrite SkipSpace_no_space by done. cbn [mbind option_bind].
  rewrite (decide_False (P := r = 43 ∨ r = 45)) by lia. cbn [scanDigits].
  rewrite (decide_False (P := 48 ≤ r ≤ 57)) by done. done.
Qed.

Lemma scanDigits_digits (input : list Z) : Forall (λ r, 48 ≤ r ≤ 57) (scanDigits input).1.
Proof.
  induction input as [|r input IH]; cbn [scanDigits]; [constructor|].
  case_decide; cbn [fst]; [by constructor|constructor].
Qed.

Lemma digitsValue_bounds (digits : list Z) (n : Z) :
  Forall (λ r, 48 ≤ r ≤ 57) digits → 0 ≤ n → n ≤ foldl (λ n d, 10 * n + (d - 48)) n digits.
Proof.
  intros Hall. revert n. induction Hall as [|d digits Hd _ IH]; intros n Hn; cbn [foldl]; [lia|].
  etrans; [|apply IH; lia]. lia.
Qed.

Lemma SkipSpace_spaces (ws rest : list Z) :
  Forall (λ r, isSpace r = true ∧ r ≠ 10) ws →
  match rest with [] => True | r :: _ => isSpace r = false end →
  SkipSpace (ws ++ rest) = Some rest.
Proof.
  intros Hws Hrest. induction Hws as [|w ws [Hw Hw10] _ IH].
  - destruct rest as [|r rest]; [done|]. by apply SkipSpace_no_space.
  - cbn [app SkipSpace]. case_decide as Hcr.
    + done.
    + rewrite decide_False by done. by rewrite Hw.
Qed.

Lemma scanDigits_prefix (ds tail : list Z) :
  Forall (λ r, 48 ≤ r ≤ 57) ds →
  match tail with [] => True | r :: _ => ¬ (48 ≤ r ≤ 57) end →
  scanDigits (ds ++ tail) = (ds, tail).
Proof.
  intros Hds Htail. induction Hds as [|d ds Hd _ IH]; cbn [app scanDigits].
  - destruct tail as [|r tail]; [done|]. cbn [scanDigits]. by rewrite decide_False.
  - rewrite decide_True by done. by rewrite IH.
Qed.

Lemma stringToInt_leading_number (ws sign ds tail : list Z) :
  Forall (λ r, isSpace r = true ∧ r ≠ 10) ws →
  sign = [] ∨ sign = [43] ∨ sign = [45] →
  ds ≠ [] →
  Forall (λ r, 48 ≤ r ≤ 57) ds →
  match tail with [] => True | r :: _ => ¬ (48 ≤ r ≤ 57) end →
  stringToInt (ws ++ sign ++ ds ++ tail)
  = if decide (sign = [45])
    then (if decide (digitsValue ds ≤ 2 ^ 63) then - digitsValue ds else 0)
    else (if decide (digitsValue ds < 2 ^ 63) then digitsValue ds else 0).
Proof.
  intros Hws Hsign Hne Hds Htail.
  destruct ds as [|d ds']; [done|]. pose proof (Forall_inv Hds) as Hd. cbn beta in Hd.
  assert (∃ r rest, sign ++ (d :: ds') ++ tail = r :: rest
                    ∧ isSpace r = false
                    ∧ (if decide (r = 43 ∨ r = 45) then rest else r :: rest)
                      = (d :: ds') ++ tail
                    ∧ bool_decide (r = 45) = bool_decide (sign = [45])) as
    (r & rest & Heq & Hr & Hinput & Hneg).
  { destruct Hsign as [-> | [-> | ->]].
    - exists d, (ds' ++ tail). split_and!; [done|by apply isSpace_digit| |].
      + by rewrite decide_False by lia.
      + rewrite !bool_decide_eq_false_2; [done|done|lia].
    - exists 43, ((d :: ds') ++ tail). split_and!; [done|done| |done].
      by rewrite decide_True by by left.
    - exists 45, ((d :: ds') ++ tail). split_and!; [done|done| |done].
      by rewrite decide_True by by right. }
  unfold stringToInt, scanInt. rewrite Heq.
  rewrite (SkipSpace_spaces ws (r :: rest)) by done. cbn [mbind option_bind].
  rewrite SkipSpace_no_space by done. cbn [mbind option_bind].
  rewrite Hinput, Hneg, (scanDigits_prefix (d :: ds') tail) by done. cbn [fst].
  rewrite (decide_False (P := d :: ds' = [])) by done.
  destruct (decide (sign = [45])) as [Hs|Hs].
  - rewrite bool_decide_eq_true_2 by done. repeat case_decide; try done; lia.
  - rewrite bool_decide_eq_false_2 by done. repeat case_decide; try done; lia.
Qed.

Lemma SkipSpace_Some (input rest : list Z) :
  SkipSpace input = Some rest →
  ∃ ws, input = ws ++ rest
        ∧ Forall (λ r, isSpace r = true ∧ r ≠ 10) ws
        ∧ match rest with [] => True | r :: _ => isSpace r = false end.
Proof.
  induction input as [|r input IH]; cbn [SkipSpace].
  - intros [= <-]. by exists [].
  - case_decide as Hcr.
    + destruct Hcr as [_ Hnl]. destruct input as [|r' input']; [done|].
      injection Hnl as ->. cbn [SkipSpace head].
      rewrite decide_False by (intros [? _]; lia). by rewrite decide_True.
    + case_decide as Hnl; [done|].
      destruct (isSpace r) eqn:Hsp.
      * intros Hrest. destruct (IH Hrest) as (ws & -> & Hws & Hhead).
        exists (r :: ws). split_and!; [done| |done]. by constructor.
      * intros [= <-]. by exists [].
Qed.

Lemma scanDigits_split (input : list Z) :
  input = (scanDigits input).1 ++ (scanDigits input).2
  ∧ match (scanDigits input).2 with [] => True | r :: _ => ¬ (48 ≤ r ≤ 57) end.
Proof.
  induction input as [|r input [IH1 IH2]]; cbn [scanDigits]; [done|].
  case_decide; cbn [fst snd app]; [|done]. split; [by rewrite <- IH1|done].
Qed.

Lemma scanInt_Some (key : list Z) (n : Z) : scanInt key = Some n → readsNumber key n.
Proof.
  unfold scanInt.
  destruct (SkipSpace key) as [s1|] eqn:Hskip; cbn [mbind option_bind]; [|done].
  destruct (SkipSpace_Some key s1 Hskip) as (ws & -> & Hws & Hhead).
  destruct s1 as [|r rest]; [done|].
  rewrite SkipSpace_no_space by done. cbn [mbind option_bind].
  set (input := if decide (r = 43 ∨ r = 45) then rest else r :: rest).
  destruct (scanDigits_split input) as [Hsplit Htail].
  pose proof (scanDigits_digits input) as Hds.
  pose proof (digitsValue_bounds _ 0 Hds ltac:(lia)) as Hnonneg.
  fold (digitsValue (scanDigits input).1) in Hnonneg.
  case_decide as Hne; [done|].
  destruct (decide (r = 45)) as [->|Hminus].
  - rewrite bool_decide_eq_true_2 by done. case_decide as Hrange; [done|]. intros [= <-].
    exists ws, [45], (scanDigits input).1, (scanDigits input).2.
    unfold input in Hsplit at 1. rewrite decide_True in Hsplit by by right.
    rewrite decide_True by done. cbn [app]. rewrite <- Hsplit.
    split_and!; [done|done|by right; right|done|done|done|done|lia|lia].
  - rewrite bool_decide_eq_false_2 by done. case_decide as Hrange; [done|]. intros [= <-].
    destruct (decide (r = 43)) as [->|Hplus].
    + exists ws, [43], (scanDigits input).1, (scanDigits input).2.
      unfold input in Hsplit at 1. rewrite decide_True in Hsplit by by left.
      rewrite decide_False by done. cbn [app]. rewrite <- Hsplit.
      split_and!; [done|done|by right; left|done|done|done|done|lia|lia].
    + exists ws, [], (scanDigits input).1, (scanDigits input).2.
      unfold input in Hsplit at 1. rewrite decide_False in Hsplit by lia.
      rewrite decide_False by done. cbn [app]. rewrite <- Hsplit.
      split_and!; [done|done|by left|done|done|done|done|lia|lia].
Qed.

Lemma stringToInt_reads (key : list Z) (n : Z) : readsNumber key n → stringToInt key = n.
Proof.
  intros (ws & sign & ds & tail & -> & Hws & Hsign & Hne & Hds & Htail & -> & Hrange).
  rewrite stringToInt_leading_number by done.
  destruct (decide (sign = [45])); [rewrite decide_True by lia|rewrite decide_True by lia];
    done.
Qed.

Lemma stringToInt_no_number (key : list Z) :
  (¬ ∃ n, readsNumber key n) → stringToInt key = 0.
Proof.
  intros Hno. unfold stringToInt. destruct (scanInt key) as [n|] eqn:Hscan; [|done].
  exfalso. apply Hno. exists n. by apply scanInt_Some.
Qed.

Lemma convertKeys_spec (m : gmap (list Z) (list Z)) :
  convertKeys m = stringToInt <$> (rangeMap m).*1.
Proof.
  unfold convertKeys. generalize ((rangeMap m).*1). intros keys.
  assert (∀ acc, foldl (λ ints key, ints ++ [stringToInt key]) acc keys
                 = acc ++ (stringToInt <$> keys)) as Hgen; [|apply Hgen].
  induction keys as [|k keys IH]; intros acc; simpl; [by rewrite app_nil_r|].
  rewrite IH. by rewrite <- app_assoc.
Qed.

Lemma convertKeys_permutation (m : gmap (list Z) (list Z)) :
  convertKeys m ≡ₚ stringToInt <$> (map_to_list m).*1.
Proof.
  rewrite convertKeys_spec. unfold rangeMap. by rewrite range_permutes.
Qed.

(** C8, as the code has it.  The constraint model has one constraint per
    constraint of the document, and each of its three expressions lists,
    in some order, the numbers [stringToInt] gives for the keys of the
    corresponding map.  For a key from which [Sscanf] reads a number
    (blanks, an optional sign, digits, then anything) that fits [int64],
    it is that number: so a decimal numeral of a number below 2^63 gives
    the number denoted, and "-5" gives -5.  For every other key it is 0:
    in particular for a key that is empty, that starts with something
    else than a space, a sign or a digit, or that has no digit after its
    blanks and sign. *)
Theorem LoadFromJson_key_indices
    (doc : list (gmap (list Z) (list Z) * gmap (list Z) (list Z) * gmap (list Z) (list Z))) :
  ∃ constraints,
    LoadFromJson (ConstraintsDocument doc) = (constraints, None)
    ∧ length constraints = length doc
    ∧ (∀ i t, doc !! i = Some t →
         ∃ a b c, constraints !! i = Some (a, b, c)
           ∧ a ≡ₚ stringToInt <$> (map_to_list t.1.1).*1
           ∧ b ≡ₚ stringToInt <$> (map_to_list t.1.2).*1
           ∧ c ≡ₚ stringToInt <$> (map_to_list t.2).*1)
    ∧ (∀ key n, decimalNumeral key n → n < 2 ^ 63 → stringToInt key = n)
    ∧ (∀ key, startsNoNumber key → stringToInt key = 0)
    ∧ (∀ key n, readsNumber key n → stringToInt key = n)
    ∧ (∀ key, (¬ ∃ n, readsNumber key n) → stringToInt key = 0).
Proof.
  eexists. split; [reflexivity|].
  assert (∀ acc,
    foldl (λ constraints tempConstraint,
             constraints ++ [(convertKeys tempConstraint.1.1,
                              convertKeys tempConstraint.1.2,
                              convertKeys tempConstraint.2)]) acc doc
    = acc ++ ((λ t, (convertKeys t.1.1, convertKeys t.1.2, convertKeys t.2)) <$> doc)) as Hfold.
  { induction doc as [|t doc IH]; intros acc; simpl; [by rewrite app_nil_r|].
    rewrite IH. by rewrite <- app_assoc. }
  rewrite Hfold, app_nil_l. split_and!.
  - by rewrite length_fmap.
  - intros i t Hi. do 3 eexists. rewrite list_lookup_fmap, Hi.
    split; [reflexivity|]. split_and!; apply convertKeys_permutation.
  - intros key n Hnum Hn. unfold stringToInt. by rewrite (scanInt_numeral key n).
  - intros key Hno. unfold stringToInt. by rewrite scanInt_no_number.
  - apply stringToInt_reads.
  - apply stringToInt_no_number.
Qed.

(** ** Iteration over maps *)

Lemma rangeMap_permutation {K A : Type} `{Countable K} (m : gmap K A) :
  rangeMap m ≡ₚ map_to_list m.
Proof. apply range_permutes. Qed.

Lemma elem_of_rangeMap {K A : Type} `{Countable K} (m : gmap K A) (k : K) (a : A) :
  (k, a) ∈ rangeMap m ↔ m !! k = Some a.
Proof. rewrite rangeMap_permutation. apply elem_of_map_to_list. Qed.

Lemma NoDup_rangeMap_keys {K A : Type} `{Countable K} (m : gmap K A) :
  NoDup (rangeMap m).*1.
Proof. rewrite rangeMap_permutation. apply NoDup_fst_map_to_list. Qed.

Lemma elem_of_rangeMap_keys {K A : Type} `{Countable K} (m : gmap K A) (k : K) :
  k ∈ (rangeMap m).*1 ↔ is_Some (m !! k).
Proof.
  rewrite list_elem_of_fmap. split.
  - intros ([k' a] & -> & Hin). apply elem_of_rangeMap in Hin. by eexists.
  - intros [a Ha]. exists (k, a). split; [done|]. by apply elem_of_rangeMap.
Qed.

Lemma elem_of_rangeMap_values {K A : Type} `{Countable K} (m : gmap K A) (a : A) :
  a ∈ (rangeMap m).*2 ↔ ∃ k, m !! k = Some a.
Proof.
  rewrite list_elem_of_fmap. split.
  - intros ([k a'] & -> & Hin). apply elem_of_rangeMap in Hin. by eexists.
  - intros [k Ha]. exists (k, a). split; [done|]. by apply elem_of_rangeMap.
Qed.

Lemma length_rangeMap {K A : Type} `{Countable K} (m : gmap K A) :
  length (rangeMap m) = size m.
Proof. rewrite rangeMap_permutation. apply length_map_to_list. Qed.

(** ** The signals of a constraint *)

Lemma signalSet_inner (expr : list Z) (set : gmap Z unit) (s : Z) :
  is_Some (foldl (λ signalSet signal, <[signal := tt]> signalSet) set expr !! s)
  ↔ is_Some (set !! s) ∨ s ∈ expr.
Proof.
  revert set. induction expr as [|x expr IH]; intros set; simpl.
  - rewrite elem_of_nil. tauto.
  - rewrite IH, elem_of_cons, lookup_insert_is_Some.
    destruct (decide (x = s)) as [->|Hne].
    + split; intros _; [right; by left|left; by left].
    + split.
      * intros [[?|[_ ?]]|?]; [done|by left|right; by right].
      * intros [?|[?|?]]; [left; right; by split|congruence|by right].
Qed.

Lemma signalSet_outer (exprs : list (list Z)) (set : gmap Z unit) (s : Z) :
  is_Some (foldl (λ signalSet linearExpression,
                    foldl (λ signalSet signal, <[signal := tt]> signalSet) signalSet linearExpression)
                 set exprs !! s)
  ↔ is_Some (set !! s) ∨ ∃ expr, expr ∈ exprs ∧ s ∈ expr.
Proof.
  revert set. induction exprs as [|x exprs IH]; intros set; simpl.
  - split; [auto|]. intros [?|(? & Hin & _)]; [done|]. by apply elem_of_nil in Hin.
  - rewrite IH, signalSet_inner. split.
    + intros [[?|?]|(expr & ? & ?)]; [by left|right; exists x|right; exists expr];
        split; try done; by constructor.
    + intros [?|(expr & Hin & ?)]; [by left; left|].
      apply elem_of_cons in Hin as [->|Hin]; [by left; right|right; by exists expr].
Qed.

Lemma elem_of_signalSetOf (c : Constraint) (s : Z) :
  is_Some (signalSetOf c !! s) ↔ appears s [c].
Proof.
  unfold signalSetOf, appears. rewrite signalSet_outer, lookup_empty. split.
  - intros [[? ?]|(expr & ? & ?)]; [done|]. exists c, expr. split_and!; try done. by constructor.
  - intros (c' & expr & Hc & ? & ?). apply list_elem_of_singleton in Hc as ->.
    right. by exists expr.
Qed.

Lemma appears_app (s : Z) (data1 data2 : Constraints) :
  appears s (data1 ++ data2) ↔ appears s data1 ∨ appears s data2.
Proof.
  unfold appears. split.
  - intros (c & expr & Hc & ? & ?). apply elem_of_app in Hc as [Hc|Hc]; [left|right];
      by exists c, expr.
  - intros [(c & expr & Hc & ? & ?)|(c & expr & Hc & ? & ?)]; exists c, expr;
      split_and!; try done; apply elem_of_app; auto.
Qed.

Lemma appears_nil (s : Z) : ¬ appears s [].
Proof. intros (c & expr & Hc & _). by apply elem_of_nil in Hc. Qed.

Lemma appears_singleton (s : Z) (c : Constraint) :
  appears s [c] ↔ s ∈ c.1.1 ++ c.1.2 ++ c.2.
Proof.
  destruct c as [[a b] d]. unfold appears. cbn. split.
  - intros (c' & expr & Hc & He & Hs). apply list_elem_of_singleton in Hc as ->.
    cbn in He. rewrite !elem_of_app.
    apply elem_of_cons in He as [->|He]; [by left|].
    apply elem_of_cons in He as [->|He]; [right; by left|].
    apply list_elem_of_singleton in He as ->. right. by right.
  - rewrite !elem_of_app. intros [Hs|[Hs|Hs]].
    + exists (a, b, d), a. split_and!; [by left|by left|done].
    + exists (a, b, d), b. split_and!; [by left|right; by left|done].
    + exists (a, b, d), d. split_and!; [by left|right; right; by left|done].
Qed.

Lemma appears_cons (s : Z) (c : Constraint) (data : Constraints) :
  appears s (c :: data) ↔ s ∈ c.1.1 ++ c.1.2 ++ c.2 ∨ appears s data.
Proof. rewrite <- appears_singleton. apply (appears_app s [c] data). Qed.

Lemma cooccur_app (u v : Z) (data1 data2 : Constraints) :
  cooccur u v (data1 ++ data2) ↔ cooccur u v data1 ∨ cooccur u v data2.
Proof.
  unfold cooccur. split.
  - intros (c & Hc & ? & ?). apply elem_of_app in Hc as [Hc|Hc]; [left|right]; by exists c.
  - intros [(c & Hc & ? & ?)|(c & Hc & ? & ?)]; exists c; split_and!; try done;
      apply elem_of_app; auto.
Qed.

Lemma cooccur_singleton (u v : Z) (c : Constraint) :
  cooccur u v [c] ↔ appears u [c] ∧ appears v [c].
Proof.
  unfold cooccur. split.
  - intros (c' & Hc & ? & ?). by apply list_elem_of_singleton in Hc as ->.
  - intros [? ?]. exists c. split_and!; try done. by constructor.
Qed.

Lemma cooccur_nil (u v : Z) : ¬ cooccur u v [].
Proof. intros (c & Hc & _). by apply elem_of_nil in Hc. Qed.

(** ** The operations of the graph keep it well formed *)

Lemma edgeAt_putEdge (x y : Z) (e : Edge) (em : gmap Z (gmap Z Edge)) (u v : Z) :
  putEdge x y e em !! u ≫= (.!! v)
  = if decide (u = x ∧ v = y) then Some e else em !! u ≫= (.!! v).
Proof.
  unfold putEdge. destruct (decide (u = x)) as [->|Hu].
  - rewrite lookup_insert_eq. simpl. destruct (decide (v = y)) as [->|Hv].
    + rewrite lookup_insert_eq. by rewrite decide_True.
    + rewrite lookup_insert_ne by done. rewrite decide_False by (intros [_ ?]; done).
      destruct (em !! x); simpl; [done|apply lookup_empty].
  - rewrite lookup_insert_ne by done. by rewrite decide_False by (intros [? _]; done).
Qed.

Lemma wellFormed_new : wellFormed NewUndirectedGraph.
Proof.
  split; unfold edgeAt; simpl; intros *; rewrite ?lookup_empty; done.
Qed.

Lemma named_new (signals : list string) : named signals NewUndirectedGraph.
Proof. intros id n. simpl. by rewrite lookup_empty. Qed.

Lemma graph_eta (g : UndirectedGraph) : mkGraph (nodes g) (edges g) = g.
Proof. by destruct g. Qed.

Lemma AddNode_fresh (g : UndirectedGraph) (n : NamedNode) :
  nodes g !! IDVal n = None →
  AddNode g n = Done (mkGraph (<[IDVal n := n]> (nodes g)) (edges g)).
Proof. intros Hn. unfold AddNode. by rewrite Hn. Qed.

Lemma wellFormed_add_node (g : UndirectedGraph) (n : NamedNode) :
  wellFormed g → nodes g !! IDVal n = None →
  wellFormed (mkGraph (<[IDVal n := n]> (nodes g)) (edges g)).
Proof.
  intros [Hid Hirr Hsym Hend Hids] Hn. split; simpl.
  - intros id n'. rewrite lookup_insert. case_decide; [by intros [= <-]|apply Hid].
  - apply Hirr.
  - apply Hsym.
  - intros u v e He. destruct (Hend u v e He) as [HF HT].
    rewrite !lookup_insert_ne; [done| |]; intros Heq; rewrite <- Heq in *; congruence.
  - apply Hids.
Qed.

Lemma SetEdge_present (g : UndirectedGraph) (e : Edge) :
  IDVal (F e) ≠ IDVal (T e) →
  nodes g !! IDVal (F e) = Some (F e) →
  nodes g !! IDVal (T e) = Some (T e) →
  SetEdge g e
  = Done (mkGraph (nodes g)
            (putEdge (IDVal (T e)) (IDVal (F e)) e
               (putEdge (IDVal (F e)) (IDVal (T e)) e (edges g)))).
Proof.
  intros Hne HF HT. unfold SetEdge. rewrite decide_False by done.
  unfold setEndNode at 2. rewrite HF. cbn [mbind outcome_bind].
  rewrite (insert_id (nodes g)) by done.
  unfold setEndNode. cbn [nodes edges]. rewrite HT. cbn [mbind outcome_bind nodes edges].
  by rewrite (insert_id (nodes g)) by done.
Qed.

Lemma edgeAt_set (g : UndirectedGraph) (e : Edge) (u v : Z) :
  edgeAt (mkGraph (nodes g)
            (putEdge (IDVal (T e)) (IDVal (F e)) e
               (putEdge (IDVal (F e)) (IDVal (T e)) e (edges g)))) u v
  = if decide ((u = IDVal (F e) ∧ v = IDVal (T e)) ∨ (u = IDVal (T e) ∧ v = IDVal (F e)))
    then Some e else edgeAt g u v.
Proof.
  unfold edgeAt. cbn [edges]. rewrite !edgeAt_putEdge.
  repeat case_decide; try done; exfalso; tauto.
Qed.

Lemma wellFormed_set_edge (g : UndirectedGraph) (e : Edge) :
  wellFormed g →
  IDVal (F e) ≠ IDVal (T e) →
  nodes g !! IDVal (F e) = Some (F e) →
  nodes g !! IDVal (T e) = Some (T e) →
  wellFormed (mkGraph (nodes g)
                (putEdge (IDVal (T e)) (IDVal (F e)) e
                   (putEdge (IDVal (F e)) (IDVal (T e)) e (edges g)))).
Proof.
  intros [Hid Hirr Hsym Hend Hids] Hne HF HT. split.
  - apply Hid.
  - intros u v e'. rewrite edgeAt_set. case_decide as Hc.
    + intros _. destruct Hc as [[-> ->]|[-> ->]]; congruence.
    + apply Hirr.
  - intros u v e'. rewrite !edgeAt_set. case_decide as Hc.
    + intros [= <-]. rewrite decide_True; [done|]. tauto.
    + intros He'. rewrite decide_False by tauto. by apply Hsym.
  - intros u v e'. rewrite edgeAt_set. cbn [nodes]. case_decide as Hc.
    + by intros [= <-].
    + apply Hend.
  - intros u v e'. rewrite edgeAt_set. case_decide as Hc.
    + intros [= <-]. destruct Hc as [[-> ->]|[-> ->]]; auto.
    + apply Hids.
Qed.

(** An edge joins two nodes of the graph. *)
Lemma adjacent_nodes (g : UndirectedGraph) (u v : Z) :
  wellFormed g → adjacent g u v → is_Some (nodes g !! u) ∧ is_Some (nodes g !! v).
Proof.
  intros Hwf [e He]. destruct (wf_end_nodes g Hwf u v e He) as [HF HT].
  destruct (wf_end_ids g Hwf u v e He) as [[<- <-]|[<- <-]]; split; by eexists.
Qed.

Lemma adjacent_symmetric (g : UndirectedGraph) (u v : Z) :
  wellFormed g → adjacent g u v → adjacent g v u.
Proof. intros Hwf [e He]. exists e. by apply (wf_symmetric g Hwf). Qed.

Lemma adjacent_irreflexive (g : UndirectedGraph) (u : Z) :
  wellFormed g → ¬ adjacent g u u.
Proof. intros Hwf [e He]. by apply (wf_irreflexive g Hwf u u e). Qed.

(** ** The graph builder *)

Lemma named_in_table (signals : list string) (g : UndirectedGraph) (id : Z) :
  named signals g → is_Some (nodes g !! id) → inTable signals id.
Proof.
  intros Hnamed [n Hn]. destruct (Hnamed id n Hn) as [H0 Hname].
  apply lookup_lt_Some in Hname. unfold inTable. lia.
Qed.

Lemma nodeFor_in_table (signals : list string) (g : UndirectedGraph)
    (acc : list NamedNode) (id : Z) :
  wellFormed g → named signals g → inTable signals id →
  ∃ g1 node,
    nodeFor signals (g, acc) id = Done (g1, acc ++ [node])
    ∧ IDVal node = id
    ∧ nodes g1 !! id = Some node
    ∧ edges g1 = edges g
    ∧ wellFormed g1
    ∧ named signals g1
    ∧ (∀ id', is_Some (nodes g1 !! id') ↔ is_Some (nodes g !! id') ∨ id' = id)
    ∧ (∀ id' n, nodes g !! id' = Some n → nodes g1 !! id' = Some n).
Proof.
  intros Hwf Hnamed Hin. unfold nodeFor, Node. cbn [fst snd].
  destruct (nodes g !! id) as [node|] eqn:E.
  - exists g, node. split_and!; try done.
    + by apply (wf_node_id g Hwf).
    + intros id'. split; [auto|]. intros [?| ->]; [done|by eexists].
  - destruct (index_in_range signals id Hin) as (name & -> & Hname).
    cbn [mbind outcome_bind].
    rewrite AddNode_fresh by done. cbn [mbind outcome_bind IDVal].
    eexists _, _. split; [reflexivity|]. cbn [nodes edges IDVal]. split_and!.
    + done.
    + apply lookup_insert_eq.
    + done.
    + by apply (wellFormed_add_node g (mkNamedNode id name)).
    + intros id' n. cbn [nodes]. rewrite lookup_insert. case_decide as Hid.
      * intros [= <-]. subst id'. split; [apply Hin|done].
      * apply Hnamed.
    + intros id'. rewrite lookup_insert_is_Some. destruct (decide (id = id')); split.
      * auto.
      * intros _. by left.
      * intros [?|[_ ?]]; [done|by left].
      * intros [?|?]; [|done]. right. by split.
    + intros id' n Hn. rewrite lookup_insert_ne; [done|]. intros <-. congruence.
Qed.

Lemma nodeFor_out_of_table (signals : list string) (g : UndirectedGraph)
    (acc : list NamedNode) (id : Z) :
  named signals g → ¬ inTable signals id →
  nodeFor signals (g, acc) id = Panicked (IndexOutOfRange id (length signals)).
Proof.
  intros Hnamed Hout. unfold nodeFor, Node. cbn [fst snd].
  destruct (nodes g !! id) as [node|] eqn:E.
  - destruct Hout. apply (named_in_table signals g id Hnamed). by eexists.
  - by rewrite index_out_of_range.
Qed.

Lemma nodeFor_loop (signals : list string) (ids : list Z) (g : UndirectedGraph)
    (acc : list NamedNode) :
  wellFormed g → named signals g → Forall (inTable signals) ids →
  ∃ g' ns,
    foldlM (nodeFor signals) (g, acc) ids = Done (g', acc ++ ns)
    ∧ IDVal <$> ns = ids
    ∧ (∀ n, n ∈ ns → nodes g' !! IDVal n = Some n)
    ∧ edges g' = edges g
    ∧ wellFormed g'
    ∧ named signals g'
    ∧ (∀ id, is_Some (nodes g' !! id) ↔ is_Some (nodes g !! id) ∨ id ∈ ids)
    ∧ (∀ id n, nodes g !! id = Some n → nodes g' !! id = Some n).
Proof.
  revert g acc. induction ids as [|id ids IH]; intros g acc Hwf Hnamed Hall.
  - exists g, []. rewrite app_nil_r. split_and!; try done.
    + intros n Hn. by apply elem_of_nil in Hn.
    + intros id. rewrite elem_of_nil. tauto.
  - apply Forall_cons in Hall as [Hid Hall]. cbn [foldlM].
    destruct (nodeFor_in_table signals g acc id Hwf Hnamed Hid)
      as (g1 & node & -> & Hnid & Hnode & Hedges & Hwf1 & Hnamed1 & Hdom1 & Hmono1).
    cbn [mbind outcome_bind].
    destruct (IH g1 (acc ++ [node]) Hwf1 Hnamed1 Hall)
      as (g' & ns & -> & Hids & Hns & Hedges' & Hwf' & Hnamed' & Hdom' & Hmono').
    exists g', (node :: ns). rewrite <- app_assoc. split_and!; try done.
    + cbn. by rewrite Hnid, Hids.
    + intros n Hn. apply elem_of_cons in Hn as [->|Hn]; [|by apply Hns].
      apply Hmono'. by rewrite Hnid.
    + congruence.
    + intros id'. rewrite Hdom', Hdom1, elem_of_cons. tauto.
    + intros id' n Hn. by apply Hmono', Hmono1.
Qed.

Lemma nodeFor_loop_panics (signals : list string) (ids : list Z) (g : UndirectedGraph)
    (acc : list NamedNode) :
  wellFormed g → named signals g → ¬ Forall (inTable signals) ids →
  ∃ id, foldlM (nodeFor signals) (g, acc) ids = Panicked (IndexOutOfRange id (length signals))
        ∧ id ∈ ids ∧ ¬ inTable signals id.
Proof.
  revert g acc. induction ids as [|id ids IH]; intros g acc Hwf Hnamed Hall.
  - destruct Hall. constructor.
  - cbn [foldlM]. destruct (decide (0 ≤ id < Z.of_nat (length signals))) as [Hid|Hid].
    + destruct (nodeFor_in_table signals g acc id Hwf Hnamed Hid)
        as (g1 & node & -> & _ & _ & _ & Hwf1 & Hnamed1 & _ & _).
      cbn [mbind outcome_bind].
      destruct (IH g1 (acc ++ [node]) Hwf1 Hnamed1) as (id' & -> & Hin & Hout).
      { intros Hall'. apply Hall. by constructor. }
      exists id'. split_and!; [done| |done]. by right.
    + rewrite nodeFor_out_of_table by done. exists id. split_and!; [done| |done]. by left.
Qed.

Lemma adjacent_set (g : UndirectedGraph) (e : Edge) (u v : Z) :
  adjacent (mkGraph (nodes g)
              (putEdge (IDVal (T e)) (IDVal (F e)) e
                 (putEdge (IDVal (F e)) (IDVal (T e)) e (edges g)))) u v
  ↔ adjacent g u v
    ∨ (u = IDVal (F e) ∧ v = IDVal (T e)) ∨ (u = IDVal (T e) ∧ v = IDVal (F e)).
Proof.
  unfold adjacent. rewrite edgeAt_set. case_decide as Hc.
  - split; [auto|]. intros _. by eexists.
  - split; [auto|]. intros [?|?]; [done|]. by destruct Hc.
Qed.

Lemma connect_one (ni : NamedNode) (rest : list NamedNode) (g : UndirectedGraph) :
  wellFormed g →
  nodes g !! IDVal ni = Some ni →
  IDVal ni ∉ IDVal <$> rest →
  (∀ n, n ∈ rest → nodes g !! IDVal n = Some n) →
  ∃ g',
    foldlM (λ g nj, SetEdge g (mkEdge ni nj)) g rest = Done g'
    ∧ nodes g' = nodes g
    ∧ wellFormed g'
    ∧ ∀ u v, adjacent g' u v
        ↔ adjacent g u v
          ∨ (u = IDVal ni ∧ v ∈ IDVal <$> rest) ∨ (v = IDVal ni ∧ u ∈ IDVal <$> rest).
Proof.
  revert g. induction rest as [|nj rest IH]; intros g Hwf Hni Hnotin Hrest.
  - exists g. split_and!; try done. intros u v. cbn. rewrite !elem_of_nil. tauto.
  - cbn [foldlM]. rewrite fmap_cons, not_elem_of_cons in Hnotin. destruct Hnotin as [Hne Hnotin].
    assert (nodes g !! IDVal nj = Some nj) as Hnj by (apply Hrest; by left).
    rewrite (SetEdge_present g (mkEdge ni nj)) by done. cbn [mbind outcome_bind].
    pose proof (wellFormed_set_edge g (mkEdge ni nj) Hwf Hne Hni Hnj) as Hwf1.
    pose proof (adjacent_set g (mkEdge ni nj)) as Hadj1.
    cbn [F T] in *.
    set (g1 := mkGraph (nodes g) _) in *.
    destruct (IH g1) as (g' & -> & Hnodes & Hwf' & Hadj'); try done.
    { intros n Hn. apply Hrest. by right. }
    exists g'. split_and!; try done.
    intros u v. rewrite Hadj', Hadj1, fmap_cons, !elem_of_cons. clear. tauto.
Qed.

Lemma connectAll_spec (ns : list NamedNode) (g : UndirectedGraph) :
  wellFormed g →
  NoDup (IDVal <$> ns) →
  (∀ n, n ∈ ns → nodes g !! IDVal n = Some n) →
  ∃ g',
    connectAll g ns = Done g'
    ∧ nodes g' = nodes g
    ∧ wellFormed g'
    ∧ ∀ u v, adjacent g' u v
        ↔ adjacent g u v ∨ (u ≠ v ∧ u ∈ IDVal <$> ns ∧ v ∈ IDVal <$> ns).
Proof.
  revert g. induction ns as [|ni rest IH]; intros g Hwf Hnd Hns.
  - exists g. split_and!; try done. intros u v. cbn. rewrite !elem_of_nil. tauto.
  - cbn [connectAll]. rewrite fmap_cons in Hnd. apply NoDup_cons in Hnd as [Hnotin Hnd].
    destruct (connect_one ni rest g) as (g1 & -> & Hnodes1 & Hwf1 & Hadj1); try done.
    { apply Hns. by left. }
    { intros n Hn. apply Hns. by right. }
    cbn [mbind outcome_bind].
    destruct (IH g1) as (g' & -> & Hnodes' & Hwf' & Hadj'); try done.
    { intros n Hn. rewrite Hnodes1. apply Hns. by right. }
    exists g'. split_and!; try done; [congruence|].
    intros u v. rewrite Hadj', Hadj1, fmap_cons, !elem_of_cons. split.
    + intros [[?|[[Hu Hv]|[Hv Hu]]]|(? & ? & ?)]; auto; right; split_and!; auto;
        intros Heq; apply Hnotin; congruence.
    + intros [?|(Hne & [Hu|Hu] & [Hv|Hv])]; auto. congruence.
Qed.

Lemma adjacent_same_edges (g g' : UndirectedGraph) (u v : Z) :
  edges g' = edges g → adjacent g' u v ↔ adjacent g u v.
Proof. unfold adjacent, edgeAt. by intros ->. Qed.

Lemma signal_ids (c : Constraint) (id : Z) :
  id ∈ (rangeMap (signalSetOf c)).*1 ↔ appears id [c].
Proof. by rewrite elem_of_rangeMap_keys, elem_of_signalSetOf. Qed.

Lemma addConstraint_in_table (signals : list string) (g : UndirectedGraph) (c : Constraint) :
  wellFormed g → named signals g →
  Forall (inTable signals) (rangeMap (signalSetOf c)).*1 →
  ∃ g',
    addConstraint signals g c = Done g'
    ∧ wellFormed g'
    ∧ named signals g'
    ∧ (∀ id, is_Some (nodes g' !! id) ↔ is_Some (nodes g !! id) ∨ appears id [c])
    ∧ (∀ id n, nodes g !! id = Some n → nodes g' !! id = Some n)
    ∧ (∀ u v, adjacent g' u v ↔ adjacent g u v ∨ (u ≠ v ∧ cooccur u v [c])).
Proof.
  intros Hwf Hnamed Hall. unfold addConstraint.
  destruct (nodeFor_loop signals _ g [] Hwf Hnamed Hall)
    as (g1 & ns & -> & Hids & Hns & Hedges & Hwf1 & Hnamed1 & Hdom1 & Hmono1).
  cbn [mbind outcome_bind app fst snd].
  destruct (connectAll_spec ns g1) as (g' & -> & Hnodes & Hwf' & Hadj); try done.
  { rewrite Hids. apply NoDup_rangeMap_keys. }
  exists g'. split_and!; try done.
  - intros id n. rewrite Hnodes. apply Hnamed1.
  - intros id. rewrite Hnodes, Hdom1. by rewrite signal_ids.
  - intros id n Hn. rewrite Hnodes. by apply Hmono1.
  - intros u v. rewrite Hadj, Hids, (adjacent_same_edges g g1) by done.
    by rewrite !signal_ids, cooccur_singleton.
Qed.

Lemma addConstraint_out_of_table (signals : list string) (g : UndirectedGraph) (c : Constraint) :
  wellFormed g → named signals g →
  ¬ Forall (inTable signals) (rangeMap (signalSetOf c)).*1 →
  ∃ id,
    addConstraint signals g c = Panicked (IndexOutOfRange id (length signals))
    ∧ appears id [c] ∧ ¬ inTable signals id.
Proof.
  intros Hwf Hnamed Hall. unfold addConstraint.
  destruct (nodeFor_loop_panics signals _ g [] Hwf Hnamed Hall) as (id & -> & Hin & Hout).
  exists id. split_and!; [done| |done]. by apply signal_ids.
Qed.

Lemma outcome_bind_Done {A : Type} (m : outcome A) : (a ← m; Done a) = m.
Proof. by destruct m. Qed.

Lemma buildGraph_snoc (data : Constraints) (c : Constraint) (signals : list string) :
  buildGraph (data ++ [c]) signals
  = (g ← buildGraph data signals; addConstraint signals g c).
Proof.
  unfold buildGraph. rewrite foldlM_app. destruct (foldlM _ _ data); try done.
  cbn [mbind outcome_bind foldlM]. apply outcome_bind_Done.
Qed.

(** What [buildGraph] does, in full: when every index that appears in the
    constraints is within the name table it returns a well-formed graph
    whose nodes are the indices that appear, named from the table, and
    whose edges join the different indices that occur together in a
    constraint; otherwise it panics on an index that appears and is
    outside of the table. *)
Lemma buildGraph_cases (data : Constraints) (signals : list string) :
  (∃ g,
     buildGraph data signals = Done g
     ∧ (∀ id, appears id data → inTable signals id)
     ∧ wellFormed g
     ∧ named signals g
     ∧ (∀ id, is_Some (nodes g !! id) ↔ appears id data)
     ∧ (∀ u v, adjacent g u v ↔ u ≠ v ∧ cooccur u v data))
  ∨ (∃ id,
       buildGraph data signals = Panicked (IndexOutOfRange id (length signals))
       ∧ appears id data ∧ ¬ inTable signals id).
Proof.
  induction data as [|c data IH] using rev_ind.
  - left. exists NewUndirectedGraph. split_and!.
    + done.
    + intros id Hid. by apply appears_nil in Hid.
    + apply wellFormed_new.
    + apply named_new.
    + intros id. cbn. rewrite lookup_empty. split; [by intros [? ?]|].
      intros Hid. by apply appears_nil in Hid.
    + intros u v. split.
      * intros [e He]. unfold edgeAt in He. cbn in He. by rewrite lookup_empty in He.
      * intros [_ Hco]. by apply cooccur_nil in Hco.
  - rewrite buildGraph_snoc.
    destruct IH as [(g & -> & Htable & Hwf & Hnamed & Hdom & Hadj)|(id & -> & Hin & Hout)].
    + cbn [mbind outcome_bind].
      destruct (decide (Forall (λ id, 0 ≤ id < Z.of_nat (length signals))
                          (rangeMap (signalSetOf c)).*1)) as [Hall|Hall].
      * left. destruct (addConstraint_in_table signals g c Hwf Hnamed Hall)
          as (g' & -> & Hwf' & Hnamed' & Hdom' & _ & Hadj').
        exists g'. split_and!; try done.
        -- intros id. rewrite appears_app. intros [?|Hid]; [by apply Htable|].
           rewrite Forall_forall in Hall. by apply Hall, signal_ids.
        -- intros id. by rewrite Hdom', Hdom, appears_app.
        -- intros u v. rewrite Hadj', Hadj, cooccur_app. tauto.
      * right. destruct (addConstraint_out_of_table signals g c Hwf Hnamed Hall)
          as (id & -> & Hin & Hout).
        exists id. split_and!; [done| |done]. apply appears_app. by right.
    + right. exists id. split_and!; [done| |done]. apply appears_app. by left.
Qed.

(** ** The list of edges *)

Lemma ends_eq (e e' : Edge) :
  ends e = ends e'
  ↔ (IDVal (F e) = IDVal (F e') ∧ IDVal (T e) = IDVal (T e'))
    ∨ (IDVal (F e) = IDVal (T e') ∧ IDVal (T e) = IDVal (F e')).
Proof.
  unfold ends. split.
  - intros [= Hmin Hmax]. lia.
  - intros [[-> ->]|[-> ->]]; f_equal; lia.
Qed.

Lemma collectEdges_flat (rows : list (list Edge)) (acc : list Edge * gset (Z * Z)) :
  foldl (λ acc row, foldl collectEdge acc row) acc rows = foldl collectEdge acc (mjoin rows).
Proof.
  revert acc. induction rows as [|row rows IH]; intros acc; [done|].
  cbn [foldl mjoin list_join]. by rewrite foldl_app, IH.
Qed.

Lemma collectEdge_invariant (es : list Edge) (l : list Edge) (seen : gset (Z * Z)) :
  NoDup (ends <$> l) →
  (∀ a b, (a, b) ∈ seen ↔ ∃ e, e ∈ l ∧ ends e = (Z.min a b, Z.max a b)) →
  NoDup (ends <$> (foldl collectEdge (l, seen) es).1)
  ∧ (∀ e, e ∈ (foldl collectEdge (l, seen) es).1 → e ∈ l ∨ e ∈ es)
  ∧ (∀ e, e ∈ l ∨ e ∈ es → ends e ∈ ends <$> (foldl collectEdge (l, seen) es).1).
Proof.
  revert l seen. induction es as [|e es IH]; intros l seen Hnd Hseen.
  - cbn. split_and!; [done|auto|]. intros e [He|He]; [|by apply elem_of_nil in He].
    apply list_elem_of_fmap. by exists e.
  - cbn [foldl].
    destruct (decide ((IDVal (F e), IDVal (T e)) ∈ seen)) as [Hin|Hnotin].
    + replace (collectEdge (l, seen) e) with (l, seen)
        by (unfold collectEdge; cbn [fst snd]; by rewrite decide_True).
      destruct (IH l seen Hnd Hseen) as (Hnd' & Hsub & Hcov). split_and!; [done| |].
      * intros e' He'. destruct (Hsub e' He'); [by left|right; by right].
      * intros e' [He'|He']; [apply Hcov; by left|].
        apply elem_of_cons in He' as [->|He']; [|apply Hcov; by right].
        apply Hseen in Hin as (e0 & He0 & Hends).
        change (ends e0 = ends e) in Hends. rewrite <- Hends. apply Hcov. by left.
    + replace (collectEdge (l, seen) e)
        with (l ++ [e], {[(IDVal (F e), IDVal (T e)); (IDVal (T e), IDVal (F e))]} ∪ seen)
        by (unfold collectEdge; cbn [fst snd]; by rewrite decide_False).
      destruct (IH (l ++ [e]) ({[(IDVal (F e), IDVal (T e)); (IDVal (T e), IDVal (F e))]} ∪ seen))
        as (Hnd' & Hsub & Hcov).
      * rewrite fmap_app. apply NoDup_app. split_and!; [done| |apply NoDup_singleton].
        intros x Hx Hx'. apply list_elem_of_singleton in Hx' as ->.
        apply Hnotin, Hseen. apply list_elem_of_fmap in Hx as (e0 & He0 & Hin0).
        exists e0. split; [done|]. by rewrite <- He0.
      * intros a b. rewrite elem_of_union, Hseen. split.
        -- intros [Hab|(e0 & He0 & Hends)].
           ++ exists e. split; [apply elem_of_app; right; by left|].
              unfold ends. apply elem_of_union in Hab as [Hab|Hab];
                apply elem_of_singleton in Hab; injection Hab as -> ->; f_equal; lia.
           ++ exists e0. split; [apply elem_of_app; by left|done].
        -- intros (e0 & He0 & Hends). apply elem_of_app in He0 as [He0|He0].
           ++ right. by exists e0.
           ++ apply list_elem_of_singleton in He0 as ->. left.
              unfold ends in Hends. injection Hends as Hmin Hmax.
              destruct (decide (IDVal (F e) = a)) as [<-|Hne].
              ** apply elem_of_union. left. apply elem_of_singleton. f_equal. lia.
              ** apply elem_of_union. right. apply elem_of_singleton. f_equal; lia.
      * split_and!; [done| |].
        -- intros e' He'. destruct (Hsub e' He') as [Hl|Hr]; [|right; by right].
           apply elem_of_app in Hl as [?|Hl]; [by left|].
           apply list_elem_of_singleton in Hl as ->. right. by left.
        -- intros e' [He'|He'].
           ++ apply Hcov. left. apply elem_of_app. by left.
           ++ apply elem_of_cons in He' as [->|He'].
              ** apply Hcov. left. apply elem_of_app. right. by left.
              ** apply Hcov. by right.
Qed.

Lemma collectEdges_spec (rows : list (list Edge)) :
  NoDup (ends <$> collectEdges rows)
  ∧ (∀ e, e ∈ collectEdges rows → e ∈ mjoin rows)
  ∧ (∀ e, e ∈ mjoin rows → ends e ∈ ends <$> collectEdges rows).
Proof.
  unfold collectEdges. rewrite collectEdges_flat.
  destruct (collectEdge_invariant (mjoin rows) [] ∅) as (Hnd & Hsub & Hcov).
  - constructor.
  - intros a b. split; [set_solver|]. intros (e & He & _). by apply elem_of_nil in He.
  - split_and!; [done| |].
    + intros e He. destruct (Hsub e He) as [Hn|?]; [by apply elem_of_nil in Hn|done].
    + intros e He. apply Hcov. by right.
Qed.

Lemma elem_of_edge_rows (g : UndirectedGraph) (e : Edge) :
  e ∈ mjoin ((λ row, (rangeMap row.2).*2) <$> rangeMap (edges g))
  ↔ ∃ u v, edgeAt g u v = Some e.
Proof.
  rewrite list_elem_of_join. unfold edgeAt. split.
  - intros (l & He & Hl). apply list_elem_of_fmap in Hl as ([u m] & -> & Hrow).
    apply elem_of_rangeMap in Hrow. cbn [snd] in He.
    apply elem_of_rangeMap_values in He as [v Hv].
    exists u, v. by rewrite Hrow.
  - intros (u & v & He). destruct (edges g !! u) as [m|] eqn:Hm; [|done]. cbn in He.
    exists (rangeMap m).*2. split.
    + apply elem_of_rangeMap_values. by exists v.
    + apply list_elem_of_fmap. exists (u, m). split; [done|]. by apply elem_of_rangeMap.
Qed.

(** The edges [g.Edges()] yields: each joins two different nodes that are
    adjacent; no two of them join the same pair of nodes; and every pair of
    adjacent nodes is joined by one of them. *)
Lemma Edges_spec (g : UndirectedGraph) :
  wellFormed g →
  NoDup (ends <$> Edges g)
  ∧ (∀ e, e ∈ Edges g →
       IDVal (F e) ≠ IDVal (T e) ∧ adjacent g (IDVal (F e)) (IDVal (T e)))
  ∧ (∀ u v, adjacent g u v → (Z.min u v, Z.max u v) ∈ ends <$> Edges g).
Proof.
  intros Hwf. unfold Edges.
  destruct (collectEdges_spec ((λ row, (rangeMap row.2).*2) <$> rangeMap (edges g)))
    as (Hnd & Hsub & Hcov).
  split_and!; [done| |].
  - intros e He. apply Hsub, elem_of_edge_rows in He as (u & v & He).
    pose proof (wf_irreflexive g Hwf u v e He) as Hne.
    pose proof (wf_symmetric g Hwf u v e He) as Hsym.
    destruct (wf_end_ids g Hwf u v e He) as [[-> ->]|[-> ->]]; split; try done;
      by eexists.
  - intros u v [e He].
    replace (Z.min u v, Z.max u v) with (ends e).
    + apply Hcov, elem_of_edge_rows. by exists u, v.
    + unfold ends. destruct (wf_end_ids g Hwf u v e He) as [[-> ->]|[-> ->]]; f_equal; lia.
Qed.

(** ** The nodes and the degrees *)

Lemma Nodes_ids (g : UndirectedGraph) :
  wellFormed g → IDVal <$> Nodes g = (rangeMap (nodes g)).*1.
Proof.
  intros Hwf. unfold Nodes. rewrite <- list_fmap_compose.
  apply list_fmap_ext. intros i [k n] Hi. cbn.
  apply (wf_node_id g Hwf). apply elem_of_rangeMap. by eapply list_elem_of_lookup_2.
Qed.

Lemma elem_of_Nodes (g : UndirectedGraph) (n : NamedNode) :
  n ∈ Nodes g ↔ ∃ id, nodes g !! id = Some n.
Proof. apply elem_of_rangeMap_values. Qed.

Lemma NoDup_Nodes_ids (g : UndirectedGraph) : wellFormed g → NoDup (IDVal <$> Nodes g).
Proof. intros Hwf. rewrite Nodes_ids by done. apply NoDup_rangeMap_keys. Qed.

Lemma elem_of_Nodes_ids (g : UndirectedGraph) (id : Z) :
  wellFormed g → id ∈ IDVal <$> Nodes g ↔ is_Some (nodes g !! id).
Proof. intros Hwf. rewrite Nodes_ids by done. apply elem_of_rangeMap_keys. Qed.

Lemma length_Nodes (g : UndirectedGraph) : length (Nodes g) = size (nodes g).
Proof. unfold Nodes. by rewrite length_fmap, length_rangeMap. Qed.

Lemma length_From (g : UndirectedGraph) (id : Z) : length (From g id) = degree g id.
Proof.
  unfold From, degree, neighbours. by rewrite !length_fmap, length_rangeMap, size_dom.
Qed.

Lemma elem_of_neighbours (g : UndirectedGraph) (u v : Z) :
  v ∈ neighbours g u ↔ adjacent g u v.
Proof.
  unfold neighbours, adjacent, edgeAt. rewrite elem_of_dom.
  destruct (edges g !! u); cbn; [done|]. by rewrite lookup_empty.
Qed.

Lemma collect_names (P : NamedNode → Prop) `{∀ n, Decision (P n)}
    (l : list NamedNode) (acc : list string) :
  foldl (λ underconstrained n,
           if decide (P n) then underconstrained ++ [Name n] else underconstrained) acc l
  = acc ++ (Name <$> filter P l).
Proof.
  revert acc. induction l as [|n l IH]; intros acc; cbn [foldl].
  - by rewrite app_nil_r.
  - rewrite IH, filter_cons. destruct (decide (P n)); [|done].
    by rewrite fmap_cons, <- app_assoc.
Qed.

Lemma findUnderconstrainedSignals_filter (g : UndirectedGraph) :
  findUnderconstrainedSignals g
  = Name <$> filter (λ n, degree g (IDVal n) ≤ 1)%nat (Nodes g).
Proof.
  unfold findUnderconstrainedSignals.
  rewrite (collect_names (λ n, length (From g (IDVal n)) ≤ 1)%nat).
  rewrite app_nil_l. f_equal. apply list_filter_iff. intros n. by rewrite length_From.
Qed.

(** ** The claims on the builder and on the degree check *)

Lemma buildGraph_Done (data : Constraints) (signals : list string) (g : UndirectedGraph) :
  buildGraph data signals = Done g →
  (∀ id, appears id data → inTable signals id)
  ∧ wellFormed g
  ∧ named signals g
  ∧ (∀ id, is_Some (nodes g !! id) ↔ appears id data)
  ∧ (∀ u v, adjacent g u v ↔ u ≠ v ∧ cooccur u v data).
Proof.
  intros Hg. destruct (buildGraph_cases data signals) as [(g0 & Hg0 & H)|(id & Hp & _)].
  - rewrite Hg in Hg0. by injection Hg0 as <-.
  - by rewrite Hg in Hp.
Qed.

Lemma buildGraph_in_table (data : Constraints) (signals : list string) :
  (∀ id, appears id data → inTable signals id) →
  ∃ g, buildGraph data signals = Done g.
Proof.
  intros Htable. destruct (buildGraph_cases data signals) as [(g & Hg & _)|(id & _ & Hin & Hout)].
  - by exists g.
  - destruct Hout. by apply Htable.
Qed.

(** The counterpart of C1: with an index that appears in a constraint and
    is outside of the name table, [buildGraph] panics on such an index,
    whatever the order of iteration. *)
Lemma buildGraph_outside_table_panics (data : Constraints) (signals : list string) (id : Z) :
  appears id data → ¬ inTable signals id →
  ∃ id', buildGraph data signals = Panicked (IndexOutOfRange id' (length signals))
         ∧ appears id' data ∧ ¬ inTable signals id'.
Proof.
  intros Hin Hout. destruct (buildGraph_cases data signals) as [(g & _ & Htable & _)|Hp].
  - destruct Hout. by apply Htable.
  - done.
Qed.

Lemma buildGraph_named_nodes (data : Constraints) (signals : list string) :
  (∀ id, appears id data → inTable signals id) →
  ∃ g,
    buildGraph data signals = Done g
    ∧ ∀ id, appears id data →
        ∃ name, signals !! Z.to_nat id = Some name
                ∧ nodes g !! id = Some (mkNamedNode id name).
Proof.
  intros Htable. destruct (buildGraph_in_table data signals Htable) as [g Hg].
  exists g. split; [done|].
  destruct (buildGraph_Done data signals g Hg) as (_ & Hwf & Hnamed & Hdom & _).
  intros id Hid. apply Hdom in Hid as [n Hn].
  destruct (Hnamed id n Hn) as [_ Hname].
  pose proof (wf_node_id g Hwf id n Hn) as Hidn.
  exists (Name n). split; [done|]. rewrite Hn. f_equal. destruct n. cbn in *. by subst.
Qed.

(** C1, as the code has it.  When every index that appears in the
    constraints is within the name table, [buildGraph] completes, and the
    node of each such index carries the name the table has at that
    index. *)
Theorem buildGraph_names_from_table (data : Constraints) (signals : list string) :
  (∀ id, appears id data → inTable signals id) →
  ∃ g,
    buildGraph data signals = Done g
    ∧ ∀ id, appears id data →
        ∃ name, signals !! Z.to_nat id = Some name
                ∧ nodes g !! id = Some (mkNamedNode id name).
Proof. apply buildGraph_named_nodes. Qed.

Lemma Edges_stored (g : UndirectedGraph) (e : Edge) :
  e ∈ Edges g → ∃ u v, edgeAt g u v = Some e.
Proof.
  intros He. apply elem_of_edge_rows.
  by apply (collectEdges_spec ((λ row, (rangeMap row.2).*2) <$> rangeMap (edges g))).
Qed.

Lemma Edges_same_adjacency (g g' : UndirectedGraph) :
  wellFormed g → wellFormed g' →
  (∀ u v, adjacent g' u v ↔ adjacent g u v) →
  ends <$> Edges g' ≡ₚ ends <$> Edges g.
Proof.
  intros Hwf Hwf' Hadj.
  destruct (Edges_spec g Hwf) as (Hnd & Hin & Hcov).
  destruct (Edges_spec g' Hwf') as (Hnd' & Hin' & Hcov').
  apply NoDup_Permutation; [done|done|]. intros x. rewrite !list_elem_of_fmap. split.
  - intros (e & -> & He). apply list_elem_of_fmap, (Hcov (IDVal (F e)) (IDVal (T e))).
    apply Hadj. by apply Hin'.
  - intros (e & -> & He). apply list_elem_of_fmap, (Hcov' (IDVal (F e)) (IDVal (T e))).
    apply Hadj. by apply Hin.
Qed.

(** C3.  The graph [buildGraph] returns is simple: no node is adjacent to
    itself; no edge [g.Edges()] lists joins a node to itself, and no two of
    them join the same pair of nodes.  Repetition changes nothing and does
    not fail: processing once more a constraint of the list yields a graph
    with the same nodes and the same edges, and so does setting again an
    edge the graph has. *)
Theorem buildGraph_simple (data : Constraints) (signals : list string) (g : UndirectedGraph) :
  buildGraph data signals = Done g →
  (∀ u, ¬ adjacent g u u)
  ∧ (∀ e, e ∈ Edges g → IDVal (F e) ≠ IDVal (T e))
  ∧ NoDup (ends <$> Edges g)
  ∧ (∀ c, c ∈ data →
       ∃ g', buildGraph (data ++ [c]) signals = Done g'
             ∧ nodes g' = nodes g
             ∧ (∀ u v, adjacent g' u v ↔ adjacent g u v)
             ∧ ends <$> Edges g' ≡ₚ ends <$> Edges g)
  ∧ (∀ e, e ∈ Edges g →
       ∃ g', SetEdge g e = Done g'
             ∧ nodes g' = nodes g
             ∧ (∀ u v, adjacent g' u v ↔ adjacent g u v)
             ∧ ends <$> Edges g' ≡ₚ ends <$> Edges g).
Proof.
  intros Hg. destruct (buildGraph_Done data signals g Hg) as (Htable & Hwf & Hnamed & Hdom & Hadj).
  destruct (Edges_spec g Hwf) as (Hnd & Hin & Hcov).
  split_and!.
  - intros u. by apply adjacent_irreflexive.
  - intros e He. by apply Hin.
  - done.
  - intros c Hc. rewrite buildGraph_snoc, Hg. cbn [mbind outcome_bind].
    assert (∀ id, appears id [c] → appears id data) as Hsub.
    { intros id (c' & expr & Hc' & ? & ?). apply list_elem_of_singleton in Hc' as ->.
      by exists c, expr. }
    destruct (addConstraint_in_table signals g c Hwf Hnamed)
      as (g' & -> & Hwf' & _ & Hdom' & Hmono & Hadj').
    { apply Forall_forall. intros id Hid. apply Htable, Hsub. by apply signal_ids. }
    assert (∀ u v, adjacent g' u v ↔ adjacent g u v) as Hsame.
    { intros u v. rewrite Hadj', Hadj. split; [|auto]. intros [?|[Hne Hco]]; [done|].
      split; [done|]. apply cooccur_singleton in Hco as [? ?]. exists c. by split_and!. }
    exists g'. split_and!; [done| |done|by apply Edges_same_adjacency].
    apply map_eq. intros id. destruct (nodes g !! id) as [n|] eqn:Hn.
    + by apply Hmono.
    + apply eq_None_not_Some. rewrite Hdom', Hn. intros [[? ?]|Hid]; [done|].
      apply Hsub, Hdom in Hid. rewrite Hn in Hid. by destruct Hid.
  - intros e He. destruct (Hin e He) as [Hne Hadje].
    destruct (Edges_stored g e He) as (u & v & Huv).
    destruct (wf_end_nodes g Hwf u v e Huv) as [HF HT].
    rewrite SetEdge_present by done.
    pose proof (wellFormed_set_edge g e Hwf Hne HF HT) as Hwf'.
    assert (∀ x y, adjacent (mkGraph (nodes g)
              (putEdge (IDVal (T e)) (IDVal (F e)) e
                 (putEdge (IDVal (F e)) (IDVal (T e)) e (edges g)))) x y
            ↔ adjacent g x y) as Hsame.
    { intros x y. rewrite adjacent_set. split; [|auto].
      intros [?|[[-> ->]|[-> ->]]]; [done|done|]. by apply adjacent_symmetric. }
    eexists. split_and!; [done|done|done|by apply Edges_same_adjacency].
Qed.

(** C4.  The nodes of the graph [buildGraph] returns are the indices that
    appear in an expression of a constraint: an index is the ID of a node
    exactly when it appears, and [g.Nodes()] lists no ID twice. *)
Theorem buildGraph_nodes (data : Constraints) (signals : list string) (g : UndirectedGraph) :
  buildGraph data signals = Done g →
  (∀ id, id ∈ dom (nodes g) ↔ appears id data)
  ∧ NoDup (IDVal <$> Nodes g)
  ∧ (∀ id, id ∈ IDVal <$> Nodes g ↔ appears id data)
  ∧ length (Nodes g) = size (dom (nodes g)).
Proof.
  intros Hg. destruct (buildGraph_Done data signals g Hg) as (_ & Hwf & _ & Hdom & _).
  split_and!.
  - intros id. by rewrite elem_of_dom.
  - by apply NoDup_Nodes_ids.
  - intros id. by rewrite elem_of_Nodes_ids.
  - by rewrite length_Nodes, size_dom.
Qed.

(** C5.  On the graph [buildGraph] returns, the underconstraint check
    reports the names of the nodes whose degree, the number of their
    distinct neighbours, is at most 1, in the order [g.Nodes()] yields the
    nodes: a name is reported exactly when it is the name of such a node.
    Node 0 is treated like the others. *)
Theorem findUnderconstrainedSignals_degree (data : Constraints) (signals : list string)
    (g : UndirectedGraph) :
  buildGraph data signals = Done g →
  findUnderconstrainedSignals g
    = Name <$> filter (λ n, degree g (IDVal n) ≤ 1)%nat (Nodes g)
  ∧ (∀ name, name ∈ findUnderconstrainedSignals g
       ↔ ∃ id n, nodes g !! id = Some n ∧ Name n = name ∧ (degree g id ≤ 1)%nat)
  ∧ (∀ u v, v ∈ neighbours g u ↔ adjacent g u v)
  ∧ (∀ n, nodes g !! 0 = Some n → (degree g 0 ≤ 1)%nat →
       Name n ∈ findUnderconstrainedSignals g).
Proof.
  intros Hg. destruct (buildGraph_Done data signals g Hg) as (_ & Hwf & _ & _ & _).
  assert (∀ name, name ∈ findUnderconstrainedSignals g
       ↔ ∃ id n, nodes g !! id = Some n ∧ Name n = name ∧ (degree g id ≤ 1)%nat) as Hiff.
  { intros name. rewrite findUnderconstrainedSignals_filter, list_elem_of_fmap. split.
    - intros (n & -> & Hn). apply list_elem_of_filter in Hn as [Hdeg Hn].
      apply elem_of_Nodes in Hn as [id Hid].
      exists id, n. split_and!; [done|done|].
      by rewrite <- (wf_node_id g Hwf id n Hid).
    - intros (id & n & Hid & <- & Hdeg). exists n. split; [done|].
      apply list_elem_of_filter. split.
      + by rewrite (wf_node_id g Hwf id n Hid).
      + apply elem_of_Nodes. by exists id. }
  split_and!.
  - apply findUnderconstrainedSignals_filter.
  - done.
  - apply elem_of_neighbours.
  - intros n Hn Hdeg. apply Hiff. by exists 0, n.
Qed.

Lemma appears_two (c1 c2 : Constraint) (s : Z) :
  appears s [c1; c2] ↔ appears s [c1] ∨ appears s [c2].
Proof. apply (appears_app s [c1] [c2]). Qed.

Lemma cooccur_two (c1 c2 : Constraint) (u v : Z) :
  cooccur u v [c1; c2]
  ↔ (appears u [c1] ∧ appears v [c1]) ∨ (appears u [c2] ∧ appears v [c2]).
Proof. rewrite (cooccur_app u v [c1] [c2]). by rewrite !cooccur_singleton. Qed.

Lemma Nodes_permutation (g : UndirectedGraph) :
  Nodes g ≡ₚ (map_to_list (nodes g)).*2.
Proof. unfold Nodes. by rewrite rangeMap_permutation. Qed.

(** C7.  Two constraints, the first with exactly the signals 1 and 2, the
    second with exactly the signals 2 and 3, and a name table that covers
    the indices up to 3: the graph has exactly the nodes 1, 2 and 3, named
    from the table, and exactly the edges 1-2 and 2-3; the degrees are 1, 2
    and 1; and the underconstraint check reports the names of the nodes 1
    and 3 and no other. *)
Theorem buildGraph_two_constraints (c1 c2 : Constraint) (signals : list string) :
  (∀ s, appears s [c1] ↔ s = 1 ∨ s = 2) →
  (∀ s, appears s [c2] ↔ s = 2 ∨ s = 3) →
  (4 ≤ length signals)%nat →
  ∃ g a b c,
    buildGraph [c1; c2] signals = Done g
    ∧ signals !! 1%nat = Some a ∧ signals !! 2%nat = Some b ∧ signals !! 3%nat = Some c
    ∧ nodes g = {[1 := mkNamedNode 1 a; 2 := mkNamedNode 2 b; 3 := mkNamedNode 3 c]}
    ∧ (∀ u v, adjacent g u v
         ↔ (u = 1 ∧ v = 2) ∨ (u = 2 ∧ v = 1) ∨ (u = 2 ∧ v = 3) ∨ (u = 3 ∧ v = 2))
    ∧ ends <$> Edges g ≡ₚ [(1, 2); (2, 3)]
    ∧ degree g 1 = 1%nat ∧ degree g 2 = 2%nat ∧ degree g 3 = 1%nat
    ∧ findUnderconstrainedSignals g ≡ₚ [a; c].
Proof.
  intros H1 H2 Hlen.
  assert (∀ id, appears id [c1; c2] ↔ id = 1 ∨ id = 2 ∨ id = 3) as Happ.
  { intros id. rewrite appears_two, H1, H2. lia. }
  destruct (buildGraph_named_nodes [c1; c2] signals) as (g & Hg & Hnames).
  { intros id Hid. apply Happ in Hid. unfold inTable. lia. }
  destruct (buildGraph_Done _ _ _ Hg) as (_ & Hwf & _ & Hdom & Hadj).
  destruct (Hnames 1) as (a & Ha & Hn1); [apply Happ; lia|].
  destruct (Hnames 2) as (b & Hb & Hn2); [apply Happ; lia|].
  destruct (Hnames 3) as (c & Hc & Hn3); [apply Happ; lia|].
  change (Z.to_nat 1) with 1%nat in Ha. change (Z.to_nat 2) with 2%nat in Hb.
  change (Z.to_nat 3) with 3%nat in Hc.
  assert (nodes g = {[1 := mkNamedNode 1 a; 2 := mkNamedNode 2 b; 3 := mkNamedNode 3 c]})
    as Hnodes.
  { apply map_eq. intros id.
    destruct (decide (id = 1)) as [->|N1]; [by rewrite Hn1, lookup_insert_eq|].
    rewrite lookup_insert_ne by done.
    destruct (decide (id = 2)) as [->|N2]; [by rewrite Hn2, lookup_insert_eq|].
    rewrite lookup_insert_ne by done.
    destruct (decide (id = 3)) as [->|N3]; [by rewrite Hn3, lookup_singleton_eq|].
    rewrite lookup_singleton_ne by done.
    apply eq_None_not_Some. rewrite Hdom, Happ. lia. }
  assert (∀ u v, adjacent g u v
         ↔ (u = 1 ∧ v = 2) ∨ (u = 2 ∧ v = 1) ∨ (u = 2 ∧ v = 3) ∨ (u = 3 ∧ v = 2)) as Hadj'.
  { intros u v. rewrite Hadj, cooccur_two, !H1, !H2. lia. }
  assert (neighbours g 1 = {[2]}) as Hnb1.
  { apply set_eq. intros v. rewrite elem_of_neighbours, Hadj', elem_of_singleton. lia. }
  assert (neighbours g 2 = {[1; 3]}) as Hnb2.
  { apply set_eq. intros v.
    rewrite elem_of_neighbours, Hadj', elem_of_union, !elem_of_singleton. lia. }
  assert (neighbours g 3 = {[2]}) as Hnb3.
  { apply set_eq. intros v. rewrite elem_of_neighbours, Hadj', elem_of_singleton. lia. }
  assert (degree g 1 = 1%nat) as Hd1 by (unfold degree; by rewrite Hnb1).
  assert (degree g 2 = 2%nat) as Hd2 by (unfold degree; by rewrite Hnb2).
  assert (degree g 3 = 1%nat) as Hd3 by (unfold degree; by rewrite Hnb3).
  exists g, a, b, c. split_and!; try done.
  - destruct (Edges_spec g Hwf) as (Hnd & Hin & Hcov).
    apply NoDup_Permutation; [done| |].
    { apply NoDup_cons. split; [|apply NoDup_singleton].
      intros Hx. by apply list_elem_of_singleton in Hx. }
    intros x. rewrite elem_of_cons, list_elem_of_singleton, list_elem_of_fmap. split.
    + intros (e & -> & He). destruct (Hin e He) as [_ Hadje].
      apply Hadj' in Hadje. unfold ends.
      destruct Hadje as [[-> ->]|[[-> ->]|[[-> ->]|[-> ->]]]]; auto.
    + intros [-> | ->]; apply list_elem_of_fmap.
      * apply (Hcov 1 2), Hadj'. lia.
      * apply (Hcov 2 3), Hadj'. lia.
  - rewrite findUnderconstrainedSignals_filter, Nodes_permutation, Hnodes.
    rewrite map_to_list_insert by done.
    rewrite map_to_list_insert by done.
    rewrite map_to_list_singleton. cbn [fmap list_fmap snd].
    rewrite !filter_cons, filter_nil. cbn [IDVal].
    rewrite Hd1, Hd2, Hd3. done.
Qed.

(** ** Removing a node *)

Lemma remove_from_rows (keys : list Z) (id : Z) (em : gmap Z (gmap Z Edge)) (u : Z) :
  foldl (λ em from, alter (delete id) from em) em keys !! u
  = if decide (u ∈ keys) then delete id <$> em !! u else em !! u.
Proof.
  revert em. induction keys as [|k keys IH]; intros em; cbn [foldl].
  - rewrite decide_False; [done|]. apply not_elem_of_nil.
  - rewrite IH. destruct (decide (u = k)) as [->|Hne].
    + rewrite lookup_alter_eq. rewrite (decide_True (P := k ∈ k :: keys)) by by left.
      case_decide; [|done]. destruct (em !! k); cbn; [|done]. by rewrite delete_delete_eq.
    + rewrite lookup_alter_ne by done.
      destruct (decide (u ∈ keys)) as [Hin|Hnotin].
      * rewrite decide_True; [done|]. by right.
      * rewrite decide_False; [done|]. by intros [?|?]%elem_of_cons.
Qed.

Lemma wellFormed_without (g g' : UndirectedGraph) (id : Z) :
  wellFormed g →
  nodes g' = delete id (nodes g) →
  (∀ u v, edgeAt g' u v = if decide (u = id ∨ v = id) then None else edgeAt g u v) →
  wellFormed g'.
Proof.
  intros [Hid Hirr Hsym Hend Hids] Hnodes Hedges. split.
  - intros k n. rewrite Hnodes, lookup_delete_Some. intros [_ Hn]. by apply Hid.
  - intros u v e. rewrite Hedges. case_decide; [done|]. apply Hirr.
  - intros u v e. rewrite !Hedges. case_decide as Hc; [done|].
    rewrite decide_False by tauto. apply Hsym.
  - intros u v e. rewrite Hedges, Hnodes. case_decide as Hc; [done|]. intros He.
    destruct (Hend u v e He) as [HF HT].
    destruct (Hids u v e He) as [[<- <-]|[<- <-]];
      rewrite !lookup_delete_ne by (intros ->; apply Hc; auto); done.
  - intros u v e. rewrite Hedges. case_decide; [done|]. apply Hids.
Qed.

Lemma RemoveNode_spec (g : UndirectedGraph) (id : Z) :
  wellFormed g →
  nodes (RemoveNode g id) = delete id (nodes g)
  ∧ (∀ u v, edgeAt (RemoveNode g id) u v
            = if decide (u = id ∨ v = id) then None else edgeAt g u v)
  ∧ wellFormed (RemoveNode g id).
Proof.
  intros Hwf.
  assert (nodes (RemoveNode g id) = delete id (nodes g)
          ∧ (∀ u v, edgeAt (RemoveNode g id) u v
                    = if decide (u = id ∨ v = id) then None else edgeAt g u v)) as [Hn He].
  { unfold RemoveNode. destruct (nodes g !! id) as [n|] eqn:Hid.
    - cbn [nodes]. split; [done|]. intros u v. unfold edgeAt. cbn [edges].
      destruct (decide (u = id)) as [->|Hu].
      { rewrite lookup_delete_eq. by rewrite decide_True by by left. }
      rewrite lookup_delete_ne by done. rewrite remove_from_rows.
      destruct (decide (v = id)) as [->|Hv].
      + rewrite (decide_True (P := u = id ∨ id = id)) by by right.
        case_decide as Hin.
        * destruct (edges g !! u); cbn; [|done]. apply lookup_delete_eq.
        * destruct (edges g !! u ≫= (.!! id)) as [e|] eqn:He; [|done].
          exfalso. apply Hin. apply elem_of_rangeMap_keys.
          pose proof (wf_symmetric g Hwf u id e He) as Hsym. unfold edgeAt in Hsym.
          destruct (edges g !! id); cbn in *; [by eexists|done].
      + rewrite (decide_False (P := u = id ∨ v = id)) by tauto.
        case_decide; [|done]. destruct (edges g !! u); cbn; [|done].
        by rewrite lookup_delete_ne.
    - split; [by rewrite delete_id|]. intros u v. case_decide as Hc; [|done].
      destruct (edgeAt g u v) as [e|] eqn:He; [|done]. exfalso.
      destruct (adjacent_nodes g u v Hwf) as [[nu Hnu] [nv Hnv]]; [by eexists|].
      destruct Hc as [->| ->]; congruence. }
  split_and!; [done|done|]. by apply (wellFormed_without g _ id).
Qed.

(** ** Copying a graph *)

Lemma mutate_Done (h : gmap positive UndirectedGraph) (p : positive)
    (method : UndirectedGraph → outcome UndirectedGraph) (g g' : UndirectedGraph) :
  h !! p = Some g → method g = Done g' → mutate h p method = Done (<[p := g']> h).
Proof. intros Hp Hm. unfold mutate, deref. rewrite Hp. cbn. by rewrite Hm. Qed.

Lemma deref_Some (h : gmap positive UndirectedGraph) (p : positive) (g : UndirectedGraph) :
  h !! p = Some g → deref h p = Done g.
Proof. intros Hp. unfold deref. by rewrite Hp. Qed.

Lemma deref_other (h : gmap positive UndirectedGraph) (p q : positive)
    (g G : UndirectedGraph) :
  p ≠ q → h !! q = Some G → deref (<[p := g]> h) q = Done G.
Proof. intros Hne Hq. apply deref_Some. by rewrite lookup_insert_ne. Qed.

Lemma EdgeBetween_spec (g : UndirectedGraph) (u v : Z) :
  wellFormed g → adjacent g u v →
  ∃ e, EdgeBetween g u v = Some e
       ∧ IDVal (F e) = u ∧ IDVal (T e) = v
       ∧ IDVal (F e) ≠ IDVal (T e)
       ∧ nodes g !! IDVal (F e) = Some (F e) ∧ nodes g !! IDVal (T e) = Some (T e).
Proof.
  intros Hwf [e He]. pose proof (wf_irreflexive g Hwf u v e He) as Hne.
  destruct (wf_end_nodes g Hwf u v e He) as [HF HT].
  unfold EdgeBetween. unfold edgeAt in He. rewrite He.
  destruct (wf_end_ids g Hwf u v e He) as [[Hu Hv]|[Hu Hv]].
  - rewrite decide_True by done. exists e. split_and!; try done. congruence.
  - rewrite decide_False by congruence. exists (ReversedEdge e). cbn.
    split_and!; try done. congruence.
Qed.

Lemma From_nodes (g : UndirectedGraph) (u : Z) :
  wellFormed g →
  ∃ ns,
    From g u = Some <$> ns
    ∧ (∀ n, n ∈ ns → nodes g !! IDVal n = Some n ∧ adjacent g u (IDVal n))
    ∧ (∀ v, adjacent g u v → v ∈ IDVal <$> ns)
    ∧ length ns = size (default ∅ (edges g !! u)).
Proof.
  intros Hwf. set (m := default ∅ (edges g !! u)).
  assert (∀ v, is_Some (m !! v) ↔ adjacent g u v) as Hm.
  { intros v. unfold m, adjacent, edgeAt. destruct (edges g !! u); cbn; [done|].
    by rewrite lookup_empty. }
  exists ((λ v, default (mkNamedNode 0 EmptyString) (nodes g !! v)) <$> (rangeMap m).*1).
  assert (∀ v, v ∈ (rangeMap m).*1 → ∃ n, nodes g !! v = Some n ∧ IDVal n = v) as Hkeys.
  { intros v Hv. apply elem_of_rangeMap_keys, Hm in Hv.
    destruct (adjacent_nodes g u v Hwf Hv) as [_ [n Hn]].
    exists n. split; [done|]. by apply (wf_node_id g Hwf). }
  split_and!.
  - unfold From. fold m. set (keys := (rangeMap m).*1) in *.
    rewrite <- (list_fmap_compose _ Some keys). apply list_fmap_ext.
    intros i v Hi. destruct (Hkeys v) as (n & Hn & _); [by eapply list_elem_of_lookup_2|].
    cbn. by rewrite Hn.
  - intros n Hn. apply list_elem_of_fmap in Hn as (v & -> & Hv).
    destruct (Hkeys v Hv) as (n & Hn & Hid). rewrite Hn. cbn. rewrite Hid.
    split; [done|]. by apply Hm, elem_of_rangeMap_keys.
  - intros v Hv. apply Hm, elem_of_rangeMap_keys in Hv.
    apply list_elem_of_fmap. destruct (Hkeys v Hv) as (n & Hn & Hid).
    exists n. split; [done|]. apply list_elem_of_fmap. exists v. split; [|done].
    by rewrite Hn.
  - by rewrite !length_fmap, length_rangeMap.
Qed.

Lemma copy_nodes (dst : positive) (ns : list NamedNode)
    (h : gmap positive UndirectedGraph) (D : UndirectedGraph) :
  h !! dst = Some D →
  NoDup (IDVal <$> ns) →
  (∀ n, n ∈ ns → nodes D !! IDVal n = None) →
  ∃ D',
    foldlM (λ h n, mutate h dst (λ d, AddNode d n)) h ns = Done (<[dst := D']> h)
    ∧ edges D' = edges D
    ∧ (∀ id n, nodes D' !! id = Some n
         ↔ nodes D !! id = Some n ∨ (n ∈ ns ∧ IDVal n = id)).
Proof.
  revert h D. induction ns as [|n ns IH]; intros h D Hdst Hnd Hfresh.
  - exists D. cbn [foldlM]. rewrite insert_id by done. split_and!; [done|done|].
    intros id n. split; [auto|]. intros [?|[Hn _]]; [done|]. by apply elem_of_nil in Hn.
  - cbn [foldlM]. rewrite fmap_cons in Hnd. apply NoDup_cons in Hnd as [Hnotin Hnd].
    rewrite (mutate_Done h dst _ D _ Hdst (AddNode_fresh D n (Hfresh n ltac:(by left)))).
    cbn [mbind outcome_bind].
    destruct (IH (<[dst := mkGraph (<[IDVal n := n]> (nodes D)) (edges D)]> h)
                 (mkGraph (<[IDVal n := n]> (nodes D)) (edges D)))
      as (D' & -> & Hedges & Hnodes).
    + apply lookup_insert_eq.
    + done.
    + intros n' Hn'. cbn [nodes]. rewrite lookup_insert_ne.
      * apply Hfresh. by right.
      * intros Heq. apply Hnotin. rewrite Heq. apply list_elem_of_fmap. by exists n'.
    + exists D'. rewrite insert_insert_eq. split_and!; [done|done|].
      intros id n'. rewrite Hnodes. cbn [nodes]. rewrite lookup_insert, elem_of_cons.
      case_decide as Hid.
      * subst id. split.
        -- intros [[= <-]|[Hn' Heq]]; [right; by split; [left|]|].
           right. split; [by right|done].
        -- intros [Hn'|[[->|Hn'] Heq]].
           ++ rewrite (Hfresh n) in Hn'; [done|by left].
           ++ by left.
           ++ right. by split.
      * split.
        -- intros [?|[? ?]]; [by left|right; split; [by right|done]].
        -- intros [?|[[->|?] ?]]; [by left|done|right; by split].
Qed.

Lemma copy_row (dst src : positive) (G : UndirectedGraph) (u : NamedNode)
    (h : gmap positive UndirectedGraph) (vs : list NamedNode) (D : UndirectedGraph) :
  dst ≠ src → h !! src = Some G → wellFormed G →
  wellFormed D → nodes D = nodes G →
  (∀ n, n ∈ vs → adjacent G (IDVal u) (IDVal n)) →
  ∃ D',
    foldlM (λ h v,
              v ← nonnil v;
              s ← deref h src;
              e ← nonnil (EdgeBetween s (IDVal u) (IDVal v));
              mutate h dst (λ d, SetEdge d e))
           (<[dst := D]> h) (Some <$> vs)
      = Done (<[dst := D']> h)
    ∧ wellFormed D'
    ∧ nodes D' = nodes G
    ∧ ∀ x y, adjacent D' x y
        ↔ adjacent D x y
          ∨ (x = IDVal u ∧ y ∈ IDVal <$> vs) ∨ (y = IDVal u ∧ x ∈ IDVal <$> vs).
Proof.
  intros Hne Hsrc HwfG. revert D. induction vs as [|v vs IH]; intros D HwfD Hnodes Hadj.
  - exists D. split_and!; try done. intros x y. cbn. rewrite !elem_of_nil. tauto.
  - rewrite fmap_cons. cbn [foldlM nonnil mbind outcome_bind].
    rewrite (deref_other h dst src D G) by done.
    cbn [mbind outcome_bind].
    destruct (EdgeBetween_spec G (IDVal u) (IDVal v) HwfG) as (e & -> & HF & HT & Hft & HnF & HnT).
    { apply Hadj. by left. }
    cbn [nonnil mbind outcome_bind].
    rewrite <- Hnodes in HnF, HnT.
    rewrite (mutate_Done _ dst _ D _ (lookup_insert_eq _ _ _) (SetEdge_present D e Hft HnF HnT)).
    cbn [mbind outcome_bind]. rewrite insert_insert_eq.
    pose proof (wellFormed_set_edge D e HwfD Hft HnF HnT) as Hwf1.
    pose proof (adjacent_set D e) as Hadj1.
    set (D1 := mkGraph (nodes D) _) in *.
    destruct (IH D1) as (D' & -> & Hwf' & Hnodes' & Hadj'); try done.
    { intros n Hn. apply Hadj. by right. }
    exists D'. split_and!; try done.
    intros x y. rewrite Hadj', Hadj1, HF, HT, fmap_cons, !elem_of_cons. clear. tauto.
Qed.

Lemma copy_rows (dst src : positive) (G : UndirectedGraph)
    (h : gmap positive UndirectedGraph) (us : list NamedNode) (D : UndirectedGraph) :
  dst ≠ src → h !! src = Some G → wellFormed G →
  wellFormed D → nodes D = nodes G →
  ∃ D',
    foldlM (λ h u,
              s ← deref h src;
              foldlM (λ h v,
                        v ← nonnil v;
                        s ← deref h src;
                        e ← nonnil (EdgeBetween s (IDVal u) (IDVal v));
                        mutate h dst (λ d, SetEdge d e))
                     h (From s (IDVal u)))
           (<[dst := D]> h) us
      = Done (<[dst := D']> h)
    ∧ wellFormed D'
    ∧ nodes D' = nodes G
    ∧ ∀ x y, adjacent D' x y
        ↔ adjacent D x y ∨ (adjacent G x y ∧ (x ∈ IDVal <$> us ∨ y ∈ IDVal <$> us)).
Proof.
  intros Hne Hsrc HwfG. revert D. induction us as [|u us IH]; intros D HwfD Hnodes.
  - exists D. split_and!; try done. intros x y. cbn. rewrite !elem_of_nil. tauto.
  - cbn [foldlM]. rewrite (deref_other h dst src D G) by done.
    cbn [mbind outcome_bind].
    destruct (From_nodes G (IDVal u) HwfG) as (ns & -> & Hns & Hcov & _).
    destruct (copy_row dst src G u h ns D) as (D1 & -> & Hwf1 & Hnodes1 & Hadj1); try done.
    { intros n Hn. by apply Hns. }
    cbn [mbind outcome_bind].
    destruct (IH D1) as (D' & -> & Hwf' & Hnodes' & Hadj'); try done.
    exists D'. split_and!; try done.
    intros x y. rewrite Hadj', Hadj1, fmap_cons, !elem_of_cons. split.
    + intros [[?|[[-> Hy]|[-> Hx]]]|[? [?|?]]]; auto.
      * right. split; [|auto]. apply list_elem_of_fmap in Hy as (n & -> & Hn). by apply Hns.
      * right. split; [|auto]. apply adjacent_symmetric; [done|].
        apply list_elem_of_fmap in Hx as (n & -> & Hn). by apply Hns.
    + intros [?|[HG [[Hx|Hx]|[Hy|Hy]]]]; auto.
      * left. right. left. split; [done|]. apply Hcov. by rewrite <- Hx.
      * left. right. right. split; [done|]. apply Hcov. rewrite <- Hy.
        by apply adjacent_symmetric.
Qed.

Lemma wellFormed_no_edges (ns : gmap Z NamedNode) :
  (∀ id n, ns !! id = Some n → IDVal n = id) → wellFormed (mkGraph ns ∅).
Proof.
  intros Hid. split; unfold edgeAt; cbn [nodes edges]; try done;
    intros u v e; by rewrite lookup_empty.
Qed.

Lemma Copy_spec (h : gmap positive UndirectedGraph) (dst src : positive) (G : UndirectedGraph) :
  dst ≠ src → h !! src = Some G → h !! dst = Some NewUndirectedGraph → wellFormed G →
  ∃ D,
    Copy h dst src = Done (<[dst := D]> h)
    ∧ wellFormed D
    ∧ nodes D = nodes G
    ∧ ∀ x y, adjacent D x y ↔ adjacent G x y.
Proof.
  intros Hne Hsrc Hdst HwfG. unfold Copy. rewrite (deref_Some h src G) by done.
  cbn [mbind outcome_bind].
  destruct (copy_nodes dst (Nodes G) h NewUndirectedGraph Hdst) as (D1 & -> & Hedges1 & Hnodes1).
  { by apply NoDup_Nodes_ids. }
  { intros n _. apply lookup_empty. }
  cbn [mbind outcome_bind].
  assert (nodes D1 = nodes G) as HnodesD1.
  { apply map_eq. intros id. apply option_eq. intros n. rewrite Hnodes1. cbn.
    rewrite lookup_empty, elem_of_Nodes. split.
    - intros [?|[[id' Hn] Hid]]; [done|].
      by rewrite <- Hid, (wf_node_id G HwfG id' n Hn).
    - intros Hn. right. split; [by exists id|]. by apply (wf_node_id G HwfG). }
  assert (D1 = mkGraph (nodes G) ∅) as ->.
  { destruct D1. cbn in *. by subst. }
  destruct (copy_rows dst src G h (Nodes G) (mkGraph (nodes G) ∅))
    as (D & -> & HwfD & HnodesD & HadjD); try done.
  { apply wellFormed_no_edges. apply (wf_node_id G HwfG). }
  exists D. split_and!; try done.
  intros x y. rewrite HadjD. split.
  - intros [[e He]|[? _]]; [|done]. unfold edgeAt in He. cbn in He.
    by rewrite lookup_empty in He.
  - intros HG. right. split; [done|]. left. apply elem_of_Nodes_ids; [done|].
    by apply (adjacent_nodes G x y).
Qed.

(** ** Connected components *)

Lemma connected_symmetric (g : UndirectedGraph) (u v : Z) :
  wellFormed g → connected g u v → connected g v u.
Proof.
  intros Hwf. induction 1 as [|x y z Hxy _ IH]; [done|].
  eapply rtc_r; [exact IH|]. by apply adjacent_symmetric.
Qed.

Lemma closed_connected (g : UndirectedGraph) (V : gset Z) (u v : Z) :
  closed g V → u ∈ V → connected g u v → v ∈ V.
Proof.
  intros Hclosed Hu Huv. induction Huv as [|x y z Hxy _ IH]; [done|].
  apply IH. by apply (Hclosed x y).
Qed.

Lemma pendingWork_skip (rows : list (Z * gmap Z Edge)) (u : Z) (visited : gset Z) :
  u ∉ rows.*1 → pendingWork rows ({[u]} ∪ visited) = pendingWork rows visited.
Proof.
  unfold pendingWork. induction rows as [|[k m] rows IH]; intros Hu; [done|].
  rewrite fmap_cons, not_elem_of_cons in Hu. destruct Hu as [Hne Hu]. cbn in Hne.
  rewrite !fmap_cons. cbn [sum_list fst snd]. rewrite IH by done. f_equal.
  destruct (decide (k ∈ visited)).
  - rewrite decide_True; [done|]. apply elem_of_union. by right.
  - rewrite decide_False; [done|].
    intros [Hk%elem_of_singleton|?]%elem_of_union; [congruence|done].
Qed.

Lemma pendingWork_visit (rows : list (Z * gmap Z Edge)) (u : Z) (m : gmap Z Edge)
    (visited : gset Z) :
  NoDup rows.*1 → (u, m) ∈ rows → u ∉ visited →
  (pendingWork rows ({[u]} ∪ visited) + S (size m) = pendingWork rows visited)%nat.
Proof.
  induction rows as [|[k mk] rows IH]; intros Hnd Hin Hu.
  - by apply elem_of_nil in Hin.
  - rewrite fmap_cons in Hnd. apply NoDup_cons in Hnd as [Hk Hnd]. cbn in Hk.
    unfold pendingWork in *. rewrite !fmap_cons. cbn [sum_list fst snd].
    apply elem_of_cons in Hin as [[= <- <-]|Hin].
    + fold (pendingWork rows ({[u]} ∪ visited)). rewrite pendingWork_skip by done.
      unfold pendingWork.
      rewrite (decide_True (P := u ∈ {[u]} ∪ visited))
        by (apply elem_of_union; left; by apply elem_of_singleton).
      rewrite (decide_False (P := u ∈ visited)) by done. unfold id. lia.
    + assert (k ≠ u) as Hne.
      { intros ->. apply Hk. apply list_elem_of_fmap. by exists (u, m). }
      specialize (IH Hnd Hin Hu).
      destruct (decide (k ∈ visited)).
      * rewrite decide_True by (apply elem_of_union; by right). unfold id in *. lia.
      * rewrite decide_False
          by (intros [Hku%elem_of_singleton|?]%elem_of_union; [congruence|done]).
        unfold id in *. lia.
Qed.

Lemma pendingWork_le (rows : list (Z * gmap Z Edge)) (visited : gset Z) :
  (pendingWork rows visited ≤ sum_list ((λ row, S (size row.2)) <$> rows))%nat.
Proof.
  unfold pendingWork. induction rows as [|[k m] rows IH]; [done|].
  rewrite !fmap_cons. cbn [sum_list_with fst snd]. unfold id in *. case_decide; lia.
Qed.

Lemma push_all (ns st : list NamedNode) :
  foldlM (λ st v, v ← nonnil v; Done (v :: st)) st (Some <$> ns) = Done (reverse ns ++ st).
Proof.
  revert st. induction ns as [|n ns IH]; intros st; [done|].
  rewrite fmap_cons. cbn [foldlM nonnil mbind outcome_bind]. rewrite IH.
  by rewrite reverse_cons, <- app_assoc.
Qed.

Lemma ids_prefix (c c' : list NamedNode) (id : Z) :
  c `prefix_of` c' → id ∈ IDVal <$> c → id ∈ IDVal <$> c'.
Proof. intros [k ->]. rewrite fmap_app, elem_of_app. auto. Qed.

Lemma walkLoop_empty (budget : nat) (g : UndirectedGraph) (visited : gset Z)
    (c : list NamedNode) :
  walkLoop budget g [] visited c = Done (visited, c).
Proof. by destruct budget. Qed.

Lemma visited_snoc (V0 : gset Z) (c : list NamedNode) (u : NamedNode) :
  {[IDVal u]} ∪ (V0 ∪ list_to_set (IDVal <$> c))
  = V0 ∪ list_to_set (IDVal <$> (c ++ [u])).
Proof.
  apply set_eq. intros x.
  rewrite fmap_app, list_to_set_app_L. cbn [fmap list_fmap list_to_set].
  rewrite !elem_of_union, elem_of_empty. tauto.
Qed.

(** One walk.  It starts from a stack of nodes reachable from [r], with a
    set [V0] of nodes visited by earlier walks that no edge leaves, and the
    nodes [c] this walk has met.  It ends, within the budget, with the
    nodes it has met: none was in [V0], none is met twice, all are
    reachable from [r], and no edge leaves the set of the visited nodes. *)
Lemma walkLoop_spec (g : UndirectedGraph) (r : Z) (V0 : gset Z) :
  wellFormed g → closed g V0 →
  ∀ (budget : nat) (stack c : list NamedNode),
    (length stack + pendingWork (map_to_list (edges g)) (V0 ∪ list_to_set (IDVal <$> c))
       ≤ budget)%nat →
    NoDup (IDVal <$> c) →
    (∀ n, n ∈ c → IDVal n ∉ V0) →
    (∀ n, n ∈ stack ++ c → nodes g !! IDVal n = Some n ∧ connected g r (IDVal n)) →
    (∀ n v, n ∈ c → adjacent g (IDVal n) v →
       v ∈ V0 ∪ list_to_set (IDVal <$> c) ∨ v ∈ IDVal <$> stack) →
    ∃ c',
      walkLoop budget g stack (V0 ∪ list_to_set (IDVal <$> c)) c
        = Done (V0 ∪ list_to_set (IDVal <$> c'), c')
      ∧ (c `prefix_of` c')
      ∧ NoDup (IDVal <$> c')
      ∧ (∀ n, n ∈ c' →
           (IDVal n ∉ V0) ∧ nodes g !! IDVal n = Some n ∧ connected g r (IDVal n))
      ∧ closed g (V0 ∪ list_to_set (IDVal <$> c'))
      ∧ (∀ n, n ∈ stack → IDVal n ∈ V0 ∪ list_to_set (IDVal <$> c')).
Proof.
  intros Hwf Hclosed.
  assert (∀ budget c,
    NoDup (IDVal <$> c) →
    (∀ n, n ∈ c → IDVal n ∉ V0) →
    (∀ n, n ∈ [] ++ c → nodes g !! IDVal n = Some n ∧ connected g r (IDVal n)) →
    (∀ n v, n ∈ c → adjacent g (IDVal n) v →
       v ∈ V0 ∪ list_to_set (IDVal <$> c) ∨ v ∈ IDVal <$> []) →
    ∃ c',
      walkLoop budget g [] (V0 ∪ list_to_set (IDVal <$> c)) c
        = Done (V0 ∪ list_to_set (IDVal <$> c'), c')
      ∧ (c `prefix_of` c')
      ∧ NoDup (IDVal <$> c')
      ∧ (∀ n, n ∈ c' →
           (IDVal n ∉ V0) ∧ nodes g !! IDVal n = Some n ∧ connected g r (IDVal n))
      ∧ closed g (V0 ∪ list_to_set (IDVal <$> c'))
      ∧ (∀ n, n ∈ [] → IDVal n ∈ V0 ∪ list_to_set (IDVal <$> c'))) as Hempty.
  { intros budget c Hnd HV0 Hnodes Hadj. exists c. rewrite walkLoop_empty.
    split_and!; [done|done|done| | |].
    - intros n Hn. destruct (Hnodes n Hn). split_and!; [by apply HV0|done|done].
    - intros x y Hx Hxy. apply elem_of_union in Hx as [Hx|Hx].
      + apply elem_of_union. left. by apply (Hclosed x y).
      + apply elem_of_list_to_set, list_elem_of_fmap in Hx as (n & -> & Hn).
        destruct (Hadj n y Hn Hxy) as [?|Hnil]; [done|]. by apply elem_of_nil in Hnil.
    - intros n Hn. by apply elem_of_nil in Hn. }
  induction budget as [|budget IH]; intros stack c Hwork Hnd HV0 Hnodes Hadj.
  { destruct stack as [|u st]; [by apply Hempty|]. cbn in Hwork. lia. }
  destruct stack as [|u st]; [by apply Hempty|].
  cbn [walkLoop]. cbn [length] in Hwork.
  destruct (decide (IDVal u ∈ V0 ∪ list_to_set (IDVal <$> c))) as [Hvis|Hnew].
  - destruct (IH st c) as (c' & -> & Hpre & Hnd' & Hc' & Hclosed' & Hst); try done.
    + lia.
    + intros n Hn. apply Hnodes. by right.
    + intros n v Hn Hv. destruct (Hadj n v Hn Hv) as [?|Hin]; [by left|].
      rewrite fmap_cons in Hin. apply elem_of_cons in Hin as [->|?]; [by left|by right].
    + exists c'. split_and!; try done.
      intros n Hn. apply elem_of_cons in Hn as [->|Hn]; [|by apply Hst].
      apply elem_of_union in Hvis as [?|Hvis]; apply elem_of_union; [by left|right].
      apply elem_of_list_to_set. apply (ids_prefix c c'); [done|].
      by apply elem_of_list_to_set in Hvis.
  - destruct (From_nodes g (IDVal u) Hwf) as (ns & -> & Hns & Hcov & Hlen).
    rewrite push_all. cbn [mbind outcome_bind]. rewrite visited_snoc.
    destruct (Hnodes u) as [Hu Hru]; [by left|].
    destruct (IH (reverse ns ++ st) (c ++ [u])) as (c' & -> & Hpre & Hnd' & Hc' & Hclosed' & Hst).
    + rewrite <- visited_snoc. rewrite length_app, length_reverse.
      destruct (edges g !! IDVal u) as [m|] eqn:Hm; simpl in Hlen; rewrite Hlen.
      * pose proof (pendingWork_visit (map_to_list (edges g)) (IDVal u) m
                      (V0 ∪ list_to_set (IDVal <$> c))) as Hvisit.
        rewrite <- Hvisit in Hwork; [lia|apply NoDup_fst_map_to_list| |done].
        by apply elem_of_map_to_list.
      * rewrite pendingWork_skip; [rewrite map_size_empty; lia|].
        intros Hin. apply list_elem_of_fmap in Hin as ([k m] & Hk & Hin). cbn in Hk. subst k.
        apply elem_of_map_to_list in Hin. congruence.
    + rewrite fmap_app. apply NoDup_app. split_and!; [done| |apply NoDup_singleton].
      intros x Hx Hx'. apply list_elem_of_singleton in Hx' as ->.
      apply Hnew, elem_of_union. right. by apply elem_of_list_to_set.
    + intros n Hn. apply elem_of_app in Hn as [Hn|Hn]; [by apply HV0|].
      apply list_elem_of_singleton in Hn as ->. intros Hin. apply Hnew, elem_of_union. by left.
    + intros n Hn. rewrite <- app_assoc in Hn. apply elem_of_app in Hn as [Hn|Hn].
      * rewrite elem_of_reverse in Hn. destruct (Hns n Hn) as [Hnode Hadjn].
        split; [done|]. by eapply rtc_r.
      * apply elem_of_app in Hn as [Hn|Hn].
        -- apply Hnodes. apply elem_of_app. left. by right.
        -- apply elem_of_app in Hn as [Hn|Hn].
           ++ apply Hnodes. apply elem_of_app. by right.
           ++ apply list_elem_of_singleton in Hn as ->. by split.
    + intros n v Hn Hv. rewrite <- visited_snoc, fmap_app, elem_of_app.
      apply elem_of_app in Hn as [Hn|Hn].
      * destruct (Hadj n v Hn Hv) as [?|Hin].
        -- left. apply elem_of_union. by right.
        -- rewrite fmap_cons in Hin. apply elem_of_cons in Hin as [->|?].
           ++ left. apply elem_of_union. left. by apply elem_of_singleton.
           ++ right. by right.
      * apply list_elem_of_singleton in Hn as ->. right. left.
        apply Hcov in Hv. by rewrite fmap_reverse, elem_of_reverse.
    + exists c'. split_and!; try done.
      * destruct Hpre as [k ->]. exists ([u] ++ k). by rewrite <- app_assoc.
      * intros n Hn. apply elem_of_cons in Hn as [->|Hn].
        -- apply elem_of_union. right. apply elem_of_list_to_set.
           apply (ids_prefix (c ++ [u]) c'); [done|].
           rewrite fmap_app. apply elem_of_app. right. by left.
        -- apply Hst. apply elem_of_app. by right.
Qed.

Lemma join_snoc (cc : list (list NamedNode)) (c : list NamedNode) :
  mjoin (cc ++ [c]) = mjoin cc ++ c.
Proof. rewrite join_app. cbn. by rewrite app_nil_r. Qed.

Lemma visited_join (cc : list (list NamedNode)) (c : list NamedNode) :
  (list_to_set (IDVal <$> mjoin cc) : gset Z) ∪ list_to_set (IDVal <$> c)
  = list_to_set (IDVal <$> mjoin (cc ++ [c])).
Proof. by rewrite join_snoc, fmap_app, list_to_set_app_L. Qed.

(** One start of a walk from a node that no earlier walk has visited. *)
Lemma walkFrom_new (g : UndirectedGraph) (V0 : gset Z) (from : NamedNode) :
  wellFormed g → closed g V0 →
  nodes g !! IDVal from = Some from → IDVal from ∉ V0 →
  ∃ c,
    walkLoop (walkBudget g) g [from] V0 [] = Done (V0 ∪ list_to_set (IDVal <$> c), c)
    ∧ NoDup (IDVal <$> c)
    ∧ c ≠ []
    ∧ IDVal from ∈ IDVal <$> c
    ∧ closed g (V0 ∪ list_to_set (IDVal <$> c))
    ∧ (∀ n, n ∈ c →
         (IDVal n ∉ V0) ∧ nodes g !! IDVal n = Some n
         ∧ ∀ id, id ∈ IDVal <$> c ↔ connected g (IDVal n) id).
Proof.
  intros Hwf Hclosed Hfrom Hnew.
  assert (V0 = V0 ∪ list_to_set (IDVal <$> @nil NamedNode)) as HV0
    by (cbn; by rewrite (right_id_L ∅ (∪))).
  destruct (walkLoop_spec g (IDVal from) V0 Hwf Hclosed (walkBudget g) [from] [])
    as (c & Hwalk & _ & Hnd & Hc & Hclosed' & Hin).
  - rewrite <- HV0. unfold walkBudget. cbn [length].
    pose proof (pendingWork_le (map_to_list (edges g)) V0). lia.
  - constructor.
  - intros n Hn. by apply elem_of_nil in Hn.
  - intros n Hn. rewrite app_nil_r in Hn. apply list_elem_of_singleton in Hn as ->.
    split; [done|]. apply rtc_refl.
  - intros n v Hn. by apply elem_of_nil in Hn.
  - rewrite <- HV0 in Hwalk.
    assert (IDVal from ∈ IDVal <$> c) as Hfc.
    { specialize (Hin from ltac:(by left)). apply elem_of_union in Hin as [?|Hin]; [done|].
      by apply elem_of_list_to_set in Hin. }
    exists c. split_and!; try done.
    + intros ->. by apply elem_of_nil in Hfc.
    + intros n Hn. destruct (Hc n Hn) as (HnV0 & Hnode & Hconn). split_and!; [done|done|].
      intros id. split.
      * intros Hid. apply list_elem_of_fmap in Hid as (n' & -> & Hn').
        destruct (Hc n' Hn') as (_ & _ & Hconn').
        eapply rtc_trans; [|exact Hconn']. by apply connected_symmetric.
      * intros Hid.
        assert (connected g (IDVal from) id) as Hfid by (by eapply rtc_trans).
        assert (id ∈ V0 ∪ list_to_set (IDVal <$> c)) as Hfin.
        { apply (closed_connected g _ (IDVal from) id); [done| |done].
          apply elem_of_union. right. by apply elem_of_list_to_set. }
        apply elem_of_union in Hfin as [Hfin|Hfin]; [|by apply elem_of_list_to_set in Hfin].
        exfalso. apply Hnew. apply (closed_connected g V0 id (IDVal from)); [done|done|].
        by apply connected_symmetric.
Qed.

Lemma walkFrom_visited (g : UndirectedGraph) (st : gset Z * list (list NamedNode))
    (from : NamedNode) :
  IDVal from ∈ st.1 → walkFrom g st from = Done st.
Proof. intros Hin. unfold walkFrom. by rewrite decide_True. Qed.

Lemma walkFrom_unvisited (g : UndirectedGraph) (st : gset Z * list (list NamedNode))
    (from : NamedNode) :
  IDVal from ∉ st.1 →
  walkFrom g st from
  = (r ← walkLoop (walkBudget g) g [from] st.1 []; Done (r.1, st.2 ++ [r.2])).
Proof. intros Hin. unfold walkFrom. by rewrite decide_False. Qed.

(** The loop of [ConnectedComponents] over the nodes. *)
Lemma components_loop (g : UndirectedGraph) :
  wellFormed g →
  ∀ (ns : list NamedNode) (cc : list (list NamedNode)),
    (∀ n, n ∈ ns → nodes g !! IDVal n = Some n) →
    NoDup (IDVal <$> mjoin cc) →
    closed g (list_to_set (IDVal <$> mjoin cc)) →
    (∀ c, c ∈ cc →
       c ≠ [] ∧ ∀ n, n ∈ c →
         nodes g !! IDVal n = Some n ∧ ∀ id, id ∈ IDVal <$> c ↔ connected g (IDVal n) id) →
    ∃ cc',
      foldlM (walkFrom g) (list_to_set (IDVal <$> mjoin cc), cc) ns
        = Done (list_to_set (IDVal <$> mjoin cc'), cc')
      ∧ NoDup (IDVal <$> mjoin cc')
      ∧ (∀ c, c ∈ cc' →
           c ≠ [] ∧ ∀ n, n ∈ c →
             nodes g !! IDVal n = Some n
             ∧ ∀ id, id ∈ IDVal <$> c ↔ connected g (IDVal n) id)
      ∧ (∀ id, id ∈ IDVal <$> mjoin cc → id ∈ IDVal <$> mjoin cc')
      ∧ (∀ n, n ∈ ns → IDVal n ∈ IDVal <$> mjoin cc').
Proof.
  intros Hwf. induction ns as [|from ns IH]; intros cc Hns Hnd Hclosed Hcc.
  - exists cc. split_and!; try done. intros n Hn. by apply elem_of_nil in Hn.
  - cbn [foldlM].
    destruct (decide (IDVal from ∈ (list_to_set (IDVal <$> mjoin cc) : gset Z))) as [Hvis|Hnew].
    + rewrite walkFrom_visited by done. cbn [mbind outcome_bind].
      destruct (IH cc) as (cc' & -> & Hnd' & Hcc' & Hmono & Hin); try done.
      { intros n Hn. apply Hns. by right. }
      exists cc'. split_and!; try done.
      intros n Hn. apply elem_of_cons in Hn as [->|Hn]; [|by apply Hin].
      apply Hmono. by apply elem_of_list_to_set in Hvis.
    + rewrite walkFrom_unvisited by done. cbn [fst snd].
      destruct (walkFrom_new g (list_to_set (IDVal <$> mjoin cc)) from)
        as (c & -> & Hndc & Hne & Hfc & Hclosed' & Hc); try done.
      { apply Hns. by left. }
      cbn [mbind outcome_bind fst snd]. rewrite visited_join in *.
      destruct (IH (cc ++ [c])) as (cc' & -> & Hnd' & Hcc' & Hmono & Hin); try done.
      * intros n Hn. apply Hns. by right.
      * rewrite join_snoc, fmap_app. apply NoDup_app. split_and!; [done| |done].
        intros id Hid Hid'. apply list_elem_of_fmap in Hid' as (n & -> & Hn).
        destruct (Hc n Hn) as (HnV & _). apply HnV. by apply elem_of_list_to_set.
      * intros c0 Hc0. apply elem_of_app in Hc0 as [Hc0|Hc0]; [by apply Hcc|].
        apply list_elem_of_singleton in Hc0 as ->. split; [done|].
        intros n Hn. destruct (Hc n Hn) as (_ & ? & ?). by split.
      * exists cc'. split_and!; try done.
        -- intros id Hid. apply Hmono. rewrite join_snoc, fmap_app. apply elem_of_app. by left.
        -- intros n Hn. apply elem_of_cons in Hn as [->|Hn]; [|by apply Hin].
           apply Hmono. rewrite join_snoc, fmap_app. apply elem_of_app. by right.
Qed.

(** [ConnectedComponents] on a well-formed graph returns, and what it
    returns lists the connected components of the graph. *)
Lemma ConnectedComponents_spec (g : UndirectedGraph) :
  wellFormed g → ∃ cc, ConnectedComponents g = Done cc ∧ componentsOf g cc.
Proof.
  intros Hwf. unfold ConnectedComponents.
  destruct (components_loop g Hwf (Nodes g) []) as (cc & Hloop & Hnd & Hcc & _ & Hin).
  - intros n Hn. apply elem_of_Nodes in Hn as [id Hid].
    by rewrite (wf_node_id g Hwf id n Hid).
  - constructor.
  - intros u v Hu. cbn in Hu. set_solver.
  - intros c Hc. by apply elem_of_nil in Hc.
  - cbn in Hloop. rewrite Hloop. cbn [mbind outcome_bind snd]. exists cc. split; [done|].
    split.
    + done.
    + intros id. split.
      * intros Hid. apply list_elem_of_fmap in Hid as (n & -> & Hn).
        apply list_elem_of_join in Hn as (c & Hn & Hc).
        destruct (Hcc c Hc) as [_ Hnodes]. destruct (Hnodes n Hn) as [-> _]. by eexists.
      * intros [n Hn]. rewrite <- (wf_node_id g Hwf id n Hn). apply Hin.
        apply elem_of_Nodes. by exists id.
    + intros c Hc. by apply Hcc.
    + intros c n Hc Hn. destruct (Hcc c Hc) as [_ Hnodes]. by apply Hnodes.
    + intros c n id Hc Hn. destruct (Hcc c Hc) as [_ Hnodes]. by apply Hnodes.
Qed.

(** ** The connectivity check *)

Lemma adjacent_without (g g' : UndirectedGraph) (id u v : Z) :
  (∀ u v, edgeAt g' u v = if decide (u = id ∨ v = id) then None else edgeAt g u v) →
  adjacent g' u v ↔ adjacent g u v ∧ u ≠ id ∧ v ≠ id.
Proof.
  intros Hedges. unfold adjacent. rewrite Hedges. case_decide as Hc.
  - split; [by intros [? ?]|]. intros (_ & ? & ?). tauto.
  - split; [|tauto]. intros He. split; [done|]. tauto.
Qed.

Lemma copyWithoutConstant_spec (h : gmap positive UndirectedGraph) (g : positive)
    (G : UndirectedGraph) :
  wellFormed G → h !! g = Some G →
  ∃ gc GC,
    h !! gc = None
    ∧ gc ≠ g
    ∧ copyWithoutConstant h g = Done (<[gc := GC]> h, gc)
    ∧ wellFormed GC
    ∧ nodes GC = delete 0 (nodes G)
    ∧ (∀ u v, adjacent GC u v ↔ adjacent G u v ∧ u ≠ 0 ∧ v ≠ 0).
Proof.
  intros Hwf Hg. unfold copyWithoutConstant.
  set (gc := fresh (dom h)).
  assert (h !! gc = None) as Hgc.
  { apply not_elem_of_dom. apply is_fresh. }
  assert (gc ≠ g) as Hne by (intros ->; congruence).
  destruct (Copy_spec (<[gc := NewUndirectedGraph]> h) gc g G)
    as (D & -> & HwfD & HnodesD & HadjD); try done.
  { by rewrite lookup_insert_ne. }
  { apply lookup_insert_eq. }
  cbn [mbind outcome_bind]. rewrite insert_insert_eq.
  rewrite (mutate_Done _ gc _ D (RemoveNode D 0) (lookup_insert_eq _ _ _) eq_refl).
  cbn [mbind outcome_bind]. rewrite insert_insert_eq.
  destruct (RemoveNode_spec D 0 HwfD) as (Hn & He & HwfGC).
  exists gc, (RemoveNode D 0). split_and!; try done.
  - by rewrite Hn, HnodesD.
  - intros u v. rewrite (adjacent_without D _ 0 u v He). by rewrite HadjD.
Qed.

(** C6.  On a graph [G] that [buildGraph] returned, stored at address [g]:
    the connectivity check allocates a new graph [gc] and leaves in it [G]
    without node 0 and without the edges at node 0; the components it
    computes are the connected components of that graph, each remaining
    node in exactly one of them; [analyzeGraph] returns (it does not
    panic) and reports on these components; the graph at [g] is still [G]
    afterwards; and when [G] has no node other than 0, there is no
    component and the report is the one for a connected graph. *)
Theorem analyzeGraph_connectivity (data : Constraints) (signals : list string)
    (G : UndirectedGraph) (h : gmap positive UndirectedGraph) (g : positive) :
  buildGraph data signals = Done G →
  h !! g = Some G →
  ∃ gc GC cc,
    h !! gc = None
    ∧ copyWithoutConstant h g = Done (<[gc := GC]> h, gc)
    ∧ nodes GC = delete 0 (nodes G)
    ∧ (∀ u v, adjacent GC u v ↔ adjacent G u v ∧ u ≠ 0 ∧ v ≠ 0)
    ∧ ConnectedComponents GC = Done cc
    ∧ componentsOf GC cc
    ∧ analyzeGraph h g = Done (<[gc := GC]> h, degreeReport G ++ subgraphReport G cc)
    ∧ <[gc := GC]> h !! g = Some G
    ∧ (dom (nodes G) ⊆ {[0]} → cc = [] ∧ subgraphReport G cc = [FullyConnectedLine]).
Proof.
  intros HG Hg. destruct (buildGraph_Done data signals G HG) as (_ & Hwf & _ & _ & _).
  destruct (copyWithoutConstant_spec h g G Hwf Hg)
    as (gc & GC & Hgc & Hne & Hcopy & HwfGC & Hnodes & Hadj).
  destruct (ConnectedComponents_spec GC HwfGC) as (cc & Hcc & Hcomp).
  assert (<[gc := GC]> h !! g = Some G) as Hg' by by rewrite lookup_insert_ne.
  exists gc, GC, cc. split_and!; try done.
  - unfold analyzeGraph. rewrite (deref_Some h g G) by done. cbn [mbind outcome_bind].
    rewrite Hcopy. cbn [mbind outcome_bind fst snd].
    rewrite (deref_Some _ gc GC) by apply lookup_insert_eq. cbn [mbind outcome_bind].
    rewrite Hcc. cbn [mbind outcome_bind].
    by rewrite (deref_Some _ g G) by done.
  - intros Hdom.
    assert (nodes GC = ∅) as Hempty.
    { rewrite Hnodes. apply map_empty. intros id. apply lookup_delete_None.
      destruct (decide (id = 0)) as [->|Hid]; [by left|]. right.
      apply not_elem_of_dom. intros Hin. apply Hdom in Hin. set_solver. }
    assert (cc = []) as ->.
    { destruct cc as [|c cc]; [done|]. exfalso.
      destruct (comp_nonempty GC _ Hcomp c) as []; [by left|].
      destruct c as [|n c]; [done|].
      pose proof (comp_nodes GC _ Hcomp (n :: c) n ltac:(by left) ltac:(by left)) as Hn.
      rewrite Hempty in Hn. by rewrite lookup_empty in Hn. }
    done.
Qed.

(** * Further properties of the builder *)

(** X1.  In the graph [buildGraph] returns, two signals are joined by an
    edge exactly when they are different and occur together in one of the
    constraints. *)
Theorem buildGraph_edges (data : Constraints) (signals : list string) (g : UndirectedGraph) :
  buildGraph data signals = Done g →
  ∀ u v, adjacent g u v ↔ u ≠ v ∧ cooccur u v data.
Proof. intros Hg. by destruct (buildGraph_Done data signals g Hg) as (_ & _ & _ & _ & Hadj). Qed.

(** X2.  [buildGraph] either returns a graph, and then every index that
    appears in the constraints is within the name table, or it panics with
    an index out of range, at an index that appears in the constraints and
    is outside of the table (negative, or at least the length of the
    table).  It has no other outcome. *)
Theorem buildGraph_returns_or_panics (data : Constraints) (signals : list string) :
  (∃ g, buildGraph data signals = Done g
        ∧ ∀ id, appears id data → 0 ≤ id < Z.of_nat (length signals))
  ∨ (∃ id, buildGraph data signals = Panicked (IndexOutOfRange id (length signals))
           ∧ appears id data
           ∧ ¬ (0 ≤ id < Z.of_nat (length signals))).
Proof.
  destruct (buildGraph_cases data signals) as [(g & Hg & Htable & _)|(id & Hp & Hin & Hout)].
  - left. by exists g.
  - right. by exists id.
Qed.

Lemma rangeMap_empty {K A : Type} `{Countable K} : rangeMap (∅ : gmap K A) = [].
Proof.
  apply Permutation_nil_r. rewrite rangeMap_permutation. by rewrite map_to_list_empty.
Qed.

Lemma addConstraint_no_signal (signals : list string) (g : UndirectedGraph) :
  addConstraint signals g ([], [], []) = Done g.
Proof.
  unfold addConstraint. change (signalSetOf ([], [], [])) with (∅ : gmap Z unit).
  by rewrite rangeMap_empty.
Qed.

(** X4.  A constraint whose three expressions are empty contributes
    nothing: the outcome of [buildGraph] is the same with it and without
    it, wherever it stands in the list. *)
Theorem buildGraph_skips_empty_constraint (data1 data2 : Constraints) (signals : list string) :
  buildGraph (data1 ++ ([], [], []) :: data2) signals = buildGraph (data1 ++ data2) signals.
Proof.
  unfold buildGraph. rewrite !foldlM_app.
  destruct (foldlM (addConstraint signals) NewUndirectedGraph data1) as [g| |]; [|done..].
  cbn [mbind outcome_bind foldlM]. by rewrite addConstraint_no_signal.
Qed.

Lemma size_at_most_one (X : gset Z) :
  (size X ≤ 1)%nat ↔ ∀ x y, x ∈ X → y ∈ X → x = y.
Proof.
  unfold size, set_size. cbn. pose proof (NoDup_elements X) as Hnd.
  setoid_rewrite <- elem_of_elements. destruct (elements X) as [|a [|b l]]; cbn.
  - split; [|lia]. intros _ x y Hx. by apply elem_of_nil in Hx.
  - split; [|lia]. intros _ x y Hx Hy.
    apply list_elem_of_singleton in Hx, Hy. congruence.
  - split; [lia|]. intros Heq. exfalso.
    apply NoDup_cons in Hnd as [Hab _]. apply Hab.
    rewrite (Heq a b); [by left|by left|right; by left].
Qed.

(** X5.  Read on the constraints: the underconstraint check reports a
    name exactly when it is the name, in the table, of a signal that
    appears in the constraints and that occurs together with at most one
    other signal, over all the constraints. *)
Theorem underconstrained_from_constraints (data : Constraints) (signals : list string)
    (g : UndirectedGraph) :
  buildGraph data signals = Done g →
  ∀ name, name ∈ findUnderconstrainedSignals g
    ↔ ∃ id, appears id data
            ∧ signals !! Z.to_nat id = Some name
            ∧ ∀ v w, v ≠ id → w ≠ id → cooccur id v data → cooccur id w data → v = w.
Proof.
  intros Hg name.
  destruct (buildGraph_Done data signals g Hg) as (_ & Hwf & Hnamed & Hdom & Hadj).
  assert (∀ id, (degree g id ≤ 1)%nat
                ↔ ∀ v w, v ≠ id → w ≠ id → cooccur id v data → cooccur id w data → v = w)
    as Hdeg.
  { intros id. unfold degree. rewrite size_at_most_one. split.
    - intros Hone v w Hv Hw Hcv Hcw.
      apply Hone; apply elem_of_neighbours, Hadj; split; done.
    - intros Hone v w Hv Hw. apply elem_of_neighbours, Hadj in Hv as [Hv Hcv].
      apply elem_of_neighbours, Hadj in Hw as [Hw Hcw]. apply Hone; done. }
  rewrite findUnderconstrainedSignals_filter, list_elem_of_fmap. split.
  - intros (n & -> & Hn). apply list_elem_of_filter in Hn as [Hd Hn].
    apply elem_of_Nodes in Hn as [id Hid].
    pose proof (wf_node_id g Hwf id n Hid) as Hidn. rewrite Hidn in Hd.
    destruct (Hnamed id n Hid) as [_ Hname].
    exists id. split_and!; [apply Hdom; by eexists|done|by apply Hdeg].
  - intros (id & Happ & Hname & Hone). apply Hdom in Happ as [n Hn].
    destruct (Hnamed id n Hn) as [_ Hname'].
    exists n. split; [congruence|]. apply list_elem_of_filter. split.
    + rewrite (wf_node_id g Hwf id n Hn). by apply Hdeg.
    + apply elem_of_Nodes. by exists id.
Qed.

(** * Further properties of the analyzer *)

Lemma analyzeGraph_outcome (G : UndirectedGraph) (h : gmap positive UndirectedGraph)
    (g : positive) :
  wellFormed G → h !! g = Some G →
  ∃ gc GC cc,
    analyzeGraph h g = Done (<[gc := GC]> h, degreeReport G ++ subgraphReport G cc)
    ∧ nodes GC = delete 0 (nodes G)
    ∧ (∀ u v, adjacent GC u v ↔ adjacent G u v ∧ u ≠ 0 ∧ v ≠ 0)
    ∧ componentsOf GC cc.
Proof.
  intros Hwf Hg.
  destruct (copyWithoutConstant_spec h g G Hwf Hg)
    as (gc & GC & Hgc & Hne & Hcopy & HwfGC & Hnodes & Hadj).
  destruct (ConnectedComponents_spec GC HwfGC) as (cc & Hcc & Hcomp).
  exists gc, GC, cc. split_and!; try done.
  unfold analyzeGraph. rewrite (deref_Some h g G) by done. cbn [mbind outcome_bind].
  rewrite Hcopy. cbn [mbind outcome_bind fst snd].
  rewrite (deref_Some _ gc GC) by apply lookup_insert_eq. cbn [mbind outcome_bind].
  rewrite Hcc. cbn [mbind outcome_bind].
  rewrite (deref_Some _ g G); [done|]. by rewrite lookup_insert_ne.
Qed.

Lemma components_at_most_one (g : UndirectedGraph) (cc : list (list NamedNode)) :
  componentsOf g cc →
  (length cc ≤ 1)%nat
  ↔ ∀ u v, is_Some (nodes g !! u) → is_Some (nodes g !! v) → connected g u v.
Proof.
  intros [Hnd Hcover Hne Hnodes Hconn]. split.
  - intros Hlen u v Hu Hv. destruct cc as [|c [|c' cc]]; [| |cbn in Hlen; lia].
    + apply Hcover in Hu. cbn in Hu. by apply elem_of_nil in Hu.
    + apply Hcover in Hu, Hv. cbn in Hu, Hv. rewrite app_nil_r in Hu, Hv.
      apply list_elem_of_fmap in Hu as (n & -> & Hn).
      by apply (Hconn c n v ltac:(by left) Hn).
  - intros Hall. destruct cc as [|c [|c' cc]]; [cbn; lia|cbn; lia|]. exfalso.
    destruct c as [|n c]; [apply (Hne []); [by left|done]|].
    destruct c' as [|n' c']; [apply (Hne []); [right; by left|done]|].
    assert (IDVal n' ∈ IDVal <$> n :: c) as Hin.
    { apply (Hconn (n :: c) n (IDVal n')); [by left|by left|].
      apply Hall; eexists.
      - apply (Hnodes (n :: c) n); by left.
      - apply (Hnodes (n' :: c') n'); [right; by left|by left]. }
    cbn [mjoin list_join] in Hnd. rewrite fmap_app in Hnd.
    apply NoDup_app in Hnd as (_ & Hdisj & _). apply (Hdisj (IDVal n') Hin).
    rewrite fmap_app, fmap_cons. apply elem_of_app. left. by left.
Qed.

Lemma connected_apart (G GC : UndirectedGraph) (u v : Z) :
  (∀ u v, adjacent GC u v ↔ adjacent G u v ∧ u ≠ 0 ∧ v ≠ 0) →
  connected GC u v ↔ linkedApartFromConstant G u v.
Proof.
  intros Hadj. unfold connected, linkedApartFromConstant.
  split; apply rtc_subrel; intros x y; by rewrite Hadj.
Qed.

Lemma degreeReport_lines (g : UndirectedGraph) (l : line) :
  l ∈ degreeReport g →
  l = NodeCountLine (length (Nodes g))
  ∨ l = UnderconstrainedLine (findUnderconstrainedSignals g)
  ∨ l = NoUnderconstrainedLine.
Proof.
  unfold degreeReport. intros Hl. apply elem_of_cons in Hl as [->|Hl]; [by left|].
  apply list_elem_of_singleton in Hl as ->. case_decide; auto.
Qed.

Lemma subgraphReport_connected (G : UndirectedGraph) (cc : list (list NamedNode)) :
  FullyConnectedLine ∈ subgraphReport G cc ↔ (length cc ≤ 1)%nat.
Proof.
  unfold subgraphReport. case_decide as Hlen.
  - split; [|lia]. intros Hin. exfalso.
    apply elem_of_cons in Hin as [?|Hin]; [done|].
    apply list_elem_of_join in Hin as (ls & Hin & Hls).
    apply elem_of_lookup_imap in Hls as (i & c & -> & _).
    apply elem_of_cons in Hin as [?|Hin]; [done|].
    apply list_elem_of_fmap in Hin as (n & Hn & _). by destruct (Node G (IDVal n)).
  - split; [lia|]. intros _. by left.
Qed.

(** X6.  On a graph [buildGraph] returned, [analyzeGraph] prints that the
    graph remains fully connected exactly when every two signals other
    than signal 0 that appear in the constraints can be reached from one
    another along edges that do not touch signal 0. *)
Theorem analyzeGraph_reports_connected (data : Constraints) (signals : list string)
    (G : UndirectedGraph) (h : gmap positive UndirectedGraph) (g : positive) :
  buildGraph data signals = Done G →
  h !! g = Some G →
  ∃ h' out,
    analyzeGraph h g = Done (h', out)
    ∧ (FullyConnectedLine ∈ out
       ↔ ∀ u v, appears u data → appears v data → u ≠ 0 → v ≠ 0 →
                linkedApartFromConstant G u v).
Proof.
  intros HG Hg. destruct (buildGraph_Done data signals G HG) as (_ & Hwf & _ & Hdom & _).
  destruct (analyzeGraph_outcome G h g Hwf Hg) as (gc & GC & cc & Hrun & Hnodes & Hadj & Hcomp).
  eexists _, _. split; [exact Hrun|].
  rewrite elem_of_app, subgraphReport_connected, (components_at_most_one GC cc Hcomp).
  assert (∀ id, is_Some (nodes GC !! id) ↔ appears id data ∧ id ≠ 0) as HdomGC.
  { intros id. rewrite Hnodes, <- Hdom. unfold is_Some.
    setoid_rewrite lookup_delete_Some. split.
    - intros (n & Hne & Hn). split; [by exists n|congruence].
    - intros [(n & Hn) Hne]. exists n. split; [congruence|done]. }
  split.
  - intros [Hin|Hall]; [by apply degreeReport_lines in Hin as [?|[?|?]]|].
    intros u v Hu Hv Hu0 Hv0. apply (connected_apart G GC u v Hadj).
    apply Hall; by apply HdomGC.
  - intros Hall. right. intros u v Hu Hv. apply HdomGC in Hu as [Hu Hu0], Hv as [Hv Hv0].
    apply (connected_apart G GC u v Hadj). by apply Hall.
Qed.

Lemma namesPrinted_components (G : UndirectedGraph) (cc : list (list NamedNode))
    (number : nat → nat) :
  (∀ c n, c ∈ cc → n ∈ c → nodes G !! IDVal n = Some n) →
  namesPrinted
    (mjoin (imap (λ i subgraph,
                    SubgraphLine (number i) ::
                    ((λ node,
                        match Node G (IDVal node) with
                        | Some namedNode => NodeNameLine (Name namedNode)
                        | None => NodeIDLine (IDVal node)
                        end) <$> subgraph))
                 cc))
  = Name <$> mjoin cc.
Proof.
  revert number. induction cc as [|c cc IH]; intros number Hnodes; [done|].
  cbn [imap mjoin list_join]. unfold namesPrinted in *. rewrite omap_app, fmap_app.
  f_equal.
  - cbn [omap]. clear IH.
    assert (∀ n, n ∈ c → nodes G !! IDVal n = Some n) as Hc
      by (intros n Hn; apply (Hnodes c n); [by left|done]).
    clear Hnodes. induction c as [|n c IHc]; [done|].
    cbn [fmap list_fmap omap]. unfold Node. rewrite (Hc n) by by left. cbn.
    f_equal. apply IHc. intros n' Hn'. apply Hc. by right.
  - apply (IH (number ∘ S)). intros c' n Hc' Hn. apply (Hnodes c' n); [by right|done].
Qed.

(** X7.  When [analyzeGraph] finds more than one component on a graph
    [buildGraph] returned, the names it prints, over all the components,
    are the names of the nodes other than node 0, each node once; and in no
    case does it print a bare node ID in place of a name. *)
Theorem analyzeGraph_prints_every_signal (data : Constraints) (signals : list string)
    (G : UndirectedGraph) (h : gmap positive UndirectedGraph) (g : positive) :
  buildGraph data signals = Done G →
  h !! g = Some G →
  ∃ h' out,
    analyzeGraph h g = Done (h', out)
    ∧ (∀ id, NodeIDLine id ∉ out)
    ∧ (FullyConnectedLine ∉ out →
       ∃ ns, namesPrinted out = Name <$> ns
             ∧ NoDup (IDVal <$> ns)
             ∧ ∀ n, n ∈ ns ↔ ∃ id, id ≠ 0 ∧ nodes G !! id = Some n).
Proof.
  intros HG Hg. destruct (buildGraph_Done data signals G HG) as (_ & Hwf & _ & _ & _).
  destruct (analyzeGraph_outcome G h g Hwf Hg) as (gc & GC & cc & Hrun & Hnodes & Hadj & Hcomp).
  assert (∀ c n, c ∈ cc → n ∈ c → nodes G !! IDVal n = Some n) as HinG.
  { intros c n Hc Hn. pose proof (comp_nodes GC cc Hcomp c n Hc Hn) as HnGC.
    rewrite Hnodes in HnGC. by apply lookup_delete_Some in HnGC as [_ ?]. }
  eexists _, _. split; [exact Hrun|]. split.
  - intros id Hin. apply elem_of_app in Hin as [Hin|Hin].
    { by apply degreeReport_lines in Hin as [?|[?|?]]. }
    unfold subgraphReport in Hin. case_decide.
    + apply elem_of_cons in Hin as [?|Hin]; [done|].
      apply list_elem_of_join in Hin as (ls & Hin & Hls).
      apply elem_of_lookup_imap in Hls as (i & c & -> & Hc).
      apply elem_of_cons in Hin as [?|Hin]; [done|].
      apply list_elem_of_fmap in Hin as (n & Hn & Hnc).
      unfold Node in Hn. rewrite (HinG c n) in Hn; [done| |done].
      by eapply list_elem_of_lookup_2.
    + by apply list_elem_of_singleton in Hin.
  - intros Hnot. exists (mjoin cc). split_and!.
    + unfold namesPrinted. rewrite omap_app. fold (namesPrinted (degreeReport G)).
      fold (namesPrinted (subgraphReport G cc)).
      replace (namesPrinted (degreeReport G)) with (@nil string)
        by (unfold degreeReport; cbn; by case_decide).
      rewrite app_nil_l. unfold subgraphReport. case_decide as Hlen.
      * change (namesPrinted (?x :: ?l)) with (namesPrinted l).
        by apply (namesPrinted_components G cc (λ i, (i + 1)%nat)).
      * exfalso. apply Hnot. apply elem_of_app. right.
        apply subgraphReport_connected. lia.
    + apply (comp_nodup GC cc Hcomp).
    + intros n. split.
      * intros Hn. apply list_elem_of_join in Hn as (c & Hn & Hc).
        pose proof (comp_nodes GC cc Hcomp c n Hc Hn) as HnGC.
        rewrite Hnodes in HnGC. apply lookup_delete_Some in HnGC as [Hne HnG].
        exists (IDVal n). by split.
      * intros (id & Hid & HnG).
        assert (IDVal n = id) as Hidn by by apply (wf_node_id G Hwf).
        assert (nodes GC !! id = Some n) as HnGC
          by (rewrite Hnodes; by apply lookup_delete_Some).
        assert (id ∈ IDVal <$> mjoin cc) as Hin
          by (apply (comp_cover GC cc Hcomp); by eexists).
        apply list_elem_of_fmap in Hin as (n' & Hid' & Hn').
        apply list_elem_of_join in Hn' as (c & Hn' & Hc).
        pose proof (comp_nodes GC cc Hcomp c n' Hc Hn') as Hn'GC.
        rewrite <- Hid' in Hn'GC. rewrite HnGC in Hn'GC. injection Hn'GC as <-.
        apply list_elem_of_join. by exists c.
Qed.

(** * Further properties of the loaders *)

Lemma ReadAll_uniform (n : nat) (rows : list (option (list string)))
    (acc records : list (list string)) :
  (0 < n)%nat →
  ReadAll n rows acc = inr records →
  ∃ rs, records = acc ++ rs ∧ Forall (λ r, length r = n) rs.
Proof.
  intros Hn. revert acc. induction rows as [|[dst|] rows IH]; intros acc; cbn [ReadAll].
  - intros [= <-]. exists []. by rewrite app_nil_r.
  - destruct (decide (0 < n)%nat); [|lia].
    destruct (decide (length dst ≠ n)) as [Hlen|Hlen]; [done|].
    intros Hread. apply IH in Hread as (rs & -> & Hall).
    exists (dst :: rs). rewrite <- app_assoc. split; [done|].
    constructor; [|done]. by apply dec_stable.
  - done.
Qed.

Lemma fourth_fields_list (records : list (list string)) (acc : list string) :
  Forall (λ record, 4 ≤ length record)%nat records →
  foldlM (λ signals record, name ← index record 3; Done (signals ++ [name])) acc records
  = Done (acc ++ ((λ record, default EmptyString (record !! 3%nat)) <$> records)).
Proof.
  revert acc. induction records as [|record records IH]; intros acc Hall; cbn [foldlM].
  - by rewrite app_nil_r.
  - apply Forall_cons in Hall as [Hlen Hall].
    destruct (index_in_range record 3) as (name & -> & Hname); [lia|].
    cbn [mbind outcome_bind]. rewrite IH by done.
    change (Z.to_nat 3) with 3%nat in Hname. rewrite fmap_cons, Hname. cbn.
    by rewrite <- app_assoc.
Qed.

(** X8.  What [LoadFromSym] does with a readable symbol file, each record
    of which has at least one field.  When [ReadAll] rejects the file (a
    quoting error, or a record whose number of fields differs from that of
    the first record), that error is returned and no name.  Otherwise all
    the records have as many fields as the first one, and that number
    decides: with four fields or more the names are "1" followed by the
    fourth field of each record; with fewer, the call panics on the first
    record.  A file without records gives the single name "1". *)
Theorem LoadFromSym_outcome (rows : list (option (list string))) :
  Forall (λ row, row ≠ Some []) rows →
  match ReadAll 0 rows [] with
  | inl err => LoadFromSym (SymRecords rows) = Done ([], Some err)
  | inr [] => LoadFromSym (SymRecords rows) = Done (["1"%string], None)
  | inr (first :: rest) =>
      Forall (λ record, length record = length first) rest
      ∧ if decide (4 ≤ length first)%nat
        then LoadFromSym (SymRecords rows)
             = Done ("1"%string
                       :: ((λ record, default EmptyString (record !! 3%nat)) <$> first :: rest),
                     None)
        else LoadFromSym (SymRecords rows) = Panicked (IndexOutOfRange 3 (length first))
  end.
Proof.
  intros Hfields. unfold LoadFromSym.
  destruct (ReadAll 0 rows []) as [err|[|first rest]] eqn:Hread; [done|done|].
  destruct rows as [|[dst|] rows]; cbn [ReadAll] in Hread; [done| |done].
  rewrite decide_False in Hread by lia.
  assert (0 < length dst)%nat as Hpos.
  { apply Forall_cons in Hfields as [Hdst _]. destruct dst; [done|cbn; lia]. }
  destruct (ReadAll_uniform (length dst) rows [dst] (first :: rest) Hpos Hread)
    as (rs & Heq & Hall).
  cbn in Heq. injection Heq as -> ->. split; [done|].
  case_decide as Hlen.
  - rewrite fourth_fields_list; [done|].
    constructor; [done|]. eapply Forall_impl; [exact Hall|]. cbn. intros r ->. done.
  - cbn [foldlM]. rewrite index_out_of_range by lia. done.
Qed.

(** X9.  Whatever the key, the index [stringToInt] gives is a value of
    [int64]: the model's integers never leave the range of the type the
    code computes in. *)
Theorem stringToInt_in_int64 (s : list Z) : - 2 ^ 63 ≤ stringToInt s < 2 ^ 63.
Proof.
  unfold stringToInt, scanInt.
  destruct (SkipSpace s) as [s1|]; cbn [mbind option_bind]; [|lia].
  destruct (SkipSpace s1) as [s2|]; cbn [mbind option_bind]; [|lia].
  destruct s2 as [|r rest]; [lia|].
  set (input := if decide (r = 43 ∨ r = 45) then rest else r :: rest).
  pose proof (digitsValue_bounds _ 0 (scanDigits_digits input) ltac:(lia)) as Hnonneg.
  fold (digitsValue (scanDigits input).1) in Hnonneg.
  case_decide; [lia|]. destruct (bool_decide (r = 45)); case_decide; lia.
Qed.

(** X10.  How [stringToInt] reads a key that starts a number: blanks
    before the number (spaces of any kind except a newline) are skipped,
    one sign is accepted, the digits up to the first other character are
    read, and whatever follows is ignored.  The result is the number with
    its sign when it fits [int64], and 0 when it does not. *)
Theorem stringToInt_reads_leading_number (ws sign ds tail : list Z) :
  Forall (λ r, isSpace r = true ∧ r ≠ 10) ws →
  sign = [] ∨ sign = [43] ∨ sign = [45] →
  ds ≠ [] →
  Forall (λ r, 48 ≤ r ≤ 57) ds →
  match tail with [] => True | r :: _ => ¬ (48 ≤ r ≤ 57) end →
  stringToInt (ws ++ sign ++ ds ++ tail)
  = if decide (sign = [45])
    then (if decide (digitsValue ds ≤ 2 ^ 63) then - digitsValue ds else 0)
    else (if decide (digitsValue ds < 2 ^ 63) then digitsValue ds else 0).
Proof. apply stringToInt_leading_number. Qed.

(** ** The helpers around the compiler *)

Lemma fillEach_from {A B : Type} (f : A → B) (xs : list A) (k : nat) (out : list B) :
  length out = (k + length xs)%nat →
  foldl (λ out ix, <[ix.1 := f ix.2]> out) out (imap (λ i x, ((k + i)%nat, x)) xs)
  = take k out ++ (f <$> xs).
Proof.
  revert k out. induction xs as [|x xs IH]; intros k out Hlen; cbn [length] in Hlen.
  - cbn. rewrite take_ge by lia. by rewrite app_nil_r.
  - rewrite imap_cons. cbn [foldl fst snd].
    rewrite (imap_ext _ (λ i x, ((S k + i)%nat, x))) by (intros; cbn; f_equal; lia).
    rewrite IH by (rewrite length_insert; lia).
    rewrite Nat.add_0_r.
    destruct (lookup_lt_is_Some_2 out k) as [b Hb]; [lia|].
    rewrite (take_S_r _ _ (f x)) by (apply list_lookup_insert_eq; lia).
    rewrite take_insert_ge by lia. rewrite <- app_assoc. done.
Qed.

Lemma fillEach_fmap {A B : Type} (zero : B) (f : A → B) (xs : list A) :
  fillEach zero f xs = f <$> xs.
Proof.
  unfold fillEach.
  rewrite (imap_ext pair (λ i x, ((0 + i)%nat, x))) by done.
  rewrite fillEach_from by (rewrite length_replicate; lia). done.
Qed.

Lemma digitsValue_snoc (ds : list Z) (d : Z) :
  digitsValue (ds ++ [d]) = 10 * digitsValue ds + (d - 48).
Proof. unfold digitsValue. by rewrite foldl_app. Qed.

Lemma fmtDigits_spec (budget : nat) (u : Z) (buf : list Z) :
  0 ≤ u < 10 ^ (Z.of_nat budget + 1) →
  ∃ ds, fmtDigits budget u buf = ds ++ buf
        ∧ ds ≠ [] ∧ Forall (λ r, 48 ≤ r ≤ 57) ds ∧ digitsValue ds = u.
Proof.
  revert u buf. induction budget as [|budget IH]; intros u buf Hu; cbn [fmtDigits].
  - change (10 ^ (Z.of_nat 0 + 1)) with 10 in Hu.
    exists [48 + u]. split_and!; [done|done| |].
    + constructor; [lia|constructor].
    + cbn. lia.
  - case_decide as Hten.
    + destruct (IH (u / 10) ((48 + (u - u / 10 * 10)) :: buf)) as (ds & -> & Hne & Hds & Hval).
      { replace (Z.of_nat (S budget) + 1) with (Z.succ (Z.of_nat budget + 1)) in Hu by lia.
        rewrite Z.pow_succ_r in Hu by lia.
        split; [apply Z.div_pos; lia|]. apply Z.div_lt_upper_bound; lia. }
      exists (ds ++ [48 + (u - u / 10 * 10)]). split_and!.
      * by rewrite <- app_assoc.
      * by destruct ds.
      * apply Forall_app. split; [done|]. constructor; [|constructor].
        pose proof (Z.mod_pos_bound u 10 ltac:(lia)) as Hm.
        rewrite Z.mod_eq in Hm by lia. lia.
      * rewrite digitsValue_snoc, Hval. lia.
    + exists [48 + u]. split_and!; [done|done| |].
      * constructor; [lia|constructor].
      * cbn. lia.
Qed.

Lemma formatInt_spec (v : Z) :
  ∃ ds, formatInt v = (if decide (v < 0) then [45] else []) ++ ds
        ∧ ds ≠ [] ∧ Forall (λ r, 48 ≤ r ≤ 57) ds ∧ digitsValue ds = Z.abs v.
Proof.
  unfold formatInt.
  destruct (fmtDigits_spec (Z.to_nat (Z.log2 (Z.abs v))) (Z.abs v) []) as (ds & -> & Hne & Hds & Hval).
  { split; [lia|]. rewrite Z2Nat.id by apply Z.log2_nonneg.
    destruct (decide (Z.abs v = 0)) as [->|Hnz]; [done|].
    pose proof (Z.log2_spec (Z.abs v) ltac:(lia)) as [_ Hlt].
    eapply Z.lt_le_trans; [exact Hlt|].
    replace (Z.succ (Z.log2 (Z.abs v))) with (Z.log2 (Z.abs v) + 1) by lia.
    apply Z.pow_le_mono_l. lia. }
  rewrite app_nil_r. exists ds. split_and!; [|done|done|done].
  by case_decide.
Qed.

Lemma stringToInt_padded (ws : list Z) (v : Z) :
  Forall (λ r, isSpace r = true ∧ r ≠ 10) ws →
  - 2 ^ 63 ≤ v < 2 ^ 63 →
  stringToInt (ws ++ formatInt v) = v.
Proof.
  intros Hws Hv. destruct (formatInt_spec v) as (ds & -> & Hne & Hds & Hval).
  rewrite <- (app_nil_r ds).
  rewrite stringToInt_leading_number; [|done| |done|done|done].
  - destruct (decide (v < 0)) as [Hneg|Hneg].
    + rewrite decide_True by done. rewrite Hval. rewrite decide_True by lia. lia.
    + rewrite decide_False by done. rewrite Hval. rewrite decide_True by lia. lia.
  - case_decide; [by right; right|by left].
Qed.

(** X11.  Formatting an integer of [int64] with "%d", as [joinInts] does,
    and reading the text back with [stringToInt], gives the integer. *)
Theorem stringToInt_formatInt (v : Z) :
  - 2 ^ 63 ≤ v < 2 ^ 63 → stringToInt (formatInt v) = v.
Proof. intros Hv. by apply (stringToInt_padded []). Qed.

Lemma Split_no_separator (s : list Z) (sep : Z) : sep ∉ s → Split s sep = [s].
Proof.
  induction s as [|r s IH]; intros Hsep; cbn [Split]; [done|].
  apply not_elem_of_cons in Hsep as [Hr Hs].
  rewrite decide_False by done. by rewrite IH.
Qed.

Lemma Split_at_separator (s rest : list Z) (sep : Z) :
  sep ∉ s → Split (s ++ sep :: rest) sep = s :: Split rest sep.
Proof.
  induction s as [|r s IH]; intros Hsep; cbn [app Split].
  - by rewrite decide_True.
  - apply not_elem_of_cons in Hsep as [Hr Hs].
    rewrite decide_False by done. by rewrite IH.
Qed.

Lemma formatInt_no_comma (v : Z) : 44 ∉ formatInt v.
Proof.
  destruct (formatInt_spec v) as (ds & -> & _ & Hds & _).
  intros [Hin|Hin]%elem_of_app.
  - case_decide; [|by apply elem_of_nil in Hin].
    apply list_elem_of_singleton in Hin. lia.
  - rewrite Forall_forall in Hds. specialize (Hds _ Hin). lia.
Qed.

Lemma Join_cons_cons (a b : list Z) (rest : list (list Z)) (sep : list Z) :
  Join (a :: b :: rest) sep = a ++ sep ++ Join (b :: rest) sep.
Proof. done. Qed.

Lemma Split_Join_formatInt (ws : list Z) (v : Z) (ints : list Z) :
  ws = [] ∨ ws = [32] →
  Forall (λ v, - 2 ^ 63 ≤ v < 2 ^ 63) (v :: ints) →
  stringToInt <$> Split (ws ++ Join (formatInt <$> v :: ints) [44; 32]) 44 = v :: ints.
Proof.
  revert ws v. induction ints as [|v' ints IH]; intros ws v Hws Hall;
    apply Forall_cons in Hall as [Hv Hall].
  - cbn [fmap list_fmap Join].
    assert (Forall (λ r, isSpace r = true ∧ r ≠ 10) ws) as Hsp.
    { destruct Hws as [-> | ->]; [constructor|]. constructor; [|constructor]. by vm_compute. }
    rewrite Split_no_separator.
    + cbn. by rewrite stringToInt_padded.
    + intros [Hin|Hin]%elem_of_app; [|by apply formatInt_no_comma in Hin].
      destruct Hws as [-> | ->]; [by apply elem_of_nil in Hin|].
      apply list_elem_of_singleton in Hin. lia.
  - assert (Forall (λ r, isSpace r = true ∧ r ≠ 10) ws) as Hsp.
    { destruct Hws as [-> | ->]; [constructor|]. constructor; [|constructor]. by vm_compute. }
    rewrite (fmap_cons _ v), (fmap_cons _ v'), Join_cons_cons, <- (fmap_cons _ v').
    change ([44; 32] ++ ?l) with (44 :: ([32] ++ l)).
    rewrite app_assoc, Split_at_separator.
    + rewrite fmap_cons, stringToInt_padded by done. f_equal.
      apply IH; [by right|done].
    + intros [Hin|Hin]%elem_of_app; [|by apply formatInt_no_comma in Hin].
      destruct Hws as [-> | ->]; [by apply elem_of_nil in Hin|].
      apply list_elem_of_singleton in Hin. lia.
Qed.

Lemma joinInts_split (ints : list Z) :
  ints ≠ [] →
  Forall (λ v, - 2 ^ 63 ≤ v < 2 ^ 63) ints →
  stringToInt <$> Split (joinInts ints) 44 = ints.
Proof.
  intros Hne Hall. unfold joinInts. rewrite fillEach_fmap.
  destruct ints as [|v ints]; [done|].
  by apply (Split_Join_formatInt []); [left|].
Qed.

(** X12.  The text [joinInts] makes of a non-empty list of [int64] values
    can be taken apart again: splitting it at the commas and reading each
    piece with [stringToInt] gives the list back, in order. *)
Theorem joinInts_round_trip (ints : list Z) :
  ints ≠ [] →
  Forall (λ v, - 2 ^ 63 ≤ v < 2 ^ 63) ints →
  stringToInt <$> Split (joinInts ints) 44 = ints.
Proof.
  intros Hne Hall. unfold joinInts. rewrite fillEach_fmap.
  destruct ints as [|v ints]; [done|].
  rewrite <- (app_nil_l (Join _ _)). apply Split_Join_formatInt; [by left|done].
Qed.

Lemma trimLeft_head (s : list Z) :
  match trimLeft s with
  | [] => Forall (λ r, isSpace r = true) s
  | r :: _ => isSpace r = false
  end.
Proof.
  induction s as [|r s IH]; cbn [trimLeft]; [constructor|].
  destruct (isSpace r) eqn:Hr; [|done].
  destruct (trimLeft s); [by constructor|done].
Qed.

Lemma trimLeft_blank (s : list Z) : Forall (λ r, isSpace r = true) s → trimLeft s = [].
Proof. induction 1 as [|r s Hr _ IH]; cbn [trimLeft]; [done|]. by rewrite Hr. Qed.

Lemma TrimSpace_blank (s : list Z) : TrimSpace s = [] ↔ Forall (λ r, isSpace r = true) s.
Proof.
  unfold TrimSpace. split.
  - intros Hnil. apply (f_equal reverse) in Hnil. rewrite reverse_involutive in Hnil.
    change (reverse []) with (@nil Z) in Hnil.
    pose proof (trimLeft_head (reverse (trimLeft s))) as Hrev. rewrite Hnil in Hrev.
    rewrite Forall_reverse in Hrev.
    pose proof (trimLeft_head s) as Hs.
    destruct (trimLeft s) as [|r rest]; [done|].
    apply Forall_cons in Hrev as [Hr _]. congruence.
  - intros Hall. by rewrite (trimLeft_blank s).
Qed.

Lemma length_Split (s : list Z) (sep : Z) :
  length (Split s sep) = S (length (filter (λ r, r = sep) s)).
Proof.
  induction s as [|r s IH]; cbn [Split]; [done|].
  rewrite filter_cons. case_decide as Hr.
  - cbn [length]. by rewrite IH.
  - destruct (Split s sep) as [|piece pieces]; cbn [length] in *; lia.
Qed.

(** X13.  The number of arguments [extractTemplates] records for a
    template: 0 when the text between the parentheses is empty or only
    spaces, and otherwise one more than the number of commas in it,
    whatever stands between the commas. *)
Theorem extractTemplates_counts (matches : list (list Z * list Z)) :
  extractTemplates matches
  = (λ m, mkTemplateInfo m.1
            (if forallb isSpace m.2 then 0
             else 1 + Z.of_nat (length (filter (λ r, r = 44) m.2)))) <$> matches.
Proof.
  unfold extractTemplates. rewrite fillEach_fmap.
  apply list_fmap_ext. intros _ [name args] _. cbn [fst snd]. f_equal.
  unfold countArgs. rewrite length_Split.
  destruct (forallb isSpace args) eqn:Hblank.
  - rewrite decide_False; [done|]. intros Hne. apply Hne, TrimSpace_blank.
    apply Forall_forall. intros r Hr. rewrite forallb_forall in Hblank.
    apply Hblank. by apply list_elem_of_In.
  - rewrite decide_True; [lia|]. intros Hnil%TrimSpace_blank.
    assert (forallb isSpace args = true); [|congruence].
    apply forallb_forall. intros r Hr. rewrite Forall_forall in Hnil.
    apply Hnil. by apply list_elem_of_In.
Qed.

Lemma GenerateRandomArgs_args {rng : Type} (draw : Z → rng → Z * rng) (count : Z) (s : rng) :
  drawsInRange draw →
  0 ≤ count →
  ∃ args s',
    GenerateRandomArgs draw count s = Done (args, s')
    ∧ Z.of_nat (length args) = count
    ∧ Forall (λ a, 2 ≤ a ≤ 15) args.
Proof.
  intros Hrange Hcount. unfold GenerateRandomArgs. rewrite decide_False by lia.
  destruct (fill_args draw (length (replicate (Z.to_nat count) 0)) 0
              (replicate (Z.to_nat count) 0) s Hrange) as (args & s' & -> & Hl & Hin & _);
    [simpl; lia|].
  rewrite length_replicate in Hl, Hin.
  exists args, s'. split_and!; [done|lia|].
  apply Forall_lookup. intros j a Ha.
  destruct (Hin j) as (a' & Ha' & Hr).
  { apply lookup_lt_Some in Ha. lia. }
  congruence.
Qed.

Lemma countArgs_joinInts (ints : list Z) :
  Forall (λ v, - 2 ^ 63 ≤ v < 2 ^ 63) ints →
  countArgs (joinInts ints) = Z.of_nat (length ints).
Proof.
  intros Hall. unfold countArgs. destruct ints as [|v ints].
  - by vm_compute.
  - pose proof (joinInts_split (v :: ints) ltac:(done) Hall) as Hsplit.
    apply (f_equal length) in Hsplit. rewrite length_fmap in Hsplit. rewrite Hsplit.
    rewrite decide_True; [done|]. intros Hblank%TrimSpace_blank.
    unfold joinInts in Hblank. rewrite fillEach_fmap, fmap_cons in Hblank.
    destruct (formatInt_spec v) as (ds & Hfmt & Hne & Hds & _).
    assert (∃ r rest, Join (formatInt v :: (formatInt <$> ints)) [44; 32] = r :: rest
                      ∧ isSpace r = false) as (r & rest & Heq & Hr).
    { destruct ds as [|d ds]; [done|]. apply Forall_cons in Hds as [Hd _].
      destruct (formatInt <$> ints) as [|b bs]; cbn [Join]; rewrite Hfmt;
        case_decide; cbn [app]; eexists _, _; (split; [reflexivity|]);
        first [by apply isSpace_digit | by vm_compute]. }
    rewrite Heq in Hblank. apply Forall_cons in Hblank as [Hsp _]. congruence.
Qed.

(** X14.  The argument count of a template and the arguments made for it
    agree: for a template [extractTemplates] found, [GenerateRandomArgs]
    returns (it does not panic), and the text [joinInts] writes between the
    parentheses of the main component has, by the counting of
    [extractTemplates] itself, exactly the template's number of
    arguments. *)
Theorem extracted_template_gets_its_arguments {rng : Type} (draw : Z → rng → Z * rng)
    (matches : list (list Z * list Z)) (t : TemplateInfo) (s : rng) :
  drawsInRange draw →
  t ∈ extractTemplates matches →
  ∃ args s',
    GenerateRandomArgs draw (ArgCount t) s = Done (args, s')
    ∧ countArgs (joinInts args) = ArgCount t.
Proof.
  intros Hrange Ht. unfold extractTemplates in Ht. rewrite fillEach_fmap in Ht.
  apply list_elem_of_fmap in Ht as ([name text] & -> & _). cbn [ArgCount fst snd].
  assert (0 ≤ countArgs text) as Hcount by (unfold countArgs; case_decide; lia).
  destruct (GenerateRandomArgs_args draw (countArgs text) s Hrange Hcount)
    as (args & s' & Hgen & Hlen & Hargs).
  exists args, s'. split; [done|].
  rewrite countArgs_joinInts; [done|].
  eapply Forall_impl; [exact Hargs|]. cbn. lia.
Qed.

Lemma extScan_extension (ext before suffix : list Z) :
  46 ∉ ext → 47 ∉ ext →
  extScan (reverse ext ++ 46 :: before) suffix = 46 :: ext ++ suffix.
Proof.
  revert suffix. induction ext as [|c ext IH] using rev_ind; intros suffix Hdot Hsep.
  - cbn. rewrite decide_False by lia. by rewrite decide_True.
  - rewrite reverse_app. cbn [reverse app]. change (reverse [c]) with [c]. cbn [app extScan].
    apply not_elem_of_app in Hdot as [Hdot Hc1]. apply not_elem_of_app in Hsep as [Hsep Hc2].
    rewrite list_elem_of_singleton in Hc1, Hc2.
    rewrite decide_False by congruence. rewrite decide_False by congruence.
    rewrite IH by done. by rewrite <- app_assoc.
Qed.

Lemma Ext_extension (stem ext : list Z) :
  46 ∉ ext → 47 ∉ ext → Ext (stem ++ 46 :: ext) = 46 :: ext.
Proof.
  intros Hdot Hsep. unfold Ext. rewrite reverse_app, reverse_cons, <- app_assoc. cbn [app].
  rewrite extScan_extension by done. by rewrite app_nil_r.
Qed.

Lemma HasSuffix_spec (s suffix : list Z) :
  HasSuffix s suffix = true ↔ ∃ stem, s = stem ++ suffix.
Proof.
  unfold HasSuffix. rewrite andb_true_iff, !bool_decide_eq_true. split.
  - intros [Hlen Hdrop]. exists (take (length s - length suffix) s).
    rewrite <- (take_drop (length s - length suffix) s) at 1. by rewrite Hdrop.
  - intros [stem ->]. rewrite length_app. split; [lia|].
    replace (length stem + length suffix - length suffix)%nat with (length stem) by lia.
    by rewrite drop_app_length.
Qed.

Lemma TrimSuffix_app (stem suffix : list Z) : TrimSuffix (stem ++ suffix) suffix = stem.
Proof.
  unfold TrimSuffix. rewrite (proj2 (HasSuffix_spec _ _)) by by exists stem.
  rewrite length_app.
  replace (length stem + length suffix - length suffix)%nat with (length stem) by lia.
  by rewrite take_app_length.
Qed.

(** X15.  For a temporary file [stem.ext] (the extension without dot and
    without "/"), [CompileCircuit] looks for the compiler's outputs at
    [stem_constraints.json] and [stem.sym].  It reports the failure of
    the compiler first, then a missing constraints file, then a missing
    symbol file; otherwise it returns the two paths and no error. *)
Theorem CompileCircuit_outputs (runs : bool) (stat : list Z → statResult) (stem ext : list Z) :
  46 ∉ ext → 47 ∉ ext →
  CompileCircuit runs stat (stem ++ 46 :: ext)
  = if negb runs then ([], [], Some CompilationFailed)
    else if IsNotExist (stat (stem ++ runes "_constraints.json"))
         then ([], [], Some ConstraintsFileNotGenerated)
         else if IsNotExist (stat (stem ++ runes ".sym"))
              then ([], [], Some SymFileNotGenerated)
              else (stem ++ runes "_constraints.json", stem ++ runes ".sym", None).
Proof.
  intros Hdot Hsep. unfold CompileCircuit.
  rewrite Ext_extension by done. by rewrite TrimSuffix_app.
Qed.

Lemma extScan_no_dot (name before suffix : list Z) :
  46 ∉ name → 47 ∉ name → extScan (reverse name ++ 47 :: before) suffix = [].
Proof.
  revert suffix. induction name as [|c name IH] using rev_ind; intros suffix Hdot Hsep.
  - cbn. by rewrite decide_True.
  - rewrite reverse_app. change (reverse [c]) with [c]. cbn [app extScan].
    apply not_elem_of_app in Hdot as [Hdot Hc1]. apply not_elem_of_app in Hsep as [Hsep Hc2].
    rewrite list_elem_of_singleton in Hc1, Hc2.
    rewrite decide_False by congruence. rewrite decide_False by congruence.
    by apply IH.
Qed.

(** X16.  A temporary file whose last path element has no dot has no
    extension to strip, also when a directory of the path has one:
    [CompileCircuit] then looks for the outputs at the whole path followed
    by "_constraints.json" and ".sym". *)
Theorem CompileCircuit_without_extension (stat : list Z → statResult) (dir name : list Z) :
  46 ∉ name → 47 ∉ name →
  stat (dir ++ 47 :: name ++ runes "_constraints.json") = StatFound →
  stat (dir ++ 47 :: name ++ runes ".sym") = StatFound →
  CompileCircuit true stat (dir ++ 47 :: name)
  = (dir ++ 47 :: name ++ runes "_constraints.json", dir ++ 47 :: name ++ runes ".sym", None).
Proof.
  intros Hdot Hsep Hc Hs. unfold CompileCircuit.
  assert (Ext (dir ++ 47 :: name) = []) as ->.
  { unfold Ext. rewrite reverse_app, reverse_cons, <- app_assoc. cbn [app].
    by apply extScan_no_dot. }
  assert (TrimSuffix (dir ++ 47 :: name) [] = dir ++ 47 :: name) as ->.
  { rewrite <- (app_nil_r (dir ++ 47 :: name)) at 1. apply TrimSuffix_app. }
  cbn [negb]. rewrite <- !app_assoc. cbn [app]. by rewrite Hc, Hs.
Qed.

Lemma walkVisits_entries (entries : list (list Z * list Z * bool)) (rest : list visit)
    (files : list (list Z)) :
  walkVisits (((λ e, Visited e.1.1 e.1.2 e.2) <$> entries) ++ rest) files
  = walkVisits rest
      (files ++ ((λ e, e.1.1) <$>
         filter (λ e, negb e.2 && HasSuffix e.1.2 (runes ".circom") = true) entries)).
Proof.
  revert files. induction entries as [|[[path name] isDir] entries IH]; intros files.
  - cbn. by rewrite app_nil_r.
  - rewrite fmap_cons. cbn [app walkVisits fst snd]. rewrite IH, filter_cons. cbn [fst snd].
    destruct (negb isDir && HasSuffix name (runes ".circom")) eqn:Hsel.
    + rewrite decide_True by done. rewrite fmap_cons, <- app_assoc. done.
    + rewrite decide_False by done. done.
Qed.

(** X17.  [GetCircomFiles] returns, in the order of the walk, the paths
    of the entries that are not directories and whose name ends in
    ".circom".  When the walk meets an error, the files found before it
    are returned together with that error, and nothing that comes after
    is looked at. *)
Theorem GetCircomFiles_selects (entries : list (list Z * list Z * bool))
    (path : list Z) (err : walkError) (after : list visit) :
  let visited := (λ e, Visited e.1.1 e.1.2 e.2) <$> entries in
  let found := (λ e, e.1.1) <$>
                 filter (λ e, negb e.2 && HasSuffix e.1.2 (runes ".circom") = true) entries in
  GetCircomFiles visited = (found, None)
  ∧ GetCircomFiles (visited ++ Failed path err :: after) = (found, Some err)
  ∧ ∀ file, file ∈ found ↔ ∃ stem, (file, stem ++ runes ".circom", false) ∈ entries.
Proof.
  cbn zeta. unfold GetCircomFiles. split_and!.
  - rewrite <- (app_nil_r (_ <$> entries)). by rewrite walkVisits_entries.
  - by rewrite walkVisits_entries.
  - intros file. rewrite list_elem_of_fmap. split.
    + intros ([[p name] isDir] & -> & [Hsel Hin]%list_elem_of_filter). cbn [fst snd] in *.
      apply andb_true_iff in Hsel as [Hdir [stem ->]%HasSuffix_spec].
      exists stem. by destruct isDir.
    + intros [stem Hin]. exists (file, stem ++ runes ".circom", false). split; [done|].
      apply list_elem_of_filter. split; [|done]. cbn [fst snd negb andb].
      apply HasSuffix_spec. by exists stem.
Qed.

(** ** The chart *)

Lemma foldl_snoc_fmap {A B : Type} (f : A → B) (l : list A) (acc : list B) :
  foldl (λ acc x, acc ++ [f x]) acc l = acc ++ (f <$> l).
Proof.
  revert acc. induction l as [|x l IH]; intros acc; cbn [foldl].
  - by rewrite app_nil_r.
  - by rewrite IH, fmap_cons, <- app_assoc.
Qed.

(** X18.  The chart [visualizeGraph] makes of a graph [buildGraph]
    returned, when no name of the table has a "%": it has one node for
    each signal that occurs in the constraints, labelled with the name of
    the signal, and one link for each pair of different signals that occur
    together in a constraint, in one of its two directions, labelled with
    the names of the two signals. *)
Theorem visualizeGraph_chart (Sprintf : string → string) (data : Constraints)
    (signals : list string) (g : UndirectedGraph) (templateName : list Z) :
  copiesPlainText Sprintf →
  Forall plain signals →
  buildGraph data signals = Done g →
  ∃ (ids : list Z) (pairs : list (Z * Z)),
    GraphNodes (visualizeGraph Sprintf g templateName)
    = (λ id, default EmptyString (signals !! Z.to_nat id)) <$> ids
    ∧ NoDup ids
    ∧ (∀ id, id ∈ ids ↔ appears id data)
    ∧ GraphLinks (visualizeGraph Sprintf g templateName)
      = (λ p, (default EmptyString (signals !! Z.to_nat p.1),
               default EmptyString (signals !! Z.to_nat p.2))) <$> pairs
    ∧ NoDup ((λ p, (Z.min p.1 p.2, Z.max p.1 p.2)) <$> pairs)
    ∧ (∀ u v, (u, v) ∈ pairs → u ≠ v ∧ cooccur u v data)
    ∧ (∀ u v, u ≠ v → cooccur u v data → (u, v) ∈ pairs ∨ (v, u) ∈ pairs).
Proof.
  intros Hcopy Hplain Hg.
  destruct (buildGraph_Done data signals g Hg) as (_ & Hwf & Hnamed & Hdom & Hadj).
  destruct (Edges_spec g Hwf) as (Hnodup & Hedges & Hall).
  assert (∀ n, nodes g !! IDVal n = Some n →
               Sprintf (Name n) = default EmptyString (signals !! Z.to_nat (IDVal n))) as Hname.
  { intros n Hn. destruct (Hnamed _ _ Hn) as [_ Hs]. rewrite Hs. cbn [default].
    apply Hcopy. rewrite Forall_forall in Hplain. apply Hplain.
    by eapply list_elem_of_lookup_2. }
  exists (IDVal <$> Nodes g), ((λ e, (IDVal (F e), IDVal (T e))) <$> Edges g).
  split_and!.
  - unfold visualizeGraph. cbn [GraphNodes].
    rewrite foldl_snoc_fmap, app_nil_l, <- list_fmap_compose.
    apply list_fmap_ext. intros i n Hin. cbn. apply Hname.
    apply list_elem_of_lookup_2, elem_of_Nodes in Hin as [id Hid].
    by rewrite (wf_node_id g Hwf _ _ Hid).
  - by apply NoDup_Nodes_ids.
  - intros id. by rewrite elem_of_Nodes_ids.
  - unfold visualizeGraph. cbn [GraphLinks].
    rewrite foldl_snoc_fmap, app_nil_l, <- list_fmap_compose.
    apply list_fmap_ext. intros i e Hin. cbn.
    apply list_elem_of_lookup_2, Edges_stored in Hin as (u & v & He).
    destruct (wf_end_nodes g Hwf _ _ _ He) as [HF HT].
    by rewrite (Hname _ HF), (Hname _ HT).
  - by rewrite <- list_fmap_compose.
  - intros u v (e & [= -> ->] & He)%list_elem_of_fmap.
    destruct (Hedges e He) as [Hne Hadjacent]. split; [done|]. by apply Hadj.
  - intros u v Hne Hco.
    assert (adjacent g u v) as Huv by (apply Hadj; done).
    apply Hall, list_elem_of_fmap in Huv as (e & Hends & He).
    unfold ends in Hends. injection Hends as Hmin Hmax.
    assert ((IDVal (F e) = u ∧ IDVal (T e) = v) ∨ (IDVal (F e) = v ∧ IDVal (T e) = u))
      as [[Hu Hv]|[Hv Hu]] by lia.
    + left. apply list_elem_of_fmap. exists e. by rewrite Hu, Hv.
    + right. apply list_elem_of_fmap. exists e. by rewrite Hu, Hv.
Qed.

(** ** One template *)

Lemma GenerateRandomArgs_returns {rng : Type} (draw : Z → rng → Z * rng) (count : Z) (s : rng) :
  0 ≤ count → ∃ r, GenerateRandomArgs draw count s = Done r.
Proof.
  intros Hcount. unfold GenerateRandomArgs. rewrite decide_False by lia.
  destruct (foldlM_invariant (λ _, True)
              (λ st i, r ← Intn draw 14 st.2; Done (<[i := r.1 + 2]> st.1, r.2))
              (seq 0 (length (replicate (Z.to_nat count) 0)))
              (replicate (Z.to_nat count) 0, s)) as (r & Hr & _); [done| |by exists r].
  intros st i _ _. rewrite Intn_positive by lia. cbn [mbind outcome_bind]. by eexists.
Qed.

Lemma fourth_fields_outcome (records : list (list string)) (acc : list string) :
  match foldlM (λ signals record, name ← index record 3; Done (signals ++ [name])) acc records with
  | Done _ => True
  | Panicked p => ∃ n, p = IndexOutOfRange 3 n
  | OutOfSteps => False
  end.
Proof.
  revert acc. induction records as [|record records IH]; intros acc; cbn [foldlM]; [done|].
  assert ((∃ name, index record 3 = Done name)
          ∨ index record 3 = Panicked (IndexOutOfRange 3 (length record))) as [[name ->]| ->].
  { unfold index. case_decide; [|by right].
    destruct (record !! Z.to_nat 3); [left; by eexists|by right]. }
  - cbn [mbind outcome_bind]. apply IH.
  - cbn [mbind outcome_bind]. by eexists.
Qed.

Lemma LoadFromSym_cases (file : symFile) :
  match LoadFromSym file with
  | Done _ => True
  | Panicked p => ∃ n, p = IndexOutOfRange 3 n
  | OutOfSteps => False
  end.
Proof.
  unfold LoadFromSym. destruct file as [|rows]; [done|].
  destruct (ReadAll 0 rows []) as [err|records]; [done|].
  pose proof (fourth_fields_outcome records ["1"%string]) as Hfold.
  destruct (foldlM _ _ records); cbn [mbind outcome_bind]; done.
Qed.

Lemma analyzeGraph_built (data : Constraints) (signals : list string) (g : UndirectedGraph) :
  buildGraph data signals = Done g →
  ∃ r, analyzeGraph {[1%positive := g]} 1%positive = Done r.
Proof.
  intros Hg. destruct (buildGraph_Done data signals g Hg) as (_ & Hwf & _).
  destruct (analyzeGraph_outcome g {[1%positive := g]} 1%positive Hwf)
    as (gc & GC & cc & -> & _); [apply lookup_singleton_eq|]. by eexists.
Qed.

Local Ltac no_removal Hin :=
  repeat match type of Hin with
         | _ ∈ _ ++ _ => apply elem_of_app in Hin as [Hin|Hin]
         | _ ∈ _ :: _ => apply elem_of_cons in Hin as [Hin|Hin]
         | _ ∈ [] => by apply elem_of_nil in Hin
         | _ ∈ _ <$> _ => by apply list_elem_of_fmap in Hin as (? & ? & _)
         | _ = _ => discriminate Hin
         end.

(** X19.  The files [analyzeTemplate] removes.  Once the temporary file
    is made, its removal is the last thing that happens, however the call
    ends.  When the call gets as far as [CompileCircuit] (the arguments
    are made and the main component is appended) and [CompileCircuit]
    returns the two files of the compiler, the header line is printed and
    the two files are removed at the end, the symbol file first, just
    before the temporary file, whatever happens in between.  In every
    other case nothing is printed and nothing else is removed. *)
Theorem analyzeTemplate_removals {rng : Type} (draw : Z → rng → Z * rng)
    (Sprintf : string → string) (visualize : bool) (w : surroundings)
    (filePath : list Z) (template : TemplateInfo) (s : rng) (tempFile : list Z) :
  createTemp w filePath = Some tempFile →
  let run := analyzeTemplate draw Sprintf visualize w filePath template s in
  let compiled := CompileCircuit (compilerRuns w tempFile) (statAt w) tempFile in
  (∃ before, run.1 = before ++ [Removed tempFile])
  ∧ ((∃ args s',
        GenerateRandomArgs draw (ArgCount template) s = Done (args, s')
        ∧ AddMainComponent w tempFile (TemplateName template) args = true)
     ∧ compiled.2 = None →
     ∃ printed,
       (∀ path, Removed path ∉ printed)
       ∧ run.1 = AnalyzingTemplate (TemplateName template) filePath :: printed
                 ++ [Removed compiled.1.2; Removed compiled.1.1; Removed tempFile])
  ∧ (¬ ((∃ args s',
           GenerateRandomArgs draw (ArgCount template) s = Done (args, s')
           ∧ AddMainComponent w tempFile (TemplateName template) args = true)
        ∧ compiled.2 = None) →
     run.1 = [Removed tempFile]).
Proof.
  intros Hcreate. cbn zeta. unfold analyzeTemplate. rewrite Hcreate.
  destruct (GenerateRandomArgs draw (ArgCount template) s) as [[args s']| |] eqn:Hargs;
    cbn [deferring fst snd app];
    [|split_and!; [by exists []|by intros [(? & ? & ? & _) _]|done]..].
  destruct (AddMainComponent w tempFile (TemplateName template) args) eqn:Hadd;
    cbn [negb deferring fst snd app]; [|split_and!; [by exists []| |done]].
  2: { intros [(args0 & s0 & [= <- <-] & Hadd0) _]. congruence. }
  destruct (CompileCircuit (compilerRuns w tempFile) (statAt w) tempFile)
    as [[constraintsFile symFile] [err|]]; cbn [deferring fst snd app];
    [split_and!; [by exists []|by intros [_ ?]|done]|].
  split_and!.
  - by eexists.
  - intros _.
    destruct (LoadFromJson (constraintsAt w constraintsFile)) as [constraints [err|]];
      cbn [fst]; [by exists []; split; [intros path Hin; no_removal Hin|]|].
    destruct (LoadFromSym (symbolsAt w symFile)) as [[signals [err|]]| |]; cbn [fst];
      [by exists []; split; [intros path Hin; no_removal Hin|]| |
       by exists []; split; [intros path Hin; no_removal Hin|]..].
    destruct (buildGraph constraints signals) as [graph| |]; cbn [fst];
      [|by exists []; split; [intros path Hin; no_removal Hin|]..].
    destruct visualize;
      (destruct (analyzeGraph {[1%positive := graph]} 1%positive) as [r| |]; cbn [fst];
       match goal with
       | |- ∃ printed, _ ∧ ((_ :: ?c ++ ?r) ++ _) ++ _ = _ => exists (c ++ r)
       end;
       (split; [intros path Hin; no_removal Hin|by rewrite <- !app_assoc])).
  - intros Hnot. exfalso. apply Hnot. split; [|done]. by exists args, s'.
Qed.

(** X20.  For a template whose argument count is not negative,
    [analyzeTemplate] ends by itself, and it panics in two cases only,
    both of them after a successful compilation and a constraints file
    that could be read: a record of the symbol file has fewer than four
    fields, or a constraint has an index that is outside of the table of
    names.  The panic is the index-out-of-range panic of that access. *)
Theorem analyzeTemplate_panics {rng : Type} (draw : Z → rng → Z * rng)
    (Sprintf : string → string) (visualize : bool) (w : surroundings)
    (filePath : list Z) (template : TemplateInfo) (s : rng) :
  0 ≤ ArgCount template →
  let run := analyzeTemplate draw Sprintf visualize w filePath template s in
  run.2 ≠ OutOfSteps
  ∧ ∀ p, run.2 = Panicked p →
      ∃ tempFile constraintsFile symFile constraints,
        createTemp w filePath = Some tempFile
        ∧ CompileCircuit (compilerRuns w tempFile) (statAt w) tempFile
          = (constraintsFile, symFile, None)
        ∧ LoadFromJson (constraintsAt w constraintsFile) = (constraints, None)
        ∧ ((∃ n, p = IndexOutOfRange 3 n
                 ∧ LoadFromSym (symbolsAt w symFile) = Panicked p)
           ∨ (∃ signals id,
                LoadFromSym (symbolsAt w symFile) = Done (signals, None)
                ∧ p = IndexOutOfRange id (length signals)
                ∧ appears id constraints ∧ ¬ inTable signals id)).
Proof.
  intros Hcount. cbn zeta. unfold analyzeTemplate.
  destruct (createTemp w filePath) as [tempFile|] eqn:Hcreate; [|by split].
  destruct (GenerateRandomArgs_returns draw (ArgCount template) s Hcount) as [[args s'] ->].
  destruct (AddMainComponent w tempFile (TemplateName template) args);
    cbn [negb deferring fst snd]; [|by split].
  destruct (CompileCircuit (compilerRuns w tempFile) (statAt w) tempFile)
    as [[constraintsFile symFile] [err|]] eqn:Hcompile; cbn [deferring fst snd]; [by split|].
  destruct (LoadFromJson (constraintsAt w constraintsFile)) as [constraints [err|]] eqn:Hjson;
    cbn [fst snd]; [by split|].
  pose proof (LoadFromSym_cases (symbolsAt w symFile)) as Hsym.
  destruct (LoadFromSym (symbolsAt w symFile)) as [[signals [err|]]|p0|] eqn:Hload;
    cbn [fst snd]; [by split| | |done].
  - destruct (buildGraph_cases constraints signals)
      as [(g & Hg & _)|(id & Hpanic & Happ & Hout)].
    + rewrite Hg. destruct (analyzeGraph_built constraints signals g Hg) as [r ->].
      by split.
    + rewrite Hpanic. cbn [snd]. split; [done|]. intros p [= <-].
      exists tempFile, constraintsFile, symFile, constraints. split_and!; [done..|].
      right. by exists signals, id.
  - destruct Hsym as [n ->]. split; [done|]. intros p [= <-].
    exists tempFile, constraintsFile, symFile, constraints. split_and!; [done..|].
    left. by exists n.
Qed.

(** X21.  A file the cleanup misses: when the compiler succeeds and has
    written the constraints file next to the temporary file [stem.ext],
    but no symbol file, [analyzeTemplate] returns the error of
    [CompileCircuit] and removes the temporary file only; the constraints
    file is left behind. *)
Theorem analyzeTemplate_leaves_constraints_file {rng : Type} (draw : Z → rng → Z * rng)
    (Sprintf : string → string) (visualize : bool) (w : surroundings)
    (filePath : list Z) (template : TemplateInfo) (s : rng) (stem ext : list Z) :
  0 ≤ ArgCount template →
  46 ∉ ext → 47 ∉ ext →
  createTemp w filePath = Some (stem ++ 46 :: ext) →
  (∀ text, appendTo w (stem ++ 46 :: ext) text = true) →
  compilerRuns w (stem ++ 46 :: ext) = true →
  statAt w (stem ++ runes "_constraints.json") = StatFound →
  statAt w (stem ++ runes ".sym") = StatNotExist →
  ∃ s', analyzeTemplate draw Sprintf visualize w filePath template s
        = ([Removed (stem ++ 46 :: ext)], Done (Some (CompileFailure SymFileNotGenerated), s')).
Proof.
  intros Hcount Hdot Hsep Hcreate Happend Hruns Hconstraints Hsym.
  unfold analyzeTemplate. rewrite Hcreate.
  destruct (GenerateRandomArgs_returns draw (ArgCount template) s Hcount) as [[args s'] ->].
  exists s'. unfold AddMainComponent. rewrite Happend. cbn [negb].
  unfold CompileCircuit. rewrite Ext_extension, TrimSuffix_app by done.
  by rewrite Hruns, Hconstraints, Hsym.
Qed.

(** ** From the document to the graph *)

Lemma LoadFromJson_document
    (doc : list (gmap (list Z) (list Z) * gmap (list Z) (list Z) * gmap (list Z) (list Z))) :
  LoadFromJson (ConstraintsDocument doc)
  = ((λ t, (convertKeys t.1.1, convertKeys t.1.2, convertKeys t.2)) <$> doc, None).
Proof.
  unfold LoadFromJson.
  by rewrite (foldl_snoc_fmap (λ t, (convertKeys t.1.1, convertKeys t.1.2, convertKeys t.2))).
Qed.

Lemma elem_of_convertKeys (m : gmap (list Z) (list Z)) (id : Z) :
  id ∈ convertKeys m ↔ ∃ key, is_Some (m !! key) ∧ stringToInt key = id.
Proof.
  rewrite convertKeys_spec, list_elem_of_fmap. split.
  - intros (key & -> & Hkey%elem_of_rangeMap_keys). by exists key.
  - intros (key & Hkey & <-). exists key. split; [done|]. by apply elem_of_rangeMap_keys.
Qed.

Lemma appears_converted
    (t : gmap (list Z) (list Z) * gmap (list Z) (list Z) * gmap (list Z) (list Z)) (id : Z) :
  appears id [(convertKeys t.1.1, convertKeys t.1.2, convertKeys t.2)] ↔ keyIndex t id.
Proof.
  unfold appears, keyIndex, expressions. split.
  - intros (c & expr & ->%list_elem_of_singleton & Hexpr & Hid). cbn [fst snd] in Hexpr.
    apply elem_of_cons in Hexpr as [-> | Hexpr];
      [|apply elem_of_cons in Hexpr as [-> | ->%list_elem_of_singleton]];
      apply elem_of_convertKeys in Hid as (key & Hkey & Hval).
    + exists t.1.1, key. split_and!; [by left|done..].
    + exists t.1.2, key. split_and!; [by right; left|done..].
    + exists t.2, key. split_and!; [by right; right; left|done..].
  - intros (m & key & Hm & Hkey & Hval).
    exists (convertKeys t.1.1, convertKeys t.1.2, convertKeys t.2), (convertKeys m).
    split_and!; [by left| |apply elem_of_convertKeys; by exists key].
    cbn [fst snd]. apply elem_of_cons in Hm as [-> | Hm];
      [|apply elem_of_cons in Hm as [-> | ->%list_elem_of_singleton]].
    + by left.
    + by right; left.
    + by right; right; left.
Qed.

(** X22.  The graph of a constraints document, read off the document:
    its nodes are the indices [stringToInt] gives for the keys of the
    document (so a key that is no number stands for signal 0), and two
    different indices are adjacent exactly when keys of one and the same
    constraint give them.  The values under the keys play no part. *)
Theorem buildGraph_of_document
    (doc : list (gmap (list Z) (list Z) * gmap (list Z) (list Z) * gmap (list Z) (list Z)))
    (signals : list string) (g : UndirectedGraph) :
  buildGraph (LoadFromJson (ConstraintsDocument doc)).1 signals = Done g →
  (∀ id, is_Some (nodes g !! id) ↔ ∃ t, t ∈ doc ∧ keyIndex t id)
  ∧ (∀ u v, adjacent g u v ↔ u ≠ v ∧ ∃ t, t ∈ doc ∧ keyIndex t u ∧ keyIndex t v).
Proof.
  rewrite LoadFromJson_document. cbn [fst]. intros Hg.
  destruct (buildGraph_Done _ signals g Hg) as (_ & _ & _ & Hdom & Hadj).
  split.
  - intros id. rewrite Hdom. split.
    + intros (c & expr & (t & -> & Ht)%list_elem_of_fmap & Hexpr & Hid).
      exists t. split; [done|]. apply appears_converted.
      eexists _, expr. split_and!; [by left|done..].
    + intros (t & Ht & (c & expr & ->%list_elem_of_singleton & Hexpr & Hid)%appears_converted).
      eexists _, expr. split_and!; [|done..]. apply list_elem_of_fmap. by exists t.
  - intros u v. rewrite Hadj. unfold cooccur. split.
    + intros [Hne (c & (t & -> & Ht)%list_elem_of_fmap & Hu & Hv)]. split; [done|].
      exists t. by rewrite <- !appears_converted.
    + intros [Hne (t & Ht & Hu & Hv)]. split; [done|].
      eexists. split; [apply list_elem_of_fmap; by exists t|].
      by rewrite !appears_converted.
Qed.

End Model.

Arguments drawsInRange {rng} draw.
Arguments Intn {rng} draw n s.
Arguments GenerateRandomArgs {rng} draw count s.

(** * The order of map iteration *)

Lemma buildGraph_nodes_determined
    (order1 order2 : ∀ K A : Type, list (K * A) → list (K * A))
    (Horder1 : ∀ (K A : Type) (l : list (K * A)), order1 K A l ≡ₚ l)
    (Horder2 : ∀ (K A : Type) (l : list (K * A)), order2 K A l ≡ₚ l)
    (data : Constraints) (signals : list string) (g1 g2 : UndirectedGraph) :
  buildGraph order1 data signals = Done g1 →
  buildGraph order2 data signals = Done g2 →
  nodes g2 = nodes g1.
Proof.
  intros Hg1 Hg2.
  destruct (buildGraph_Done order1 Horder1 data signals g1 Hg1) as (Hin & _ & _ & Hdom1 & _).
  destruct (buildGraph_Done order2 Horder2 data signals g2 Hg2) as (_ & _ & _ & Hdom2 & _).
  destruct (buildGraph_named_nodes order1 Horder1 data signals Hin) as (g1' & Hg1' & Hnodes1).
  destruct (buildGraph_named_nodes order2 Horder2 data signals Hin) as (g2' & Hg2' & Hnodes2).
  assert (g1' = g1) as -> by congruence. assert (g2' = g2) as -> by congruence.
  apply map_eq. intros id. destruct (nodes g1 !! id) as [n1|] eqn:E1.
  - assert (appears id data) as Happ by (apply Hdom1; by eexists).
    destruct (Hnodes1 id Happ) as (name1 & Hname1 & Hn1).
    destruct (Hnodes2 id Happ) as (name2 & Hname2 & Hn2). congruence.
  - destruct (nodes g2 !! id) eqn:E2; [|done].
    assert (is_Some (nodes g1 !! id)) as [n0 Hn0]; [|congruence].
    apply Hdom1, Hdom2. by eexists.
Qed.

(** X3.  The graph does not depend on the order in which Go iterates
    over its maps.  When [buildGraph] returns a graph under one iteration
    order, it returns a graph under any other, with the same nodes and the
    same pairs of adjacent nodes, and the underconstraint check reports the
    same names, up to the order of the report. *)
Theorem buildGraph_order_independent
    (order1 order2 : ∀ K A : Type, list (K * A) → list (K * A))
    (data : Constraints) (signals : list string) (g1 : UndirectedGraph) :
  (∀ (K A : Type) (l : list (K * A)), order1 K A l ≡ₚ l) →
  (∀ (K A : Type) (l : list (K * A)), order2 K A l ≡ₚ l) →
  buildGraph order1 data signals = Done g1 →
  ∃ g2,
    buildGraph order2 data signals = Done g2
    ∧ nodes g2 = nodes g1
    ∧ (∀ u v, adjacent g2 u v ↔ adjacent g1 u v)
    ∧ findUnderconstrainedSignals order2 g2 ≡ₚ findUnderconstrainedSignals order1 g1.
Proof.
  intros Horder1 Horder2 Hg1.
  destruct (buildGraph_Done order1 Horder1 data signals g1 Hg1) as (Hin & _ & _ & _ & Hadj1).
  destruct (buildGraph_in_table order2 Horder2 data signals Hin) as [g2 Hg2].
  destruct (buildGraph_Done order2 Horder2 data signals g2 Hg2) as (_ & _ & _ & _ & Hadj2).
  assert (nodes g2 = nodes g1) as Hnodes.
  { by apply (buildGraph_nodes_determined order1 order2 Horder1 Horder2 data signals). }
  assert (∀ u v, adjacent g2 u v ↔ adjacent g1 u v) as Hadj.
  { intros u v. by rewrite Hadj1, Hadj2. }
  exists g2. split_and!; [done..|].
  rewrite (findUnderconstrainedSignals_filter order1 Horder1),
          (findUnderconstrainedSignals_filter order2 Horder2).
  apply fmap_Permutation.
  assert (Nodes order2 g2 ≡ₚ Nodes order1 g1) as ->.
  { unfold Nodes, rangeMap. rewrite Horder1, Horder2. by rewrite Hnodes. }
  erewrite list_filter_iff; [done|].
  intros n. cbn.
  assert (neighbours g2 (IDVal n) = neighbours g1 (IDVal n)) as Hsame.
  { apply set_eq. intros v. by rewrite !elem_of_neighbours. }
  unfold degree. by rewrite Hsame.
Qed.

(** * The theorems at concrete inputs *)

Lemma listed_order_permutes (K A : Type) (l : list (K * A)) : listed_order K A l ≡ₚ l.
Proof. reflexivity. Qed.

Lemma lcg_draw_in_range : drawsInRange lcg_draw.
Proof. intros n s Hn. unfold lcg_draw. cbn [fst]. apply Z.mod_pos_bound. lia. Qed.

(** C1, the claim as stated fails: index 5 appears in the only constraint,
    the name table has one entry, and [buildGraph] panics instead of
    completing with a placeholder name. *)
Lemma buildGraph_beyond_table_panics :
  buildGraph listed_order [([5], [], [])] ["1"%string] = Panicked (IndexOutOfRange 5 1)
  ∧ ¬ ∃ g, buildGraph listed_order [([5], [], [])] ["1"%string] = Done g.
Proof. split; [reflexivity|]. by intros [g Hg]. Qed.

Lemma buildGraph_names_from_table_witness :
  (∀ id, appears id [([1], [2], []); ([0; 3], [], [3])] → inTable ["1"; "a"; "b"; "c"]%string id)
  ∧ ∃ g,
      buildGraph listed_order [([1], [2], []); ([0; 3], [], [3])] ["1"; "a"; "b"; "c"]%string
        = Done g
      ∧ ∀ id, appears id [([1], [2], []); ([0; 3], [], [3])] →
          ∃ name, ["1"; "a"; "b"; "c"]%string !! Z.to_nat id = Some name
                  ∧ nodes g !! id = Some (mkNamedNode id name).
Proof.
  assert (∀ id, appears id [([1], [2], []); ([0; 3], [], [3])]
                → inTable ["1"; "a"; "b"; "c"]%string id) as Htable.
  { intros id. rewrite !appears_cons. unfold inTable. cbn. set_unfold.
    intros [?|[?|Hnil]]; [lia|lia|]. by apply appears_nil in Hnil. }
  split; [exact Htable|].
  apply (buildGraph_names_from_table listed_order listed_order_permutes). exact Htable.
Defined.

Lemma buildGraph_simple_witness :
  ∃ g,
    buildGraph listed_order [([1], [2], []); ([2; 1], [], [3]); ([1], [2], [])]
      ["1"; "a"; "b"; "c"]%string = Done g
    ∧ (∀ u, ¬ adjacent g u u)
    ∧ NoDup (ends <$> Edges listed_order g).
Proof.
  eexists. split; [vm_compute; reflexivity|].
  eassert (_ ∧ _ ∧ _ ∧ _) as (H1 & _ & H3 & _).
  { eapply (buildGraph_simple listed_order listed_order_permutes
              [([1], [2], []); ([2; 1], [], [3]); ([1], [2], [])] ["1"; "a"; "b"; "c"]%string).
    vm_compute. reflexivity. }
  split; [exact H1|exact H3].
Defined.

Lemma buildGraph_nodes_witness :
  ∃ g,
    buildGraph listed_order [([1], [2], []); ([7; 1], [], [3])]
      ["1"; "a"; "b"; "c"; "d"; "e"; "f"; "g"]%string = Done g
    ∧ ∀ id, id ∈ dom (nodes g) ↔ appears id [([1], [2], []); ([7; 1], [], [3])].
Proof.
  eexists. split; [vm_compute; reflexivity|].
  eapply (buildGraph_nodes listed_order listed_order_permutes
            [([1], [2], []); ([7; 1], [], [3])]
            ["1"; "a"; "b"; "c"; "d"; "e"; "f"; "g"]%string).
  vm_compute. reflexivity.
Defined.

Lemma findUnderconstrainedSignals_degree_witness :
  ∃ g,
    buildGraph listed_order [([0; 1], [2], []); ([2], [], [3])]
      ["1"; "a"; "b"; "c"]%string = Done g
    ∧ ∀ name, name ∈ findUnderconstrainedSignals listed_order g
        ↔ ∃ id n, nodes g !! id = Some n ∧ Name n = name ∧ (degree g id ≤ 1)%nat.
Proof.
  eexists. split; [vm_compute; reflexivity|].
  eapply (findUnderconstrainedSignals_degree listed_order listed_order_permutes
            [([0; 1], [2], []); ([2], [], [3])] ["1"; "a"; "b"; "c"]%string).
  vm_compute. reflexivity.
Defined.

Lemma analyzeGraph_connectivity_witness :
  ∃ G gc GC cc,
    buildGraph listed_order [([0; 1], [2], []); ([0], [], [3])]
      ["1"; "a"; "b"; "c"]%string = Done G
    ∧ ({[1%positive := G]} : gmap positive UndirectedGraph) !! 1%positive = Some G
    ∧ analyzeGraph listed_order {[1%positive := G]} 1%positive
      = Done (<[gc := GC]> {[1%positive := G]}, degreeReport listed_order G ++ subgraphReport G cc)
    ∧ componentsOf GC cc
    ∧ <[gc := GC]> ({[1%positive := G]} : gmap positive UndirectedGraph) !! 1%positive = Some G.
Proof.
  assert (∃ G, buildGraph listed_order [([0; 1], [2], []); ([0], [], [3])]
                 ["1"; "a"; "b"; "c"]%string = Done G) as [G HG]
    by (eexists; vm_compute; reflexivity).
  destruct (analyzeGraph_connectivity listed_order listed_order_permutes _ _ G
              {[1%positive := G]} 1%positive HG (lookup_singleton_eq _ _))
    as (gc & GC & cc & _ & _ & _ & _ & _ & Hcomp & Hrun & Hkept & _).
  exists G, gc, GC, cc. split_and!; [exact HG|apply lookup_singleton_eq|exact Hrun|exact Hcomp|exact Hkept].
Defined.

Lemma buildGraph_two_constraints_witness :
  (∀ s, appears s [([1], [2], [])] ↔ s = 1 ∨ s = 2)
  ∧ (∀ s, appears s [([2], [], [3; 2])] ↔ s = 2 ∨ s = 3)
  ∧ (4 ≤ length ["1"; "a"; "b"; "c"]%string)%nat
  ∧ ∃ g a b c,
      buildGraph listed_order [([1], [2], []); ([2], [], [3; 2])] ["1"; "a"; "b"; "c"]%string
        = Done g
      ∧ ["1"; "a"; "b"; "c"]%string !! 1%nat = Some a
      ∧ ["1"; "a"; "b"; "c"]%string !! 2%nat = Some b
      ∧ ["1"; "a"; "b"; "c"]%string !! 3%nat = Some c
      ∧ nodes g = {[1 := mkNamedNode 1 a; 2 := mkNamedNode 2 b; 3 := mkNamedNode 3 c]}
      ∧ (∀ u v, adjacent g u v
           ↔ (u = 1 ∧ v = 2) ∨ (u = 2 ∧ v = 1) ∨ (u = 2 ∧ v = 3) ∨ (u = 3 ∧ v = 2))
      ∧ ends <$> Edges listed_order g ≡ₚ [(1, 2); (2, 3)]
      ∧ degree g 1 = 1%nat ∧ degree g 2 = 2%nat ∧ degree g 3 = 1%nat
      ∧ findUnderconstrainedSignals listed_order g ≡ₚ [a; c].
Proof.
  assert (∀ s, appears s [([1], [2], [])] ↔ s = 1 ∨ s = 2) as H1.
  { intros s. rewrite appears_singleton. cbn. set_unfold. lia. }
  assert (∀ s, appears s [([2], [], [3; 2])] ↔ s = 2 ∨ s = 3) as H2.
  { intros s. rewrite appears_singleton. cbn. set_unfold. lia. }
  assert (4 ≤ length ["1"; "a"; "b"; "c"]%string)%nat as H3 by (cbn; lia).
  split_and!; [exact H1|exact H2|exact H3|].
  exact (buildGraph_two_constraints listed_order listed_order_permutes _ _ _ H1 H2 H3).
Defined.

(** C8, the claim as stated fails: the key "-5" is not a numeral of a
    non-negative integer, and the index it yields is -5, not 0. *)
Lemma LoadFromJson_negative_key :
  (¬ ∃ n, decimalNumeral (runes "-5") n)
  ∧ stringToInt (runes "-5") = -5
  ∧ LoadFromJson listed_order (ConstraintsDocument [({[runes "-5" := runes "1"]}, ∅, ∅)])
    = ([([-5], [], [])], None).
Proof.
  split_and!; [|reflexivity|reflexivity].
  intros (n & _ & Hall & _). change (runes "-5") with [45; 53] in Hall.
  apply Forall_cons in Hall as [Hdigit _]. cbn beta in Hdigit. lia.
Qed.

Lemma LoadFromJson_key_indices_witness :
  ∃ constraints,
    LoadFromJson listed_order
      (ConstraintsDocument [({[runes "12" := runes "1"]}, {[runes "x" := runes "1"]}, ∅)])
      = (constraints, None)
    ∧ length constraints = 1%nat.
Proof.
  destruct (LoadFromJson_key_indices listed_order listed_order_permutes
              [({[runes "12" := runes "1"]}, {[runes "x" := runes "1"]}, ∅)])
    as (constraints & Hload & Hlen & _).
  exists constraints. split; [exact Hload|exact Hlen].
Defined.

Lemma LoadFromSym_names_witness :
  ReadAll 0 [Some ["1"; "1"; "0"; "main.in"]; Some ["2"; "2"; "0"; "main.out"]]%string []
    = inr [["1"; "1"; "0"; "main.in"]; ["2"; "2"; "0"; "main.out"]]%string
  ∧ Forall (λ record, 4 ≤ length record)%nat
      [["1"; "1"; "0"; "main.in"]; ["2"; "2"; "0"; "main.out"]]%string
  ∧ ∃ signals,
      LoadFromSym (SymRecords
        [Some ["1"; "1"; "0"; "main.in"]; Some ["2"; "2"; "0"; "main.out"]]%string)
        = Done (signals, None)
      ∧ length signals = 3%nat
      ∧ signals !! 0%nat = Some "1"%string.
Proof.
  assert (Forall (λ record, 4 ≤ length record)%nat
            [["1"; "1"; "0"; "main.in"]; ["2"; "2"; "0"; "main.out"]]%string) as Hall.
  { repeat constructor. }
  split_and!; [reflexivity|exact Hall|].
  destruct (LoadFromSym_names
              [Some ["1"; "1"; "0"; "main.in"]; Some ["2"; "2"; "0"; "main.out"]]%string
              _ eq_refl Hall) as (_ & signals & Hload & Hlen & Hfirst & _).
  exists signals. split_and!; [exact Hload|exact Hlen|exact Hfirst].
Defined.

Lemma GenerateRandomArgs_count_and_range_witness :
  drawsInRange lcg_draw
  ∧ 0 ≤ 3
  ∧ ∃ args s',
      GenerateRandomArgs lcg_draw 3 42 = Done (args, s')
      ∧ Z.of_nat (length args) = 3
      ∧ Forall (λ a, 2 ≤ a ≤ 15) args.
Proof.
  split_and!; [exact lcg_draw_in_range|lia|].
  apply (GenerateRandomArgs_count_and_range lcg_draw 3 42 lcg_draw_in_range). lia.
Defined.

(** ** The further properties at concrete inputs *)

Lemma reversed_order_permutes (K A : Type) (l : list (K * A)) : reversed_order K A l ≡ₚ l.
Proof. apply reverse_Permutation. Qed.

Lemma buildGraph_edges_witness :
  ∃ g,
    buildGraph listed_order [([0; 1], [2], []); ([2], [], [3])] ["1"; "a"; "b"; "c"]%string
      = Done g
    ∧ ∀ u v, adjacent g u v ↔ u ≠ v ∧ cooccur u v [([0; 1], [2], []); ([2], [], [3])].
Proof.
  eexists. split; [vm_compute; reflexivity|].
  eapply (buildGraph_edges listed_order listed_order_permutes
            [([0; 1], [2], []); ([2], [], [3])] ["1"; "a"; "b"; "c"]%string).
  vm_compute. reflexivity.
Defined.

Lemma buildGraph_returns_or_panics_witness :
  (∃ g,
     buildGraph listed_order [([1], [5], [])] ["1"; "a"]%string = Done g
     ∧ ∀ id, appears id [([1], [5], [])] → 0 ≤ id < Z.of_nat (length ["1"; "a"]%string))
  ∨ (∃ id,
       buildGraph listed_order [([1], [5], [])] ["1"; "a"]%string
         = Panicked (IndexOutOfRange id (length ["1"; "a"]%string))
       ∧ appears id [([1], [5], [])]
       ∧ ¬ (0 ≤ id < Z.of_nat (length ["1"; "a"]%string))).
Proof.
  exact (buildGraph_returns_or_panics listed_order listed_order_permutes
           [([1], [5], [])] ["1"; "a"]%string).
Defined.

Lemma buildGraph_order_independent_witness :
  ∃ g1 g2,
    buildGraph listed_order [([0; 1], [2], []); ([2; 3], [], [4])]
      ["1"; "a"; "b"; "c"; "d"]%string = Done g1
    ∧ buildGraph reversed_order [([0; 1], [2], []); ([2; 3], [], [4])]
        ["1"; "a"; "b"; "c"; "d"]%string = Done g2
    ∧ nodes g2 = nodes g1
    ∧ (∀ u v, adjacent g2 u v ↔ adjacent g1 u v)
    ∧ findUnderconstrainedSignals reversed_order g2
      ≡ₚ findUnderconstrainedSignals listed_order g1.
Proof.
  assert (∃ g1, buildGraph listed_order [([0; 1], [2], []); ([2; 3], [], [4])]
                  ["1"; "a"; "b"; "c"; "d"]%string = Done g1) as [g1 Hg1]
    by (eexists; vm_compute; reflexivity).
  destruct (buildGraph_order_independent listed_order reversed_order _ _ g1
              listed_order_permutes reversed_order_permutes Hg1) as (g2 & Hg2 & Hrest).
  exists g1, g2. split; [exact Hg1|]. split; [exact Hg2|exact Hrest].
Defined.

Lemma buildGraph_skips_empty_constraint_witness :
  buildGraph listed_order ([([1], [2], [])] ++ ([], [], []) :: [([2], [], [3])])
    ["1"; "a"; "b"; "c"]%string
  = buildGraph listed_order ([([1], [2], [])] ++ [([2], [], [3])]) ["1"; "a"; "b"; "c"]%string.
Proof.
  exact (buildGraph_skips_empty_constraint listed_order listed_order_permutes
           [([1], [2], [])] [([2], [], [3])] ["1"; "a"; "b"; "c"]%string).
Defined.

Lemma underconstrained_from_constraints_witness :
  ∃ g,
    buildGraph listed_order [([0; 1], [2], []); ([2], [], [3])] ["1"; "a"; "b"; "c"]%string
      = Done g
    ∧ ∀ name, name ∈ findUnderconstrainedSignals listed_order g
        ↔ ∃ id, appears id [([0; 1], [2], []); ([2], [], [3])]
                ∧ ["1"; "a"; "b"; "c"]%string !! Z.to_nat id = Some name
                ∧ ∀ v w, v ≠ id → w ≠ id →
                    cooccur id v [([0; 1], [2], []); ([2], [], [3])] →
                    cooccur id w [([0; 1], [2], []); ([2], [], [3])] → v = w.
Proof.
  eexists. split; [vm_compute; reflexivity|].
  eapply (underconstrained_from_constraints listed_order listed_order_permutes
            [([0; 1], [2], []); ([2], [], [3])] ["1"; "a"; "b"; "c"]%string).
  vm_compute. reflexivity.
Defined.

Lemma analyzeGraph_reports_connected_witness :
  ∃ G h' out,
    buildGraph listed_order [([0; 1], [2], []); ([0], [], [3])] ["1"; "a"; "b"; "c"]%string
      = Done G
    ∧ analyzeGraph listed_order {[1%positive := G]} 1%positive = Done (h', out)
    ∧ (FullyConnectedLine ∈ out
       ↔ ∀ u v, appears u [([0; 1], [2], []); ([0], [], [3])] →
                appears v [([0; 1], [2], []); ([0], [], [3])] →
                u ≠ 0 → v ≠ 0 → linkedApartFromConstant G u v).
Proof.
  assert (∃ G, buildGraph listed_order [([0; 1], [2], []); ([0], [], [3])]
                 ["1"; "a"; "b"; "c"]%string = Done G) as [G HG]
    by (eexists; vm_compute; reflexivity).
  destruct (analyzeGraph_reports_connected listed_order listed_order_permutes _ _ G
              {[1%positive := G]} 1%positive HG (lookup_singleton_eq _ _))
    as (h' & out & Hrun & Hline).
  exists G, h', out. split; [exact HG|]. split; [exact Hrun|exact Hline].
Defined.

Lemma analyzeGraph_prints_every_signal_witness :
  ∃ G h' out,
    buildGraph listed_order [([0; 1], [2], []); ([0], [], [3])] ["1"; "a"; "b"; "c"]%string
      = Done G
    ∧ analyzeGraph listed_order {[1%positive := G]} 1%positive = Done (h', out)
    ∧ (∀ id, NodeIDLine id ∉ out)
    ∧ (FullyConnectedLine ∉ out →
       ∃ ns, namesPrinted out = Name <$> ns
             ∧ NoDup (IDVal <$> ns)
             ∧ ∀ n, n ∈ ns ↔ ∃ id, id ≠ 0 ∧ nodes G !! id = Some n).
Proof.
  assert (∃ G, buildGraph listed_order [([0; 1], [2], []); ([0], [], [3])]
                 ["1"; "a"; "b"; "c"]%string = Done G) as [G HG]
    by (eexists; vm_compute; reflexivity).
  destruct (analyzeGraph_prints_every_signal listed_order listed_order_permutes _ _ G
              {[1%positive := G]} 1%positive HG (lookup_singleton_eq _ _))
    as (h' & out & Hrun & Hrest).
  exists G, h', out. split; [exact HG|]. split; [exact Hrun|exact Hrest].
Defined.

Lemma LoadFromSym_outcome_witness :
  Forall (λ row, row ≠ Some [])
    [Some ["1"; "1"; "0"; "main.in"]; Some ["2"; "2"; "0"; "main.out"]]%string
  ∧ LoadFromSym (SymRecords
      [Some ["1"; "1"; "0"; "main.in"]; Some ["2"; "2"; "0"; "main.out"]]%string)
    = Done (["1"; "main.in"; "main.out"]%string, None).
Proof.
  assert (Forall (λ row : option (list string), row ≠ Some [])
            [Some ["1"; "1"; "0"; "main.in"]; Some ["2"; "2"; "0"; "main.out"]]%string)
    as Hrows by (repeat constructor; done).
  split; [exact Hrows|].
  exact (proj2 (LoadFromSym_outcome _ Hrows)).
Defined.

Lemma stringToInt_reads_leading_number_witness :
  Forall (λ r, isSpace r = true ∧ r ≠ 10) [32]
  ∧ [49; 50] ≠ []
  ∧ Forall (λ r, 48 ≤ r ≤ 57) [49; 50]
  ∧ stringToInt ([32] ++ [45] ++ [49; 50] ++ [120]) = -12.
Proof.
  assert (Forall (λ r, isSpace r = true ∧ r ≠ 10) [32]) as Hws.
  { constructor; [|constructor]. split; [reflexivity|lia]. }
  assert (Forall (λ r, 48 ≤ r ≤ 57) [49; 50]) as Hds.
  { constructor; [lia|]. constructor; [lia|constructor]. }
  split; [exact Hws|]. split; [discriminate|]. split; [exact Hds|].
  rewrite (stringToInt_reads_leading_number [32] [45] [49; 50] [120] Hws);
    [reflexivity|right; right; reflexivity|discriminate|exact Hds|cbn; lia].
Defined.

Lemma stringToInt_formatInt_witness :
  - 2 ^ 63 ≤ - 2 ^ 63 < 2 ^ 63 ∧ stringToInt (formatInt (- 2 ^ 63)) = - 2 ^ 63.
Proof.
  assert (- 2 ^ 63 ≤ - 2 ^ 63 < 2 ^ 63) as Hv by lia.
  split; [exact Hv|]. exact (stringToInt_formatInt (- 2 ^ 63) Hv).
Defined.

Lemma joinInts_round_trip_witness :
  [2; 15; -7] ≠ []
  ∧ Forall (λ v, - 2 ^ 63 ≤ v < 2 ^ 63) [2; 15; -7]
  ∧ stringToInt <$> Split (joinInts [2; 15; -7]) 44 = [2; 15; -7].
Proof.
  assert (Forall (λ v, - 2 ^ 63 ≤ v < 2 ^ 63) [2; 15; -7]) as Hall.
  { repeat (constructor; [lia|]). constructor. }
  split; [discriminate|]. split; [exact Hall|].
  apply joinInts_round_trip; [discriminate|exact Hall].
Defined.

Lemma extracted_template_gets_its_arguments_witness :
  drawsInRange lcg_draw
  ∧ mkTemplateInfo (runes "Multiplier") 2
    ∈ extractTemplates [(runes "Adder", []); (runes "Multiplier", runes "n, m")]
  ∧ ∃ args s',
      GenerateRandomArgs lcg_draw (ArgCount (mkTemplateInfo (runes "Multiplier") 2)) 42
        = Done (args, s')
      ∧ countArgs (joinInts args) = ArgCount (mkTemplateInfo (runes "Multiplier") 2).
Proof.
  assert (mkTemplateInfo (runes "Multiplier") 2
          ∈ extractTemplates [(runes "Adder", []); (runes "Multiplier", runes "n, m")]) as Hin.
  { right. left. }
  split; [exact lcg_draw_in_range|]. split; [exact Hin|].
  exact (extracted_template_gets_its_arguments lcg_draw _ _ 42 lcg_draw_in_range Hin).
Defined.

Lemma CompileCircuit_outputs_witness :
  (46 ∉ runes "circom")
  ∧ (47 ∉ runes "circom")
  ∧ CompileCircuit true (λ _, StatFound) (runes "/tmp/circom_1" ++ 46 :: runes "circom")
    = (runes "/tmp/circom_1" ++ runes "_constraints.json",
       runes "/tmp/circom_1" ++ runes ".sym", None).
Proof.
  assert (46 ∉ runes "circom") as Hdot by (apply (bool_decide_unpack _); vm_compute; exact I).
  assert (47 ∉ runes "circom") as Hsep by (apply (bool_decide_unpack _); vm_compute; exact I).
  split; [exact Hdot|]. split; [exact Hsep|].
  exact (CompileCircuit_outputs true (λ _, StatFound) (runes "/tmp/circom_1") (runes "circom")
           Hdot Hsep).
Defined.

Lemma CompileCircuit_without_extension_witness :
  (46 ∉ runes "circuit")
  ∧ (47 ∉ runes "circuit")
  ∧ CompileCircuit true (λ _, StatFound) (runes "/tmp.d" ++ 47 :: runes "circuit")
    = (runes "/tmp.d" ++ 47 :: runes "circuit" ++ runes "_constraints.json",
       runes "/tmp.d" ++ 47 :: runes "circuit" ++ runes ".sym", None).
Proof.
  assert (46 ∉ runes "circuit") as Hdot by (apply (bool_decide_unpack _); vm_compute; exact I).
  assert (47 ∉ runes "circuit") as Hsep by (apply (bool_decide_unpack _); vm_compute; exact I).
  split; [exact Hdot|]. split; [exact Hsep|].
  exact (CompileCircuit_without_extension (λ _, StatFound) (runes "/tmp.d") (runes "circuit")
           Hdot Hsep eq_refl eq_refl).
Defined.

Lemma visualizeGraph_chart_witness :
  copiesPlainText (λ format, format)
  ∧ Forall plain ["1"; "main.a"; "main.b"; "main.c"]%string
  ∧ ∃ g ids pairs,
      buildGraph listed_order [([0; 1], [2], []); ([2], [], [3])]
        ["1"; "main.a"; "main.b"; "main.c"]%string = Done g
      ∧ GraphNodes (visualizeGraph listed_order (λ format, format) g (runes "Main"))
        = (λ id, default EmptyString
                   (["1"; "main.a"; "main.b"; "main.c"]%string !! Z.to_nat id)) <$> ids
      ∧ NoDup ids
      ∧ (∀ id, id ∈ ids ↔ appears id [([0; 1], [2], []); ([2], [], [3])])
      ∧ GraphLinks (visualizeGraph listed_order (λ format, format) g (runes "Main"))
        = (λ p, (default EmptyString
                   (["1"; "main.a"; "main.b"; "main.c"]%string !! Z.to_nat p.1),
                 default EmptyString
                   (["1"; "main.a"; "main.b"; "main.c"]%string !! Z.to_nat p.2))) <$> pairs
      ∧ NoDup ((λ p, (Z.min p.1 p.2, Z.max p.1 p.2)) <$> pairs).
Proof.
  assert (copiesPlainText (λ format, format)) as Hcopy by (intros format _; reflexivity).
  assert (Forall plain ["1"; "main.a"; "main.b"; "main.c"]%string) as Hplain.
  { repeat (constructor; [apply (bool_decide_unpack _); vm_compute; exact I|]). constructor. }
  split; [exact Hcopy|]. split; [exact Hplain|].
  assert (∃ g, buildGraph listed_order [([0; 1], [2], []); ([2], [], [3])]
                 ["1"; "main.a"; "main.b"; "main.c"]%string = Done g) as [g Hg]
    by (eexists; vm_compute; reflexivity).
  destruct (visualizeGraph_chart listed_order listed_order_permutes (λ format, format)
              _ _ g (runes "Main") Hcopy Hplain Hg)
    as (ids & pairs & Hnodes & Hnodup & Hids & Hlinks & Hone & _).
  exists g, ids, pairs.
  split; [exact Hg|]. split; [exact Hnodes|]. split; [exact Hnodup|]. split; [exact Hids|].
  split; [exact Hlinks|exact Hone].
Defined.

Lemma analyzeTemplate_removals_witness :
  createTemp (sampleSurroundings (λ _, StatFound)) (runes "adder.circom")
    = Some (runes "/tmp/circom_1.circom")
  ∧ (∃ args s',
       GenerateRandomArgs lcg_draw (ArgCount (mkTemplateInfo (runes "Adder") 2)) 42
         = Done (args, s')
       ∧ AddMainComponent (sampleSurroundings (λ _, StatFound)) (runes "/tmp/circom_1.circom")
           (TemplateName (mkTemplateInfo (runes "Adder") 2)) args = true)
  ∧ ∃ printed,
      (∀ path, Removed path ∉ printed)
      ∧ (analyzeTemplate listed_order Z lcg_draw (λ format, format) true
           (sampleSurroundings (λ _, StatFound)) (runes "adder.circom")
           (mkTemplateInfo (runes "Adder") 2) 42).1
        = AnalyzingTemplate (runes "Adder") (runes "adder.circom") :: printed
          ++ [Removed (runes "/tmp/circom_1.sym");
              Removed (runes "/tmp/circom_1_constraints.json");
              Removed (runes "/tmp/circom_1.circom")].
Proof.
  assert (∃ args s',
            GenerateRandomArgs lcg_draw (ArgCount (mkTemplateInfo (runes "Adder") 2)) 42
              = Done (args, s')
            ∧ AddMainComponent (sampleSurroundings (λ _, StatFound))
                (runes "/tmp/circom_1.circom")
                (TemplateName (mkTemplateInfo (runes "Adder") 2)) args = true) as Hreach.
  { eexists _, _. split; [vm_compute; reflexivity|reflexivity]. }
  split; [reflexivity|]. split; [exact Hreach|].
  destruct (analyzeTemplate_removals listed_order lcg_draw (λ format, format) true
              (sampleSurroundings (λ _, StatFound)) (runes "adder.circom")
              (mkTemplateInfo (runes "Adder") 2) 42 (runes "/tmp/circom_1.circom") eq_refl)
    as (_ & Hremoved & _).
  destruct (Hremoved (conj Hreach eq_refl)) as (printed & Hnone & Hrun).
  exists printed. split; [exact Hnone|exact Hrun].
Defined.

Lemma analyzeTemplate_panics_witness :
  0 ≤ ArgCount (mkTemplateInfo (runes "Adder") 2)
  ∧ (analyzeTemplate listed_order Z lcg_draw (λ format, format) false
       (sampleSurroundings (λ _, StatFound)) (runes "adder.circom")
       (mkTemplateInfo (runes "Adder") 2) 42).2 ≠ OutOfSteps.
Proof.
  assert (0 ≤ ArgCount (mkTemplateInfo (runes "Adder") 2)) as Hcount by (cbn; lia).
  split; [exact Hcount|].
  exact (proj1 (analyzeTemplate_panics listed_order listed_order_permutes lcg_draw
                  (λ format, format) false (sampleSurroundings (λ _, StatFound))
                  (runes "adder.circom") (mkTemplateInfo (runes "Adder") 2) 42 Hcount)).
Defined.

Lemma analyzeTemplate_leaves_constraints_file_witness :
  statAt (sampleSurroundings
            (λ path, if decide (path = runes "/tmp/circom_1.sym")
                     then StatNotExist else StatFound))
    (runes "/tmp/circom_1" ++ runes "_constraints.json") = StatFound
  ∧ statAt (sampleSurroundings
              (λ path, if decide (path = runes "/tmp/circom_1.sym")
                       then StatNotExist else StatFound))
      (runes "/tmp/circom_1" ++ runes ".sym") = StatNotExist
  ∧ ∃ s',
      analyzeTemplate listed_order Z lcg_draw (λ format, format) false
        (sampleSurroundings
           (λ path, if decide (path = runes "/tmp/circom_1.sym")
                    then StatNotExist else StatFound))
        (runes "adder.circom") (mkTemplateInfo (runes "Adder") 2) 42
      = ([Removed (runes "/tmp/circom_1" ++ 46 :: runes "circom")],
         Done (Some (CompileFailure SymFileNotGenerated), s')).
Proof.
  split; [reflexivity|]. split; [reflexivity|].
  apply (analyzeTemplate_leaves_constraints_file listed_order lcg_draw (λ format, format)
           false _ (runes "adder.circom") (mkTemplateInfo (runes "Adder") 2) 42
           (runes "/tmp/circom_1") (runes "circom")).
  - cbn. lia.
  - apply (bool_decide_unpack _). vm_compute. exact I.
  - apply (bool_decide_unpack _). vm_compute. exact I.
  - reflexivity.
  - intros text. reflexivity.
  - reflexivity.
  - reflexivity.
  - reflexivity.
Defined.

Lemma buildGraph_of_document_witness :
  ∃ g,
    buildGraph listed_order
      (LoadFromJson listed_order
         (ConstraintsDocument
            [({[runes "1" := runes "1"]}, {[runes "x" := runes "1"]}, ∅)])).1
      ["1"; "a"]%string = Done g
    ∧ (∀ id, is_Some (nodes g !! id)
         ↔ ∃ t, t ∈ [({[runes "1" := runes "1"]}, {[runes "x" := runes "1"]}, ∅)]
                ∧ keyIndex t id)
    ∧ (∀ u v, adjacent g u v
         ↔ u ≠ v
           ∧ ∃ t, t ∈ [({[runes "1" := runes "1"]}, {[runes "x" := runes "1"]}, ∅)]
                  ∧ keyIndex t u ∧ keyIndex t v).
Proof.
  eexists. split; [vm_compute; reflexivity|].
  eapply (buildGraph_of_document listed_order listed_order_permutes
            [({[runes "1" := runes "1"]}, {[runes "x" := runes "1"]}, ∅)] ["1"; "a"]%string).
  vm_compute. reflexivity.
Defined.
